(** * Verification of the GraphQL projection core of manifesto-ai/projection

    A shallow embedding of four parts of packages/projection-graphql/src:
      - the Type Mapper (found in schema/directive-builder.ts): name
        sanitisation, the DateTime scalar, the mapping functions and
        their type cache;
      - the Schema Builder (found in schema/index.ts): the domain type;
      - the Mutation Resolvers (found in resolvers/query-resolvers.ts):
        the action resolver, its preconditions and the effect interpreter;
      - the GraphQL Context (context/graphql-context.ts): SimplePubSub;
    together with the properties stated about them.  The second half of
    the file covers more of the same sources: the fixed points of the
    sanitizers, the effect interpreter on whole trees, the action and the
    set-field resolver, the query resolvers, the mapping functions and
    their cache, the root types and the resolver maps, the registry and
    the iterators of SimplePubSub, the context factory, the trigger names
    and the string escaping of the Directive Builder.

    JavaScript strings are modelled as [string]; every function below that
    changes the case of characters does so after the regular-expression
    replacement has mapped each character outside [[A-Za-z0-9_]] to an
    underscore (or, for paths, on ASCII names), so only the ASCII behaviour
    of [toUpperCase]/[toLowerCase] is used. *)

From Stdlib Require Import ZArith QArith Qabs Ascii String DecimalString.
From stdpp Require Import gmap strings list fin_maps.

(* ===================================================================== *)
(** ** Name sanitisation (Type Mapper, "Utility Functions")               *)
(* ===================================================================== *)

Module Sanitize.

Local Open Scope string_scope.

Definition in_range (lo hi : nat) (c : ascii) : bool :=
  (lo <=? nat_of_ascii c)%nat && (nat_of_ascii c <=? hi)%nat.

Definition is_digit (c : ascii) : bool := in_range 48 57 c.
Definition is_upper (c : ascii) : bool := in_range 65 90 c.
Definition is_lower (c : ascii) : bool := in_range 97 122 c.
Definition is_underscore (c : ascii) : bool := Ascii.eqb c "_"%char.

(** The character class [[a-zA-Z0-9_]]. *)
Definition is_word (c : ascii) : bool :=
  is_lower c || is_upper c || is_digit c || is_underscore c.

(** The character class [[a-zA-Z0-9]]. *)
Definition is_alnum (c : ascii) : bool :=
  is_lower c || is_upper c || is_digit c.

Definition toUpperCase_char (c : ascii) : ascii :=
  if is_lower c then ascii_of_nat (nat_of_ascii c - 32) else c.

Definition toLowerCase_char (c : ascii) : ascii :=
  if is_upper c then ascii_of_nat (nat_of_ascii c + 32) else c.

Fixpoint map_string (f : ascii -> ascii) (s : string) : string :=
  match s with
  | EmptyString => EmptyString
  | String c r => String (f c) (map_string f r)
  end.

Fixpoint all_chars (p : ascii -> bool) (s : string) : bool :=
  match s with
  | EmptyString => true
  | String c r => p c && all_chars p r
  end.

(** [name.replace(/[^a-zA-Z0-9_]/g, '_')] *)
Definition replace_non_word (name : string) : string :=
  map_string (fun c => if is_word c then c else "_"%char) name.

(** [/^[0-9]/.test(s)] *)
Definition starts_with_digit (s : string) : bool :=
  match s with
  | EmptyString => false
  | String c _ => is_digit c
  end.

(** [s.split('_')]: the empty string splits into one empty part. *)
Fixpoint split_underscore (s : string) : list string :=
  match s with
  | EmptyString => [EmptyString]
  | String c r =>
      if is_underscore c then EmptyString :: split_underscore r
      else match split_underscore r with
           | h :: t => String c h :: t
           | [] => [String c EmptyString]
           end
  end.

(** [part.charAt(0).toUpperCase() + part.slice(1)] *)
Definition capitalize (part : string) : string :=
  match part with
  | EmptyString => EmptyString
  | String c r => String (toUpperCase_char c) r
  end.

(** [s.charAt(0).toLowerCase() + s.slice(1)] *)
Definition uncapitalize (s : string) : string :=
  match s with
  | EmptyString => EmptyString
  | String c r => String (toLowerCase_char c) r
  end.

(** [parts.join('')] *)
Definition join_empty (parts : list string) : string :=
  fold_right String.append EmptyString parts.

Definition prefix_if_digit (sanitized : string) : string :=
  if starts_with_digit sanitized then String "_"%char sanitized else sanitized.

Definition sanitizeTypeName (name : string) : string :=
  let sanitized := replace_non_word name in
  let sanitized := prefix_if_digit sanitized in
  join_empty (map capitalize (split_underscore sanitized)).

Definition sanitizeFieldName (name : string) : string :=
  let sanitized := replace_non_word name in
  let sanitized := prefix_if_digit sanitized in
  uncapitalize sanitized.

Definition sanitizeEnumValue (value : string) : string :=
  map_string toUpperCase_char (replace_non_word value).


(** The expectations of tests/schema/type-mapper.test.ts. *)
Example sanitizeTypeName_user_profile :
  sanitizeTypeName "user-profile" = "UserProfile".
Proof. reflexivity. Qed.

Example sanitizeTypeName_data_user : sanitizeTypeName "data.user" = "DataUser".
Proof. reflexivity. Qed.

Example sanitizeTypeName_123abc : sanitizeTypeName "123abc" = "123abc".
Proof. reflexivity. Qed.

Example sanitizeFieldName_examples :
  sanitizeFieldName "UserName" = "userName" /\
  sanitizeFieldName "first-name" = "first_name" /\
  sanitizeFieldName "123field" = "_123field".
Proof. repeat split; reflexivity. Qed.

Example sanitizeEnumValue_examples :
  sanitizeEnumValue "active" = "ACTIVE" /\
  sanitizeEnumValue "in-progress" = "IN_PROGRESS" /\
  sanitizeEnumValue "123test" = "123TEST".
Proof. repeat split; reflexivity. Qed.

(** *** Character-level facts, by enumeration of the 256 characters. *)

Ltac by_char c :=
  destruct c as [[] [] [] [] [] [] [] []]; vm_compute; intuition congruence.

Lemma upper_keeps_alnum c : is_alnum c = true -> is_alnum (toUpperCase_char c) = true.
Proof. by_char c. Qed.

Lemma lower_keeps_word c : is_word c = true -> is_word (toLowerCase_char c) = true.
Proof. by_char c. Qed.

Lemma lower_keeps_non_digit c : is_digit c = false -> is_digit (toLowerCase_char c) = false.
Proof. by_char c. Qed.

Lemma word_split c : is_word c = true -> is_underscore c = false -> is_alnum c = true.
Proof. by_char c. Qed.

Lemma underscore_is_word : is_word "_"%char = true.
Proof. reflexivity. Qed.

(** *** String-level facts. *)

Lemma replace_non_word_all_word name : all_chars is_word (replace_non_word name) = true.
Proof.
  unfold replace_non_word.
  induction name as [|c r IH]; simpl; [reflexivity|].
  rewrite IH, andb_true_r.
  destruct (is_word c) eqn:E; [exact E | reflexivity].
Qed.

Lemma prefix_if_digit_all_word s :
  all_chars is_word s = true -> all_chars is_word (prefix_if_digit s) = true.
Proof.
  intros H. unfold prefix_if_digit.
  destruct (starts_with_digit s); simpl; [rewrite H; reflexivity | exact H].
Qed.

Lemma prefix_if_digit_no_digit s : starts_with_digit (prefix_if_digit s) = false.
Proof.
  unfold prefix_if_digit.
  destruct (starts_with_digit s) eqn:E; [reflexivity | exact E].
Qed.

Lemma all_chars_app p s t :
  all_chars p (s ++ t) = all_chars p s && all_chars p t.
Proof.
  induction s as [|c r IH]; simpl; [reflexivity|].
  rewrite IH, andb_assoc. reflexivity.
Qed.

Lemma split_underscore_nonempty s : split_underscore s <> [].
Proof.
  destruct s as [|c r]; simpl; [discriminate|].
  destruct (is_underscore c); [discriminate|].
  destruct (split_underscore r); discriminate.
Qed.

Lemma split_underscore_alnum s :
  all_chars is_word s = true ->
  Forall (fun part => all_chars is_alnum part = true) (split_underscore s).
Proof.
  induction s as [|c r IH]; simpl; intros H.
  - constructor; [reflexivity | constructor].
  - apply andb_true_iff in H as [Hc Hr]. specialize (IH Hr).
    destruct (is_underscore c) eqn:Eu.
    + constructor; [reflexivity | exact IH].
    + pose proof (word_split c Hc Eu) as Ha.
      destruct (split_underscore r) as [|h t].
      * constructor; [simpl; rewrite Ha; reflexivity | constructor].
      * inversion IH as [|? ? Hh Ht]; subst.
        constructor; [simpl; rewrite Ha, Hh; reflexivity | exact Ht].
Qed.

Lemma capitalize_alnum part :
  all_chars is_alnum part = true -> all_chars is_alnum (capitalize part) = true.
Proof.
  destruct part as [|c r]; simpl; [trivial|].
  intros H. apply andb_true_iff in H as [Hc Hr].
  rewrite (upper_keeps_alnum c Hc), Hr. reflexivity.
Qed.

Lemma join_empty_alnum parts :
  Forall (fun part => all_chars is_alnum part = true) parts ->
  all_chars is_alnum (join_empty parts) = true.
Proof.
  induction 1 as [|p ps Hp Hps IH]; simpl; [reflexivity|].
  rewrite all_chars_app, Hp, IH. reflexivity.
Qed.

Lemma sanitizeTypeName_alnum name :
  all_chars is_alnum (sanitizeTypeName name) = true.
Proof.
  unfold sanitizeTypeName. apply join_empty_alnum.
  apply Forall_map.
  eapply Forall_impl.
  - apply split_underscore_alnum, prefix_if_digit_all_word, replace_non_word_all_word.
  - intros part Hpart. simpl. apply capitalize_alnum, Hpart.
Qed.

Lemma sanitizeFieldName_word name :
  all_chars is_word (sanitizeFieldName name) = true.
Proof.
  unfold sanitizeFieldName.
  pose proof (prefix_if_digit_all_word _ (replace_non_word_all_word name)) as H.
  destruct (prefix_if_digit (replace_non_word name)) as [|c r]; simpl in *; [reflexivity|].
  apply andb_true_iff in H as [Hc Hr].
  rewrite (lower_keeps_word c Hc), Hr. reflexivity.
Qed.

Lemma sanitizeFieldName_no_leading_digit name :
  starts_with_digit (sanitizeFieldName name) = false.
Proof.
  unfold sanitizeFieldName.
  pose proof (prefix_if_digit_no_digit (replace_non_word name)) as H.
  destruct (prefix_if_digit (replace_non_word name)) as [|c r]; simpl in *; [reflexivity|].
  apply lower_keeps_non_digit, H.
Qed.

Lemma alnum_is_word c : is_alnum c = true -> is_word c = true.
Proof. by_char c. Qed.



End Sanitize.

(* ===================================================================== *)
(** ** The DateTime scalar (Type Mapper, "Custom Scalars")                *)
(* ===================================================================== *)

Module DateTime.

Local Open Scope string_scope.

(** A JavaScript number: not-a-number, an infinity, or a finite value. *)
Inductive JsNumber :=
| JNaN
| JInfinity (negative : bool)
| JFinite (q : Q).

(** The values the scalar can be handed.  A [Date] object carries its time
    value, [None] standing for the invalid date (time value NaN). *)
Inductive JsValue :=
| VUndefined
| VNull
| VBoolean (b : bool)
| VNumber (n : JsNumber)
| VString (s : string)
| VDate (tv : option Z)
| VOtherObject.

(** What a scalar function hands back: [null], the ISO-8601 rendering of a
    valid time value, or a [Date] object. *)
Inductive ScalarResult :=
| RNull
| RIsoString (t : Z)
| RDate (tv : option Z).

Inductive Exception := RangeError.

Inductive Outcome (A : Type) :=
| Return (a : A)
| Throw (e : Exception).
Arguments Return {A} a.
Arguments Throw {A} e.

(** ECMAScript TimeClip: a non-finite number or one beyond 8.64e15 ms in
    magnitude gives the invalid date, otherwise the number truncated to an
    integer. *)
Definition TimeClip (n : JsNumber) : option Z :=
  match n with
  | JFinite q =>
      if Qle_bool (Qabs q) (8640000000000000 # 1)
      then Some (Z.quot (Qnum q) (Zpos (Qden q)))
      else None
  | _ => None
  end.

(** [Date.prototype.toISOString]: RangeError on the invalid date. *)
Definition toISOString (tv : option Z) : Outcome ScalarResult :=
  match tv with
  | Some t => Return (RIsoString t)
  | None => Throw RangeError
  end.

Section Scalar.

(** [Date.parse], whose accepted formats are host-defined: NaN for a string
    the host cannot parse. *)
Variable Date_parse : string -> JsNumber.

(** [new Date(value)] for a string or a number. *)
Definition new_Date_string (s : string) : option Z := TimeClip (Date_parse s).
Definition new_Date_number (n : JsNumber) : option Z := TimeClip n.

Definition serialize (value : JsValue) : Outcome ScalarResult :=
  match value with
  | VDate tv => toISOString tv
  | VString s => toISOString (new_Date_string s)
  | VNumber n => toISOString (new_Date_number n)
  | _ => Return RNull
  end.

Definition parseValue (value : JsValue) : Outcome ScalarResult :=
  match value with
  | VString s => Return (RDate (new_Date_string s))
  | VNumber n => Return (RDate (new_Date_number n))
  | _ => Return RNull
  end.

(** The time value an input denotes, when it is a Date, a string or a
    number. *)
Definition time_value (value : JsValue) : option (option Z) :=
  match value with
  | VDate tv => Some tv
  | VString s => Some (new_Date_string s)
  | VNumber n => Some (new_Date_number n)
  | _ => None
  end.

Definition is_string_or_number (value : JsValue) : bool :=
  match value with
  | VString _ | VNumber _ => true
  | _ => false
  end.

Lemma serialize_by_time_value value :
  serialize value =
  match time_value value with
  | Some tv => toISOString tv
  | None => Return RNull
  end.
Proof. destruct value; reflexivity. Qed.

Lemma serialize_throws_iff value :
  serialize value = Throw RangeError <-> time_value value = Some None.
Proof.
  rewrite serialize_by_time_value.
  destruct (time_value value) as [[t|]|]; simpl; split; intros H;
    try discriminate; reflexivity.
Qed.

Lemma parseValue_returns value : exists r, parseValue value = Return r.
Proof. destruct value; simpl; eauto. Qed.

End Scalar.

(** The test of tests/schema/type-mapper.test.ts, on a host that parses
    "2024-01-15T10:30:00Z" to 1705314600000. *)
Example serialize_valid_string :
  serialize (fun _ => JFinite (1705314600000 # 1)) (VString "2024-01-15T10:30:00Z")
  = Return (RIsoString 1705314600000).
Proof. reflexivity. Qed.

(** C4 (counterexample): on the invalid Date object, and on the string
    "not a date" (which the host's [Date.parse] maps to NaN), [serialize]
    throws a RangeError, and [parseValue] of that string returns an invalid
    Date object, not null. *)
Lemma C4_serialize_throws_on_invalid_date :
  serialize (fun _ => JNaN) (VDate None) = Throw RangeError /\
  serialize (fun _ => JNaN) (VString "not a date") = Throw RangeError /\
  parseValue (fun _ => JNaN) (VString "not a date") = Return (RDate None).
Proof. repeat split; reflexivity. Qed.

(** C4 (amended): [parseValue] never throws: it returns null for every
    input that is neither a string nor a number, and a Date object for a
    string or a number (for an unparseable one the invalid Date, not
    null).  [serialize] returns null for every input that is not a Date, a
    string or a number, and the ISO string for every input that denotes a
    valid time value; for an input that denotes the invalid time value it
    does not return null. *)
Theorem C4_datetime_scalar_amended (Date_parse : string -> JsNumber) (value : JsValue) :
  (exists r, parseValue Date_parse value = Return r) /\
  (is_string_or_number value = false -> parseValue Date_parse value = Return RNull) /\
  (forall s, parseValue Date_parse (VString s) = Return (RDate (TimeClip (Date_parse s)))) /\
  (forall n, parseValue Date_parse (VNumber n) = Return (RDate (TimeClip n))) /\
  (time_value Date_parse value = None -> serialize Date_parse value = Return RNull) /\
  (forall t, time_value Date_parse value = Some (Some t) ->
             serialize Date_parse value = Return (RIsoString t)) /\
  (time_value Date_parse value = Some None ->
   serialize Date_parse value <> Return RNull).
Proof.
  split; [apply parseValue_returns|].
  split; [destruct value; simpl; intros; try discriminate; reflexivity|].
  split; [reflexivity|]. split; [reflexivity|].
  split; [intros H; rewrite serialize_by_time_value, H; reflexivity|].
  split; [intros t H; rewrite serialize_by_time_value, H; reflexivity|].
  intros H. rewrite serialize_by_time_value, H. discriminate.
Qed.

End DateTime.

(* ===================================================================== *)
(** ** SimplePubSub (context/graphql-context.ts)                          *)
(* ===================================================================== *)

Module PubSub.

(** Payloads: JavaScript values, with [undefined] told apart from the rest. *)
Inductive JsValue :=
| JUndefined
| JNull
| JBoolean (b : bool)
| JNumber (z : Z)
| JString (s : string)
| JObject (ref : nat).

Global Instance JsValue_eq_dec : EqDecision JsValue.
Proof. solve_decision. Defined.

(** Callbacks are function objects, compared by identity.  A callback is
    either a function supplied by a caller of [subscribe], or the closure
    [(payload) => { pushValue(payload) }] that [asyncIterator] creates for
    the [k]-th trigger of iterator [it]. *)
Inductive Callback :=
| UserCallback (fn : nat)
| IteratorCallback (it : nat) (k : nat).

Global Instance Callback_eq_dec : EqDecision Callback.
Proof. solve_decision. Defined.

Record IteratorResult := mkResult { value : JsValue; done : bool }.

(** The closure state of one [asyncIterator] call.  [pullQueue] holds the
    resolvers of pending pulls (by promise), [thenPending] the subscription
    ids whose [.then((id) => subscriptionIds.push(id))] job is still in the
    microtask queue. *)
Record IteratorState := mkIter {
  pullQueue : list nat;
  pushQueue : list JsValue;
  listening : bool;
  iterSubscriptionIds : list nat;
  thenPending : list nat
}.

(** The engine, the iterator closures living on it and the promises handed
    out by pulls ([None]: pending).  [delivered] and [console_errors] record
    what the caller-supplied callbacks and the console observed. *)
Record State := mkState {
  subscriptions : gmap string (list Callback);
  subscriptionIds : gmap nat (string * Callback);
  nextId : nat;
  iterators : list IteratorState;
  promises : list (option IteratorResult);
  delivered : list (nat * JsValue);
  console_errors : nat
}.

Definition init : State :=
  mkState ∅ ∅ 1 [] [] [] 0.

Definition set_subscriptions (m : gmap string (list Callback)) (st : State) : State :=
  mkState m (subscriptionIds st) (nextId st) (iterators st) (promises st)
          (delivered st) (console_errors st).

Definition set_subscriptionIds (m : gmap nat (string * Callback)) (st : State) : State :=
  mkState (subscriptions st) m (nextId st) (iterators st) (promises st)
          (delivered st) (console_errors st).

Definition set_nextId (n : nat) (st : State) : State :=
  mkState (subscriptions st) (subscriptionIds st) n (iterators st) (promises st)
          (delivered st) (console_errors st).

Definition set_iterators (l : list IteratorState) (st : State) : State :=
  mkState (subscriptions st) (subscriptionIds st) (nextId st) l (promises st)
          (delivered st) (console_errors st).

Definition set_promises (l : list (option IteratorResult)) (st : State) : State :=
  mkState (subscriptions st) (subscriptionIds st) (nextId st) (iterators st) l
          (delivered st) (console_errors st).

Definition set_delivered (l : list (nat * JsValue)) (st : State) : State :=
  mkState (subscriptions st) (subscriptionIds st) (nextId st) (iterators st)
          (promises st) l (console_errors st).

Definition set_console_errors (n : nat) (st : State) : State :=
  mkState (subscriptions st) (subscriptionIds st) (nextId st) (iterators st)
          (promises st) (delivered st) n.

Definition set_pullQueue (q : list nat) (i : IteratorState) : IteratorState :=
  mkIter q (pushQueue i) (listening i) (iterSubscriptionIds i) (thenPending i).

Definition set_pushQueue (q : list JsValue) (i : IteratorState) : IteratorState :=
  mkIter (pullQueue i) q (listening i) (iterSubscriptionIds i) (thenPending i).

Definition set_listening (b : bool) (i : IteratorState) : IteratorState :=
  mkIter (pullQueue i) (pushQueue i) b (iterSubscriptionIds i) (thenPending i).

Definition set_iterSubscriptionIds (l : list nat) (i : IteratorState) : IteratorState :=
  mkIter (pullQueue i) (pushQueue i) (listening i) l (thenPending i).

Definition set_thenPending (l : list nat) (i : IteratorState) : IteratorState :=
  mkIter (pullQueue i) (pushQueue i) (listening i) (iterSubscriptionIds i) l.

Definition set_iterator (it : nat) (i : IteratorState) (st : State) : State :=
  set_iterators (<[it := i]> (iterators st)) st.

(** [Set.prototype.add]: insertion order, an element already present keeps
    its place. *)
Definition set_add (cb : Callback) (s : list Callback) : list Callback :=
  if decide (cb ∈ s) then s else s ++ [cb].

(** [Set.prototype.delete] *)
Definition set_delete (cb : Callback) (s : list Callback) : list Callback :=
  filter (fun c => c ≠ cb) s.

(** Calling a promise's [resolve]: only the first call settles it. *)
Definition resolve (p : nat) (r : IteratorResult) (st : State) : State :=
  match promises st !! p with
  | Some None => set_promises (<[p := Some r]> (promises st)) st
  | _ => st
  end.

(** [pushValue] of iterator [it]. *)
Definition pushValue (it : nat) (v : JsValue) (st : State) : State :=
  match iterators st !! it with
  | None => st
  | Some i =>
      match pullQueue i with
      | resolver :: rest =>
          resolve resolver (mkResult v false) (set_iterator it (set_pullQueue rest i) st)
      | [] => set_iterator it (set_pushQueue (pushQueue i ++ [v]) i) st
      end
  end.

(** [pullValue] of iterator [it]: the promise returned, and the state after
    its executor has run. *)
Definition pullValue (it : nat) (st : State) : nat * State :=
  let p := length (promises st) in
  let st := set_promises (promises st ++ [None]) st in
  match iterators st !! it with
  | None => (p, st)
  | Some i =>
      let v := match pushQueue i with x :: _ => x | [] => JUndefined end in
      let i := set_pushQueue (tail (pushQueue i)) i in
      if decide (v ≠ JUndefined) then
        (p, resolve p (mkResult v false) (set_iterator it i st))
      else if negb (listening i) then
        (p, resolve p (mkResult JUndefined true) (set_iterator it i st))
      else
        (p, set_iterator it (set_pullQueue (pullQueue i ++ [p]) i) st)
  end.

Section Engine.

(** Whether the caller-supplied function [fn] throws on a payload.  A
    caller's callback is modelled by what it is handed and by whether it
    throws; callbacks that call back into the engine are not modelled. *)
Variable user_throws : nat -> JsValue -> bool.

(** One iteration of the loop of [publish]: [try { callback(payload) }
    catch { console.error(...) }]. *)
Definition invoke (payload : JsValue) (st : State) (cb : Callback) : State :=
  match cb with
  | UserCallback fn =>
      let st := set_delivered (delivered st ++ [(fn, payload)]) st in
      if user_throws fn payload
      then set_console_errors (S (console_errors st)) st
      else st
  | IteratorCallback it _ => pushValue it payload st
  end.

Definition publish (triggerName : string) (payload : JsValue) (st : State) : State :=
  match subscriptions st !! triggerName with
  | Some subscribers => foldl (invoke payload) st subscribers
  | None => st
  end.

Definition subscribe (triggerName : string) (onMessage : Callback) (st : State)
  : nat * State :=
  let subs := default [] (subscriptions st !! triggerName) in
  let st := set_subscriptions (<[triggerName := set_add onMessage subs]> (subscriptions st)) st in
  let id := nextId st in
  let st := set_nextId (S id) st in
  (id, set_subscriptionIds (<[id := (triggerName, onMessage)]> (subscriptionIds st)) st).

Definition unsubscribe (subId : nat) (st : State) : State :=
  match subscriptionIds st !! subId with
  | Some (trigger, callback) =>
      let st :=
        match subscriptions st !! trigger with
        | Some subscribers =>
            let subscribers := set_delete callback subscribers in
            if decide (length subscribers = 0)
            then set_subscriptions (delete trigger (subscriptions st)) st
            else set_subscriptions (<[trigger := subscribers]> (subscriptions st)) st
        | None => st
        end in
      set_subscriptionIds (delete subId (subscriptionIds st)) st
  | None => st
  end.

(** The subscription loop of [asyncIterator]: the registration is made at
    once, the id is recorded by a later microtask. *)
Fixpoint subscribe_triggers (it : nat) (k : nat) (triggerList : list string) (st : State)
  : State :=
  match triggerList with
  | [] => st
  | trigger :: rest =>
      let '(id, st) := subscribe trigger (IteratorCallback it k) st in
      let st :=
        match iterators st !! it with
        | Some i => set_iterator it (set_thenPending (thenPending i ++ [id]) i) st
        | None => st
        end in
      subscribe_triggers it (S k) rest st
  end.

Definition asyncIterator (triggers : list string) (st : State) : nat * State :=
  let it := length (iterators st) in
  let st := set_iterators (iterators st ++ [mkIter [] [] true [] []]) st in
  (it, subscribe_triggers it 0 triggers st).

(** The microtask checkpoint: every queued [.then] job records its id. *)
Definition run_then (i : IteratorState) : IteratorState :=
  set_thenPending [] (set_iterSubscriptionIds (iterSubscriptionIds i ++ thenPending i) i).

Definition run_microtasks (st : State) : State :=
  set_iterators (map run_then (iterators st)) st.

(** [iterator.next()] *)
Definition iterator_next (it : nat) (st : State) : nat * State := pullValue it st.

(** The two loops shared by [return] and [throw]. *)
Definition unsubscribe_all (ids : list nat) (st : State) : State :=
  foldl (fun st id => unsubscribe id st) st ids.

Definition resolve_all (resolvers : list nat) (r : IteratorResult) (st : State) : State :=
  foldl (fun st p => resolve p r st) st resolvers.

(** [iterator.return()]; the promise it returns is already resolved with
    [{value: undefined, done: true}] and is left out. *)
Definition iterator_return (it : nat) (st : State) : State :=
  match iterators st !! it with
  | None => st
  | Some i =>
      let st := set_iterator it (set_listening false i) st in
      let st := unsubscribe_all (iterSubscriptionIds i) st in
      resolve_all (pullQueue i) (mkResult JUndefined true) st
  end.

(** [iterator.throw(error)]; the rejected promise is left out. *)
Definition iterator_throw (it : nat) (st : State) : State :=
  match iterators st !! it with
  | None => st
  | Some i =>
      let st := set_iterator it (set_listening false i) st in
      unsubscribe_all (iterSubscriptionIds i) st
  end.

Definition clear (st : State) : State :=
  set_nextId 1 (set_subscriptionIds ∅ (set_subscriptions ∅ st)).

(** Publishing a list of payloads one after the other. *)
Definition publish_all (triggerName : string) (payloads : list JsValue) (st : State) : State :=
  foldl (fun st payload => publish triggerName payload st) st payloads.

(** A consumer's later activity around one iterator [it] over trigger
    [triggerName]: publishes on the trigger and pulls.  [run_ops] returns
    the promises of the pulls, in order, and the final state. *)
Inductive Op :=
| OpPublish (payload : JsValue)
| OpNext.

Fixpoint run_ops (triggerName : string) (it : nat) (ops : list Op) (st : State)
  : list nat * State :=
  match ops with
  | [] => ([], st)
  | OpPublish payload :: rest => run_ops triggerName it rest (publish triggerName payload st)
  | OpNext :: rest =>
      let '(p, st) := iterator_next it st in
      let '(ps, st) := run_ops triggerName it rest st in
      (p :: ps, st)
  end.

(** What a publish of [payload] hands to the caller-supplied callbacks of a
    subscriber set, in iteration order. *)
Definition user_deliveries (payload : JsValue) (subscribers : list Callback)
  : list (nat * JsValue) :=
  omap (fun cb => match cb with
                  | UserCallback fn => Some (fn, payload)
                  | IteratorCallback _ _ => None
                  end) subscribers.

(** The number of caller-supplied callbacks of a set that throw on [payload]. *)
Definition callback_throws (payload : JsValue) (cb : Callback) : bool :=
  match cb with
  | UserCallback fn => user_throws fn payload
  | IteratorCallback _ _ => false
  end.

Definition throwing (payload : JsValue) (subscribers : list Callback) : nat :=
  length (filter (fun cb => callback_throws payload cb = true) subscribers).

(** The deliveries received by the caller-supplied function [fn]. *)
Definition deliveries_to (fn : nat) (log : list (nat * JsValue)) : list JsValue :=
  omap (fun d => if decide (d.1 = fn) then Some d.2 else None) log.

Definition subscribers_of (triggerName : string) (st : State) : list Callback :=
  default [] (subscriptions st !! triggerName).

(** *** Frame facts: which fields each operation leaves alone. *)

Lemma resolve_frame p r st :
  subscriptions (resolve p r st) = subscriptions st /\
  subscriptionIds (resolve p r st) = subscriptionIds st /\
  iterators (resolve p r st) = iterators st /\
  delivered (resolve p r st) = delivered st /\
  console_errors (resolve p r st) = console_errors st.
Proof. unfold resolve. destruct (promises st !! p) as [[?|]|]; simpl; auto. Qed.

Lemma resolve_iterators p r st : iterators (resolve p r st) = iterators st.
Proof. apply resolve_frame. Qed.

Lemma resolve_subscriptions p r st : subscriptions (resolve p r st) = subscriptions st.
Proof. apply resolve_frame. Qed.

Lemma pushValue_frame it v st :
  subscriptions (pushValue it v st) = subscriptions st /\
  subscriptionIds (pushValue it v st) = subscriptionIds st /\
  delivered (pushValue it v st) = delivered st /\
  console_errors (pushValue it v st) = console_errors st.
Proof.
  unfold pushValue. destruct (iterators st !! it) as [i|]; [|auto].
  destruct (pullQueue i) as [|r rest]; simpl; [auto|].
  destruct (resolve_frame r (mkResult v false) (set_iterator it (set_pullQueue rest i) st))
    as (-> & -> & _ & -> & ->). auto.
Qed.

Lemma invoke_subscriptions payload st cb :
  subscriptions (invoke payload st cb) = subscriptions st.
Proof.
  destruct cb as [fn|it k]; simpl.
  - destruct (user_throws fn payload); reflexivity.
  - apply pushValue_frame.
Qed.

Lemma invoke_delivered payload st cb :
  delivered (invoke payload st cb) = delivered st ++ user_deliveries payload [cb].
Proof.
  destruct cb as [fn|it k]; simpl.
  - destruct (user_throws fn payload); reflexivity.
  - destruct (pushValue_frame it payload st) as (_ & _ & -> & _).
    unfold user_deliveries. simpl. rewrite app_nil_r. reflexivity.
Qed.

Lemma invoke_console_errors payload st cb :
  console_errors (invoke payload st cb) = console_errors st + throwing payload [cb].
Proof.
  destruct cb as [fn|it k]; unfold throwing; rewrite filter_cons, filter_nil; simpl.
  - destruct (user_throws fn payload) eqn:E; simpl; lia.
  - destruct (pushValue_frame it payload st) as (_ & _ & _ & ->). lia.
Qed.

Lemma user_deliveries_app payload l1 l2 :
  user_deliveries payload (l1 ++ l2)
  = user_deliveries payload l1 ++ user_deliveries payload l2.
Proof. unfold user_deliveries. apply omap_app. Qed.

Lemma foldl_invoke_subscriptions payload subscribers st :
  subscriptions (foldl (invoke payload) st subscribers) = subscriptions st.
Proof.
  revert st. induction subscribers as [|cb rest IH]; intros st; simpl; [reflexivity|].
  rewrite IH. apply invoke_subscriptions.
Qed.

Lemma foldl_invoke_delivered payload subscribers st :
  delivered (foldl (invoke payload) st subscribers)
  = delivered st ++ user_deliveries payload subscribers.
Proof.
  revert st. induction subscribers as [|cb rest IH]; intros st; simpl.
  - unfold user_deliveries. simpl. rewrite app_nil_r. reflexivity.
  - rewrite IH, invoke_delivered, <- app_assoc.
    f_equal. rewrite <- user_deliveries_app. reflexivity.
Qed.

Lemma foldl_invoke_console_errors payload subscribers st :
  console_errors (foldl (invoke payload) st subscribers)
  = console_errors st + throwing payload subscribers.
Proof.
  revert st. induction subscribers as [|cb rest IH]; intros st; simpl.
  - unfold throwing. simpl. lia.
  - rewrite IH, invoke_console_errors. unfold throwing.
    rewrite (filter_cons _ cb rest), !filter_cons, filter_nil.
    destruct (decide _); simpl; lia.
Qed.

Lemma publish_subscriptions t payload st :
  subscriptions (publish t payload st) = subscriptions st.
Proof.
  unfold publish. destruct (subscriptions st !! t); [|reflexivity].
  apply foldl_invoke_subscriptions.
Qed.

Lemma publish_delivered t payload st :
  delivered (publish t payload st)
  = delivered st ++ user_deliveries payload (subscribers_of t st).
Proof.
  unfold publish, subscribers_of. destruct (subscriptions st !! t); simpl.
  - apply foldl_invoke_delivered.
  - unfold user_deliveries. simpl. rewrite app_nil_r. reflexivity.
Qed.

Lemma publish_console_errors t payload st :
  console_errors (publish t payload st)
  = console_errors st + throwing payload (subscribers_of t st).
Proof.
  unfold publish, subscribers_of. destruct (subscriptions st !! t); simpl.
  - apply foldl_invoke_console_errors.
  - unfold throwing. simpl. lia.
Qed.

Lemma publish_all_subscriptions t payloads st :
  subscriptions (publish_all t payloads st) = subscriptions st.
Proof.
  unfold publish_all. revert st.
  induction payloads as [|p ps IH]; intros st; simpl; [reflexivity|].
  rewrite IH. apply publish_subscriptions.
Qed.

Lemma publish_all_delivered t payloads st :
  delivered (publish_all t payloads st)
  = delivered st
    ++ concat (map (fun p => user_deliveries p (subscribers_of t st)) payloads).
Proof.
  unfold publish_all. revert st.
  induction payloads as [|p ps IH]; intros st; simpl.
  - rewrite app_nil_r. reflexivity.
  - rewrite IH, publish_delivered, <- app_assoc. do 2 f_equal.
    unfold subscribers_of. rewrite publish_subscriptions. reflexivity.
Qed.

Lemma deliveries_to_app fn l1 l2 :
  deliveries_to fn (l1 ++ l2) = deliveries_to fn l1 ++ deliveries_to fn l2.
Proof. unfold deliveries_to. apply omap_app. Qed.

Lemma deliveries_to_absent fn payload subscribers :
  UserCallback fn ∉ subscribers ->
  deliveries_to fn (user_deliveries payload subscribers) = [].
Proof.
  induction subscribers as [|cb rest IH]; intros Hnot; [reflexivity|].
  apply not_elem_of_cons in Hnot as [Hne Hrest].
  change (cb :: rest) with ([cb] ++ rest).
  rewrite user_deliveries_app, deliveries_to_app, (IH Hrest), app_nil_r.
  destruct cb as [fn'|it k]; [|reflexivity].
  unfold user_deliveries, deliveries_to. simpl.
  rewrite decide_False; [reflexivity|]. intros ->. apply Hne. reflexivity.
Qed.

Lemma set_delete_absent cb s : cb ∉ set_delete cb s.
Proof. unfold set_delete. rewrite list_elem_of_filter. tauto. Qed.

Lemma set_delete_subset cb cb' s : cb' ∉ s -> cb' ∉ set_delete cb s.
Proof. unfold set_delete. rewrite list_elem_of_filter. tauto. Qed.

(** [unsubscribe] only ever removes callbacks from subscriber sets. *)
Lemma unsubscribe_subscribers_subset subId t cb st :
  cb ∉ subscribers_of t st -> cb ∉ subscribers_of t (unsubscribe subId st).
Proof.
  unfold unsubscribe, subscribers_of.
  destruct (subscriptionIds st !! subId) as [[trigger callback]|]; [|trivial].
  simpl. destruct (subscriptions st !! trigger) as [subs|] eqn:E; simpl; [|trivial].
  destruct (decide (length (set_delete callback subs) = 0)); simpl; intros H.
  - destruct (decide (trigger = t)) as [->|Hne].
    + rewrite lookup_delete_eq. simpl. apply not_elem_of_nil.
    + rewrite lookup_delete_ne by assumption. exact H.
  - destruct (decide (trigger = t)) as [->|Hne].
    + rewrite lookup_insert_eq. simpl. rewrite E in H. simpl in H.
      apply set_delete_subset, H.
    + rewrite lookup_insert_ne by assumption. exact H.
Qed.

(** [unsubscribe] removes the registration and its callback. *)
Lemma unsubscribe_removes subId t cb st :
  subscriptionIds st !! subId = Some (t, cb) ->
  (cb ∉ subscribers_of t (unsubscribe subId st)) /\
  subscriptionIds (unsubscribe subId st) !! subId = None.
Proof.
  intros Hid. unfold unsubscribe, subscribers_of. rewrite Hid.
  split; [|apply lookup_delete_eq].
  simpl. destruct (subscriptions st !! t) as [subs|] eqn:E; simpl.
  - destruct (decide (length (set_delete cb subs) = 0)); simpl.
    + rewrite lookup_delete_eq. simpl. apply not_elem_of_nil.
    + rewrite lookup_insert_eq. simpl. apply set_delete_absent.
  - rewrite E. simpl. apply not_elem_of_nil.
Qed.

Lemma unsubscribe_last subId t cb st :
  subscriptionIds st !! subId = Some (t, cb) ->
  subscriptions st !! t = Some [cb] ->
  subscriptions (unsubscribe subId st) !! t = None.
Proof.
  intros Hid Hsubs.
  assert (Hd : set_delete cb [cb] = []).
  { unfold set_delete. rewrite filter_cons, filter_nil.
    destruct (decide (cb ≠ cb)) as [Hne|_]; [|reflexivity].
    exfalso. apply Hne. reflexivity. }
  unfold unsubscribe. rewrite Hid. simpl. rewrite Hsubs, Hd.
  simpl. apply lookup_delete_eq.
Qed.

Lemma unsubscribe_frame subId st :
  iterators (unsubscribe subId st) = iterators st /\
  promises (unsubscribe subId st) = promises st /\
  delivered (unsubscribe subId st) = delivered st /\
  console_errors (unsubscribe subId st) = console_errors st.
Proof.
  unfold unsubscribe.
  destruct (subscriptionIds st !! subId) as [[trigger callback]|]; [|auto].
  destruct (subscriptions st !! trigger) as [subs|]; simpl; [|auto].
  destruct (decide _); simpl; auto.
Qed.

Lemma deliveries_to_concat_absent fn subscribers payloads :
  UserCallback fn ∉ subscribers ->
  deliveries_to fn (concat (map (fun p => user_deliveries p subscribers) payloads)) = [].
Proof.
  intros Hnot. induction payloads as [|p ps IH]; simpl; [reflexivity|].
  rewrite deliveries_to_app, IH, app_nil_r.
  apply deliveries_to_absent, Hnot.
Qed.

Lemma single_user_deliveries fn payloads :
  concat (map (fun p => user_deliveries p [UserCallback fn]) payloads)
  = map (pair fn) payloads.
Proof.
  induction payloads as [|p ps IH]; simpl; [reflexivity|].
  f_equal. exact IH.
Qed.

(** *** The iterator's queues. *)

(** A callback that is not one of iterator [it]'s. *)
Definition other_than (it : nat) (cb : Callback) : Prop :=
  match cb with
  | UserCallback _ => True
  | IteratorCallback it' _ => it' <> it
  end.

(** Promise [p] sits in no pull queue, except possibly that of [it]. *)
Definition avoided (p it : nat) (st : State) : Prop :=
  forall it' i', it' <> it -> iterators st !! it' = Some i' -> p ∉ pullQueue i'.

Lemma resolve_pending p r st :
  promises st !! p = Some None ->
  promises (resolve p r st) = <[p := Some r]> (promises st).
Proof. intros H. unfold resolve. rewrite H. reflexivity. Qed.

Lemma resolve_settled p r r' st :
  promises st !! p = Some (Some r') -> resolve p r st = st.
Proof. intros H. unfold resolve. rewrite H. reflexivity. Qed.

Lemma resolve_lookup_ne p q r st :
  p <> q -> promises (resolve p r st) !! q = promises st !! q.
Proof.
  intros Hne. unfold resolve.
  destruct (promises st !! p) as [[?|]|]; simpl; try reflexivity.
  apply list_lookup_insert_ne, Hne.
Qed.

Lemma pushValue_enqueues it v st i :
  iterators st !! it = Some i ->
  pullQueue i = [] ->
  iterators (pushValue it v st)
  = <[it := set_pushQueue (pushQueue i ++ [v]) i]> (iterators st) /\
  promises (pushValue it v st) = promises st.
Proof. intros Hi Hq. unfold pushValue. rewrite Hi, Hq. auto. Qed.

Lemma pushValue_resolves it v st i p rest :
  iterators st !! it = Some i ->
  pullQueue i = p :: rest ->
  promises st !! p = Some None ->
  iterators (pushValue it v st) = <[it := set_pullQueue rest i]> (iterators st) /\
  promises (pushValue it v st) = <[p := Some (mkResult v false)]> (promises st).
Proof.
  intros Hi Hq Hp. unfold pushValue. rewrite Hi, Hq. split.
  - rewrite resolve_iterators. reflexivity.
  - rewrite resolve_pending by exact Hp. reflexivity.
Qed.

Lemma resolve_keeps_settled p r st q x :
  promises st !! q = Some (Some x) -> promises (resolve p r st) !! q = Some (Some x).
Proof.
  intros H. destruct (decide (p = q)) as [->|Hne].
  - rewrite (resolve_settled q r x st H). exact H.
  - rewrite resolve_lookup_ne by exact Hne. exact H.
Qed.

Lemma resolve_length p r st : length (promises (resolve p r st)) = length (promises st).
Proof.
  unfold resolve. destruct (promises st !! p) as [[?|]|]; simpl; try reflexivity.
  apply length_insert.
Qed.

(** What [pushValue] on another iterator leaves alone. *)
Lemma pushValue_other it it' v st :
  it' <> it -> iterators (pushValue it' v st) !! it = iterators st !! it.
Proof.
  intros Hne. unfold pushValue.
  destruct (iterators st !! it') as [i'|]; [|reflexivity].
  destruct (pullQueue i') as [|r rest]; simpl.
  - apply list_lookup_insert_ne, Hne.
  - rewrite resolve_iterators. simpl. apply list_lookup_insert_ne, Hne.
Qed.

Lemma pushValue_promise_other it' v st p :
  (forall i', iterators st !! it' = Some i' -> p ∉ pullQueue i') ->
  promises (pushValue it' v st) !! p = promises st !! p.
Proof.
  intros Hnot. unfold pushValue.
  destruct (iterators st !! it') as [i'|] eqn:E; [|reflexivity].
  specialize (Hnot i' eq_refl).
  destruct (pullQueue i') as [|r rest]; simpl; [reflexivity|].
  rewrite resolve_lookup_ne; [reflexivity|].
  intros ->. apply Hnot, list_elem_of_here.
Qed.

Lemma pushValue_lookup it' v st it'' i'' :
  iterators (pushValue it' v st) !! it'' = Some i'' ->
  exists i, iterators st !! it'' = Some i /\ pullQueue i'' ⊆ pullQueue i.
Proof.
  unfold pushValue.
  destruct (iterators st !! it') as [i'|] eqn:E; [|intros H; exists i''; split; [exact H | reflexivity]].
  assert (Hcase : forall x,
             pullQueue x ⊆ pullQueue i' ->
             <[it' := x]> (iterators st) !! it'' = Some i'' ->
             exists i, iterators st !! it'' = Some i /\ pullQueue i'' ⊆ pullQueue i).
  { intros x Hsub H. destruct (decide (it' = it'')) as [->|Hne].
    - rewrite list_lookup_insert_eq in H by (apply lookup_lt_Some in E; exact E).
      inversion H; subst. exists i'. split; [exact E | exact Hsub].
    - rewrite list_lookup_insert_ne in H by exact Hne.
      exists i''. split; [exact H | reflexivity]. }
  destruct (pullQueue i') as [|r rest] eqn:Eq; simpl.
  - apply Hcase. simpl. rewrite Eq. reflexivity.
  - rewrite resolve_iterators. simpl. apply Hcase. simpl.
    intros x Hx. apply list_elem_of_further, Hx.
Qed.

Lemma pushValue_avoided it it' v st p :
  avoided p it st -> avoided p it (pushValue it' v st).
Proof.
  intros Hav it'' i'' Hne Hl.
  destruct (pushValue_lookup it' v st it'' i'' Hl) as (i & Hi & Hsub).
  intros Hin. apply (Hav it'' i Hne Hi), Hsub, Hin.
Qed.

Lemma pushValue_settled it v st q x :
  promises st !! q = Some (Some x) -> promises (pushValue it v st) !! q = Some (Some x).
Proof.
  intros H. unfold pushValue.
  destruct (iterators st !! it) as [i|]; [|exact H].
  destruct (pullQueue i) as [|r rest]; simpl; [exact H|].
  apply resolve_keeps_settled. exact H.
Qed.

Lemma invoke_other payload st cb it :
  other_than it cb ->
  iterators (invoke payload st cb) !! it = iterators st !! it.
Proof.
  destruct cb as [fn|it' k]; simpl; intros Hne.
  - destruct (user_throws fn payload); reflexivity.
  - apply pushValue_other, Hne.
Qed.

Lemma invoke_other_promise payload st cb it p :
  other_than it cb ->
  avoided p it st ->
  promises (invoke payload st cb) !! p = promises st !! p /\
  avoided p it (invoke payload st cb).
Proof.
  destruct cb as [fn|it' k]; simpl; intros Hne Hav.
  - destruct (user_throws fn payload); auto.
  - split; [|apply pushValue_avoided, Hav].
    apply pushValue_promise_other. intros i' Hi'. apply (Hav it' i' Hne Hi').
Qed.

Lemma invoke_settled payload st cb q x :
  promises st !! q = Some (Some x) ->
  promises (invoke payload st cb) !! q = Some (Some x).
Proof.
  destruct cb as [fn|it k]; simpl; intros H.
  - destruct (user_throws fn payload); exact H.
  - apply pushValue_settled, H.
Qed.

Lemma foldl_invoke_others payload subscribers it :
  Forall (other_than it) subscribers ->
  forall st, iterators (foldl (invoke payload) st subscribers) !! it = iterators st !! it.
Proof.
  induction 1 as [|cb rest Hcb _ IH]; intros st; simpl; [reflexivity|].
  rewrite IH. apply invoke_other, Hcb.
Qed.

Lemma foldl_invoke_others_promise payload subscribers it p :
  Forall (other_than it) subscribers ->
  forall st, avoided p it st ->
    promises (foldl (invoke payload) st subscribers) !! p = promises st !! p /\
    avoided p it (foldl (invoke payload) st subscribers).
Proof.
  induction 1 as [|cb rest Hcb _ IH]; intros st Hav; simpl; [auto|].
  destruct (invoke_other_promise payload st cb it p Hcb Hav) as [Hp Hav'].
  destruct (IH _ Hav') as [Hp' Hav'']. split; [congruence | exact Hav''].
Qed.

Lemma foldl_invoke_settled payload subscribers q x :
  forall st, promises st !! q = Some (Some x) ->
    promises (foldl (invoke payload) st subscribers) !! q = Some (Some x).
Proof.
  induction subscribers as [|cb rest IH]; intros st H; simpl; [exact H|].
  apply IH, invoke_settled, H.
Qed.

(** A settled promise stays settled, with its result. *)
Lemma publish_settled t payload st q x :
  promises st !! q = Some (Some x) ->
  promises (publish t payload st) !! q = Some (Some x).
Proof.
  intros H. unfold publish. destruct (subscriptions st !! t); [|exact H].
  apply foldl_invoke_settled, H.
Qed.

(** A publish on a trigger to which iterator [it] is subscribed once, the
    other subscribers being callers' callbacks and other iterators:
    with no pull pending the value is queued ... *)
Lemma publish_enqueues t v st l1 it k l2 i :
  subscriptions st !! t = Some (l1 ++ IteratorCallback it k :: l2) ->
  Forall (other_than it) l1 -> Forall (other_than it) l2 ->
  iterators st !! it = Some i ->
  pullQueue i = [] ->
  iterators (publish t v st) !! it = Some (set_pushQueue (pushQueue i ++ [v]) i).
Proof.
  intros Hsubs H1 H2 Hi Hq. unfold publish. rewrite Hsubs, foldl_app. simpl.
  rewrite (foldl_invoke_others v l2 it H2).
  pose proof (foldl_invoke_others v l1 it H1 st) as Hi1. rewrite Hi in Hi1.
  destruct (pushValue_enqueues it v _ i Hi1 Hq) as [-> _].
  apply list_lookup_insert_eq. apply lookup_lt_Some in Hi1. exact Hi1.
Qed.

(** ... and a pending pull at the head of the pull queue is resolved with
    the value. *)
Lemma publish_resolves t v st l1 it k l2 i p rest :
  subscriptions st !! t = Some (l1 ++ IteratorCallback it k :: l2) ->
  Forall (other_than it) l1 -> Forall (other_than it) l2 ->
  iterators st !! it = Some i ->
  pullQueue i = p :: rest ->
  promises st !! p = Some None ->
  avoided p it st ->
  promises (publish t v st) !! p = Some (Some (mkResult v false)).
Proof.
  intros Hsubs H1 H2 Hi Hq Hp Hav. unfold publish. rewrite Hsubs, foldl_app. simpl.
  apply foldl_invoke_settled.
  pose proof (foldl_invoke_others v l1 it H1 st) as Hi1. rewrite Hi in Hi1.
  destruct (foldl_invoke_others_promise v l1 it p H1 st Hav) as [Hp1 _].
  rewrite Hp in Hp1.
  destruct (pushValue_resolves it v _ i p rest Hi1 Hq Hp1) as [_ ->].
  apply list_lookup_insert_eq. apply lookup_lt_Some in Hp1. exact Hp1.
Qed.


Lemma avoided_insert p it st st' x :
  avoided p it st ->
  iterators st' = <[it := x]> (iterators st) ->
  avoided p it st'.
Proof.
  intros Hav Heq it' i' Hne Hl. rewrite Heq in Hl.
  rewrite list_lookup_insert_ne in Hl by congruence.
  apply (Hav it' i' Hne Hl).
Qed.

Lemma lookup_fresh_promise (l : list (option IteratorResult)) :
  (l ++ [None]) !! length l = Some None.
Proof. rewrite lookup_app_r by lia. rewrite Nat.sub_diag. reflexivity. Qed.

(** A pull on a queue headed by a value other than [undefined] resolves at
    once with that value. *)
Lemma pullValue_delivers it st i v q :
  iterators st !! it = Some i ->
  pushQueue i = v :: q ->
  v <> JUndefined ->
  (pullValue it st).1 = length (promises st) /\
  promises (pullValue it st).2 !! length (promises st) = Some (Some (mkResult v false)) /\
  iterators (pullValue it st).2 = <[it := set_pushQueue q i]> (iterators st).
Proof.
  intros Hi Hq Hv. unfold pullValue. simpl. rewrite Hi, Hq. simpl.
  rewrite decide_True by exact Hv. simpl.
  split; [reflexivity|]. split.
  - rewrite resolve_pending by apply lookup_fresh_promise.
    simpl. apply list_lookup_insert_eq. rewrite length_app. simpl. lia.
  - rewrite resolve_iterators. reflexivity.
Qed.

(** A pull that finds no value (an empty queue, or [undefined] at its head)
    on a listening iterator is parked in the pull queue. *)
Lemma pullValue_parks it st i :
  iterators st !! it = Some i ->
  head (pushQueue i) = None \/ head (pushQueue i) = Some JUndefined ->
  listening i = true ->
  (pullValue it st).1 = length (promises st) /\
  promises (pullValue it st).2 = promises st ++ [None] /\
  iterators (pullValue it st).2
  = <[it := set_pullQueue (pullQueue i ++ [length (promises st)])
              (set_pushQueue (tail (pushQueue i)) i)]> (iterators st).
Proof.
  intros Hi Hq Hl. unfold pullValue. simpl. rewrite Hi.
  assert (Hv : match pushQueue i with x :: _ => x | [] => JUndefined end = JUndefined).
  { destruct (pushQueue i) as [|x r]; [reflexivity|].
    destruct Hq as [Hq|Hq]; simpl in Hq; congruence. }
  rewrite Hv. rewrite decide_False by (intros H; apply H; reflexivity).
  simpl. rewrite Hl. simpl. auto.
Qed.


(** *** Cancellation. *)

Lemma unsubscribe_ids_ne subId id st :
  id <> subId ->
  subscriptionIds (unsubscribe subId st) !! id = subscriptionIds st !! id.
Proof.
  intros Hne. unfold unsubscribe.
  destruct (subscriptionIds st !! subId) as [[trigger callback]|] eqn:E; [|reflexivity].
  simpl. rewrite lookup_delete_ne by congruence.
  destruct (subscriptions st !! trigger); [|reflexivity].
  destruct (decide _); reflexivity.
Qed.

Lemma unsubscribe_ids_gone subId id st :
  subscriptionIds st !! id = None ->
  subscriptionIds (unsubscribe subId st) !! id = None.
Proof.
  intros Hnone. destruct (decide (id = subId)) as [->|Hne].
  - unfold unsubscribe. rewrite Hnone. exact Hnone.
  - rewrite unsubscribe_ids_ne by exact Hne. exact Hnone.
Qed.

Lemma unsubscribe_all_frame ids st :
  iterators (unsubscribe_all ids st) = iterators st /\
  promises (unsubscribe_all ids st) = promises st.
Proof.
  unfold unsubscribe_all. revert st.
  induction ids as [|id rest IH]; intros st; simpl; [auto|].
  destruct (IH (unsubscribe id st)) as [-> ->].
  destruct (unsubscribe_frame id st) as (-> & -> & _). auto.
Qed.

Lemma unsubscribe_all_subset ids t cb st :
  cb ∉ subscribers_of t st -> cb ∉ subscribers_of t (unsubscribe_all ids st).
Proof.
  unfold unsubscribe_all. revert st.
  induction ids as [|id rest IH]; intros st H; simpl; [exact H|].
  apply IH, unsubscribe_subscribers_subset, H.
Qed.

Lemma unsubscribe_all_gone ids id st :
  subscriptionIds st !! id = None ->
  subscriptionIds (unsubscribe_all ids st) !! id = None.
Proof.
  unfold unsubscribe_all. revert st.
  induction ids as [|id' rest IH]; intros st H; simpl; [exact H|].
  apply IH, unsubscribe_ids_gone, H.
Qed.

(** Every id of the list is unregistered, and the callback it stood for is
    no longer in its trigger's subscriber set. *)
Lemma unsubscribe_all_removes ids id st :
  id ∈ ids ->
  subscriptionIds (unsubscribe_all ids st) !! id = None /\
  (forall t cb, subscriptionIds st !! id = Some (t, cb) ->
                cb ∉ subscribers_of t (unsubscribe_all ids st)).
Proof.
  revert st. induction ids as [|id' rest IH]; intros st Hin.
  - apply elem_of_nil in Hin. contradiction.
  - change (unsubscribe_all (id' :: rest) st)
      with (unsubscribe_all rest (unsubscribe id' st)).
    destruct (decide (id = id')) as [->|Hne].
    + split.
      * apply unsubscribe_all_gone.
        destruct (subscriptionIds st !! id') as [[t cb]|] eqn:E.
        -- apply (unsubscribe_removes id' t cb st E).
        -- unfold unsubscribe. rewrite E. exact E.
      * intros t cb E. apply unsubscribe_all_subset.
        apply (unsubscribe_removes id' t cb st E).
    + apply elem_of_cons in Hin as [Heq|Hin]; [contradiction|].
      destruct (IH (unsubscribe id' st) Hin) as [Hgone Hcb].
      split; [exact Hgone|].
      intros t cb E. apply Hcb. rewrite unsubscribe_ids_ne by exact Hne. exact E.
Qed.

Lemma resolve_all_frame ps r st :
  subscriptions (resolve_all ps r st) = subscriptions st /\
  subscriptionIds (resolve_all ps r st) = subscriptionIds st /\
  iterators (resolve_all ps r st) = iterators st.
Proof.
  unfold resolve_all. revert st.
  induction ps as [|p rest IH]; intros st; simpl; [auto|].
  destruct (IH (resolve p r st)) as (-> & -> & ->).
  destruct (resolve_frame p r st) as (-> & -> & -> & _). auto.
Qed.

Lemma resolve_all_keeps ps r st q x :
  promises st !! q = Some (Some x) ->
  promises (resolve_all ps r st) !! q = Some (Some x).
Proof.
  unfold resolve_all. revert st.
  induction ps as [|p rest IH]; intros st H; simpl; [exact H|].
  apply IH. destruct (decide (p = q)) as [->|Hne].
  - rewrite (resolve_settled q r x st H). exact H.
  - rewrite resolve_lookup_ne by exact Hne. exact H.
Qed.

(** Every pending promise of the list is resolved with [r]. *)
Lemma resolve_all_resolves ps r st q :
  q ∈ ps ->
  promises st !! q = Some None ->
  promises (resolve_all ps r st) !! q = Some (Some r).
Proof.
  revert st. induction ps as [|p rest IH]; intros st Hin Hq.
  - apply elem_of_nil in Hin. contradiction.
  - change (resolve_all (p :: rest) r st) with (resolve_all rest r (resolve p r st)).
    destruct (decide (q = p)) as [->|Hne].
    + apply resolve_all_keeps.
      rewrite resolve_pending by exact Hq.
      apply list_lookup_insert_eq. apply lookup_lt_Some in Hq. exact Hq.
    + apply elem_of_cons in Hin as [Heq|Hin]; [contradiction|].
      apply IH; [exact Hin|].
      rewrite resolve_lookup_ne by congruence. exact Hq.
Qed.

Lemma iterator_return_spec it st i :
  iterators st !! it = Some i ->
  iterators (iterator_return it st) = <[it := set_listening false i]> (iterators st) /\
  (forall id, id ∈ iterSubscriptionIds i ->
     subscriptionIds (iterator_return it st) !! id = None /\
     (forall t cb, subscriptionIds st !! id = Some (t, cb) ->
                   cb ∉ subscribers_of t (iterator_return it st))) /\
  (forall t cb, cb ∉ subscribers_of t st -> cb ∉ subscribers_of t (iterator_return it st)) /\
  (forall p, p ∈ pullQueue i -> promises st !! p = Some None ->
     promises (iterator_return it st) !! p = Some (Some (mkResult JUndefined true))).
Proof.
  intros Hi. unfold iterator_return. rewrite Hi.
  set (st1 := set_iterator it (set_listening false i) st).
  set (st2 := unsubscribe_all (iterSubscriptionIds i) st1).
  destruct (resolve_all_frame (pullQueue i) (mkResult JUndefined true) st2)
    as (Hsubs & Hids & Hiter).
  split; [|split; [|split]].
  - rewrite Hiter. subst st2. destruct (unsubscribe_all_frame (iterSubscriptionIds i) st1) as [-> _].
    reflexivity.
  - intros id Hin. rewrite Hids. unfold subscribers_of. rewrite Hsubs.
    apply (unsubscribe_all_removes (iterSubscriptionIds i) id st1 Hin).
  - intros t cb H. unfold subscribers_of. rewrite Hsubs.
    apply (unsubscribe_all_subset (iterSubscriptionIds i) t cb st1 H).
  - intros p Hin Hp. apply resolve_all_resolves; [exact Hin|].
    subst st2. destruct (unsubscribe_all_frame (iterSubscriptionIds i) st1) as [_ ->].
    exact Hp.
Qed.

(** *** Well-formed engine states. *)

Definition callback_exists (n : nat) (cb : Callback) : Prop :=
  match cb with
  | UserCallback _ => True
  | IteratorCallback it _ => it < n
  end.

(** Iterator callbacks belong to iterators that exist. *)
Definition callbacks_ok (st : State) : Prop :=
  map_Forall (fun _ subscribers =>
                Forall (callback_exists (length (iterators st))) subscribers)
             (subscriptions st).

(** Pull queues hold promises that have been handed out. *)
Definition pulls_ok (st : State) : Prop :=
  Forall (fun i => Forall (fun r => r < length (promises st)) (pullQueue i))
         (iterators st).

Definition wf (st : State) : Prop := callbacks_ok st /\ pulls_ok st.

(** The calls a client of the engine and of its iterators can make, and
    the microtask checkpoint between them. *)
Inductive Call :=
| CallSubscribe (triggerName : string) (fn : nat)
| CallUnsubscribe (subId : nat)
| CallPublish (triggerName : string) (payload : JsValue)
| CallAsyncIterator (triggers : list string)
| CallMicrotasks
| CallNext (it : nat)
| CallReturn (it : nat)
| CallThrow (it : nat)
| CallClear.

Definition step (st : State) (c : Call) : State :=
  match c with
  | CallSubscribe triggerName fn => (subscribe triggerName (UserCallback fn) st).2
  | CallUnsubscribe subId => unsubscribe subId st
  | CallPublish triggerName payload => publish triggerName payload st
  | CallAsyncIterator triggers => (asyncIterator triggers st).2
  | CallMicrotasks => run_microtasks st
  | CallNext it => (iterator_next it st).2
  | CallReturn it => iterator_return it st
  | CallThrow it => iterator_throw it st
  | CallClear => clear st
  end.

(** The states of an engine that started empty. *)
Definition reachable (st : State) : Prop :=
  exists calls, st = foldl step init calls.

Lemma wf_init : wf init.
Proof. split; [apply map_Forall_empty | constructor]. Qed.

Lemma callback_exists_mono n m cb : n <= m -> callback_exists n cb -> callback_exists m cb.
Proof. destruct cb; simpl; [trivial | lia]. Qed.

(** [wf] looks at the subscriptions, the iterators and the number of
    promises only. *)
Lemma wf_same st st' :
  subscriptions st' = subscriptions st ->
  iterators st' = iterators st ->
  length (promises st') = length (promises st) ->
  wf st -> wf st'.
Proof.
  intros Hs Hi Hp [H1 H2]. unfold wf, callbacks_ok, pulls_ok.
  rewrite Hs, Hi, Hp. split; assumption.
Qed.

Lemma wf_resolve p r st : wf st -> wf (resolve p r st).
Proof.
  apply wf_same; [apply resolve_subscriptions | apply resolve_iterators | apply resolve_length].
Qed.

Lemma wf_set_iterator it x st :
  wf st ->
  Forall (fun r => r < length (promises st)) (pullQueue x) ->
  wf (set_iterator it x st).
Proof.
  intros [H1 H2] Hx. split.
  - unfold callbacks_ok. simpl. rewrite length_insert. exact H1.
  - unfold pulls_ok. simpl. apply Forall_insert; assumption.
Qed.

Lemma pulls_ok_lookup st it i :
  wf st -> iterators st !! it = Some i ->
  Forall (fun r => r < length (promises st)) (pullQueue i).
Proof. intros [_ H2] Hi. apply (proj1 (Forall_lookup _ _) H2 it i Hi). Qed.

Lemma wf_pushValue it v st : wf st -> wf (pushValue it v st).
Proof.
  intros Hwf. unfold pushValue.
  destruct (iterators st !! it) as [i|] eqn:E; [|exact Hwf].
  pose proof (pulls_ok_lookup st it i Hwf E) as Hq.
  destruct (pullQueue i) as [|r rest] eqn:Eq.
  - apply wf_set_iterator; [exact Hwf|]. simpl. rewrite Eq. constructor.
  - apply wf_resolve, wf_set_iterator; [exact Hwf|]. simpl.
    apply Forall_cons in Hq as [_ Hq]. exact Hq.
Qed.

Lemma wf_invoke payload st cb : wf st -> wf (invoke payload st cb).
Proof.
  destruct cb as [fn|it k]; simpl; [|apply wf_pushValue].
  destruct (user_throws fn payload); apply wf_same; reflexivity.
Qed.

Lemma wf_publish t payload st : wf st -> wf (publish t payload st).
Proof.
  intros Hwf. unfold publish. destruct (subscriptions st !! t) as [subs|]; [|exact Hwf].
  revert st Hwf. induction subs as [|cb rest IH]; intros st Hwf; simpl; [exact Hwf|].
  apply IH, wf_invoke, Hwf.
Qed.

Lemma wf_subscribe t cb st :
  callback_exists (length (iterators st)) cb -> wf st -> wf (subscribe t cb st).2.
Proof.
  intros Hcb [H1 H2]. split; [|exact H2].
  unfold callbacks_ok. simpl. apply map_Forall_insert_2; [|exact H1].
  unfold set_add.
  assert (Hold : Forall (callback_exists (length (iterators st)))
                   (default [] (subscriptions st !! t))).
  { destruct (subscriptions st !! t) as [subs|] eqn:E; simpl; [|constructor].
    apply (H1 t subs E). }
  destruct (decide _); [exact Hold|].
  apply Forall_app. split; [exact Hold | constructor; [exact Hcb | constructor]].
Qed.

Lemma wf_unsubscribe subId st : wf st -> wf (unsubscribe subId st).
Proof.
  intros [H1 H2]. unfold unsubscribe.
  destruct (subscriptionIds st !! subId) as [[trigger callback]|]; [|split; assumption].
  split; [|destruct (subscriptions st !! trigger); [destruct (decide _)|]; exact H2].
  unfold callbacks_ok.
  destruct (subscriptions st !! trigger) as [subs|] eqn:E; simpl; [|exact H1].
  destruct (decide _); simpl.
  - apply map_Forall_delete, H1.
  - apply map_Forall_insert_2; [|exact H1].
    apply Forall_forall. intros x Hx. unfold set_delete in Hx.
    apply list_elem_of_filter in Hx as [_ Hx].
    pose proof (H1 trigger subs E) as Hsubs. rewrite Forall_forall in Hsubs.
    apply Hsubs, Hx.
Qed.

Lemma wf_subscribe_triggers it triggers : forall k st,
  it < length (iterators st) -> wf st -> wf (subscribe_triggers it k triggers st).
Proof.
  induction triggers as [|t rest IH]; intros k st Hlt Hwf; [exact Hwf|].
  cbn [subscribe_triggers].
  pose proof (wf_subscribe t (IteratorCallback it k) st Hlt Hwf) as Hwf1.
  assert (Hiter : iterators (subscribe t (IteratorCallback it k) st).2 = iterators st)
    by reflexivity.
  destruct (subscribe t (IteratorCallback it k) st) as [id st1].
  simpl in Hwf1, Hiter.
  destruct (iterators st1 !! it) as [i|] eqn:E.
  - apply IH.
    + simpl. rewrite length_insert, Hiter. exact Hlt.
    + apply wf_set_iterator; [exact Hwf1|]. simpl.
      apply (pulls_ok_lookup st1 it i Hwf1 E).
  - apply IH; [rewrite Hiter; exact Hlt | exact Hwf1].
Qed.

Lemma wf_asyncIterator triggers st : wf st -> wf (asyncIterator triggers st).2.
Proof.
  intros [H1 H2]. unfold asyncIterator. simpl.
  apply wf_subscribe_triggers.
  - simpl. rewrite length_app. simpl. lia.
  - split.
    + unfold callbacks_ok. simpl. intros t subs E.
      eapply Forall_impl; [apply (H1 t subs E)|].
      intros cb. apply callback_exists_mono. rewrite length_app. lia.
    + unfold pulls_ok. simpl. apply Forall_app. split; [exact H2|].
      constructor; [constructor | constructor].
Qed.

Lemma wf_run_microtasks st : wf st -> wf (run_microtasks st).
Proof.
  intros [H1 H2]. split.
  - unfold callbacks_ok. simpl. rewrite length_fmap. exact H1.
  - unfold pulls_ok. simpl. apply Forall_fmap.
    eapply Forall_impl; [exact H2|]. intros i Hi. exact Hi.
Qed.

Lemma wf_more_promises st x : wf st -> wf (set_promises (promises st ++ [x]) st).
Proof.
  intros [H1 H2]. split; [exact H1|].
  unfold pulls_ok. simpl. eapply Forall_impl; [exact H2|].
  intros i Hi. eapply Forall_impl; [exact Hi|].
  intros r Hr. simpl in Hr. rewrite length_app. simpl. lia.
Qed.

Lemma wf_pullValue it st : wf st -> wf (pullValue it st).2.
Proof.
  intros Hwf. unfold pullValue.
  pose proof (wf_more_promises st None Hwf) as Hwf1.
  set (st1 := set_promises (promises st ++ [None]) st) in *.
  destruct (iterators st1 !! it) as [i|] eqn:E; [|exact Hwf1].
  pose proof (pulls_ok_lookup st1 it i Hwf1 E) as Hq.
  destruct (decide _); simpl.
  - apply wf_resolve, wf_set_iterator; [exact Hwf1 | exact Hq].
  - destruct (listening i); simpl.
    + apply wf_set_iterator; [exact Hwf1|]. simpl.
      apply Forall_app. split; [exact Hq|].
      constructor; [|constructor]. subst st1. simpl. rewrite length_app. simpl. lia.
    + apply wf_resolve, wf_set_iterator; [exact Hwf1 | exact Hq].
Qed.

Lemma wf_unsubscribe_all ids st : wf st -> wf (unsubscribe_all ids st).
Proof.
  unfold unsubscribe_all. revert st.
  induction ids as [|id rest IH]; intros st Hwf; simpl; [exact Hwf|].
  apply IH, wf_unsubscribe, Hwf.
Qed.

Lemma wf_resolve_all ps r st : wf st -> wf (resolve_all ps r st).
Proof.
  unfold resolve_all. revert st.
  induction ps as [|p rest IH]; intros st Hwf; simpl; [exact Hwf|].
  apply IH, wf_resolve, Hwf.
Qed.

Lemma wf_iterator_return it st : wf st -> wf (iterator_return it st).
Proof.
  intros Hwf. unfold iterator_return.
  destruct (iterators st !! it) as [i|] eqn:E; [|exact Hwf].
  apply wf_resolve_all, wf_unsubscribe_all, wf_set_iterator; [exact Hwf|].
  apply (pulls_ok_lookup st it i Hwf E).
Qed.

Lemma wf_iterator_throw it st : wf st -> wf (iterator_throw it st).
Proof.
  intros Hwf. unfold iterator_throw.
  destruct (iterators st !! it) as [i|] eqn:E; [|exact Hwf].
  apply wf_unsubscribe_all, wf_set_iterator; [exact Hwf|].
  apply (pulls_ok_lookup st it i Hwf E).
Qed.

Lemma wf_clear st : wf st -> wf (clear st).
Proof. intros [H1 H2]. split; [apply map_Forall_empty | exact H2]. Qed.

Lemma wf_step st c : wf st -> wf (step st c).
Proof.
  destruct c; simpl.
  - apply wf_subscribe. exact I.
  - apply wf_unsubscribe.
  - apply wf_publish.
  - apply wf_asyncIterator.
  - apply wf_run_microtasks.
  - apply wf_pullValue.
  - apply wf_iterator_return.
  - apply wf_iterator_throw.
  - apply wf_clear.
Qed.

(** Every reachable state is well formed. *)
Lemma reachable_wf st : reachable st -> wf st.
Proof.
  intros [calls ->]. generalize wf_init. generalize init.
  induction calls as [|c rest IH]; intros st Hwf; simpl; [exact Hwf|].
  apply IH, wf_step, Hwf.
Qed.

Lemma reachable_step st c : reachable st -> reachable (step st c).
Proof.
  intros [calls ->]. exists (calls ++ [c]). rewrite foldl_app. reflexivity.
Qed.

(** In a well-formed state, a promise not yet handed out is in no pull
    queue. *)
Lemma avoided_fresh p it st : wf st -> length (promises st) <= p -> avoided p it st.
Proof.
  intros Hwf Hle it' i' _ Hi' Hin.
  pose proof (pulls_ok_lookup st it' i' Hwf Hi') as Hq.
  rewrite Forall_forall in Hq. specialize (Hq p Hin). lia.
Qed.

(** *** Creation. *)

Lemma wf_others t st :
  wf st -> Forall (other_than (length (iterators st))) (subscribers_of t st).
Proof.
  intros [H1 _]. unfold subscribers_of.
  destruct (subscriptions st !! t) as [subs|] eqn:E; simpl; [|constructor].
  eapply Forall_impl; [apply (H1 t subs E)|].
  intros [fn|it k]; simpl; [trivial | lia].
Qed.

Lemma others_exclude l it k : Forall (other_than it) l -> IteratorCallback it k ∉ l.
Proof.
  intros Hall Hin. rewrite Forall_forall in Hall. apply (Hall _ Hin). reflexivity.
Qed.

Lemma asyncIterator_single t st0 :
  wf st0 ->
  (asyncIterator [t] st0).1 = length (iterators st0) /\
  iterators (run_microtasks (asyncIterator [t] st0).2) !! length (iterators st0)
  = Some (mkIter [] [] true [nextId st0] []) /\
  subscriptions (run_microtasks (asyncIterator [t] st0).2) !! t
  = Some (subscribers_of t st0 ++ [IteratorCallback (length (iterators st0)) 0]) /\
  subscriptionIds (run_microtasks (asyncIterator [t] st0).2) !! nextId st0
  = Some (t, IteratorCallback (length (iterators st0)) 0) /\
  promises (run_microtasks (asyncIterator [t] st0).2) = promises st0.
Proof.
  intros Hwf.
  pose proof (others_exclude _ (length (iterators st0)) 0 (wf_others t st0 Hwf)) as Hnot.
  unfold asyncIterator, subscribers_of in *. simpl.
  assert (Hfresh : (iterators st0 ++ [mkIter [] [] true [] []]) !! length (iterators st0)
                   = Some (mkIter [] [] true [] [])).
  { rewrite lookup_app_r by lia. rewrite Nat.sub_diag. reflexivity. }
  rewrite Hfresh. simpl.
  split; [reflexivity|]. split; [|split; [|split]].
  - rewrite list_lookup_fmap, list_lookup_insert_eq; [reflexivity|].
    rewrite length_app. simpl. lia.
  - rewrite lookup_insert_eq. unfold set_add.
    rewrite decide_False by exact Hnot. reflexivity.
  - apply lookup_insert_eq.
  - reflexivity.
Qed.

(** *** Pulls parked on a listening iterator with an empty push queue. *)

Lemma parked_pulls t it n : forall st i,
  iterators st !! it = Some i ->
  pushQueue i = [] ->
  listening i = true ->
  (run_ops t it (replicate n OpNext) st).1 = seq (length (promises st)) n /\
  promises (run_ops t it (replicate n OpNext) st).2 = promises st ++ replicate n None /\
  iterators (run_ops t it (replicate n OpNext) st).2
  = <[it := set_pullQueue (pullQueue i ++ seq (length (promises st)) n) i]> (iterators st) /\
  subscriptions (run_ops t it (replicate n OpNext) st).2 = subscriptions st /\
  subscriptionIds (run_ops t it (replicate n OpNext) st).2 = subscriptionIds st.
Proof.
  induction n as [|n IH]; intros st i Hi Hq Hl; simpl.
  - rewrite !app_nil_r. repeat split; try reflexivity.
    symmetry. apply list_insert_id. rewrite Hi. f_equal. destruct i; reflexivity.
  - destruct (pullValue_parks it st i Hi) as (Hp & Hpr & Hit); [left; rewrite Hq; reflexivity | exact Hl |].
    assert (Hsub : subscriptions (pullValue it st).2 = subscriptions st
                   /\ subscriptionIds (pullValue it st).2 = subscriptionIds st).
    { unfold pullValue. simpl. rewrite Hi, Hq. simpl. rewrite Hl. simpl. auto. }
    unfold iterator_next.
    destruct (pullValue it st) as [p st1] eqn:Epull. simpl in *.
    rewrite Hq in Hit. simpl in Hit.
    set (i1 := set_pullQueue (pullQueue i ++ [length (promises st)]) (set_pushQueue [] i)) in *.
    assert (Hi1 : iterators st1 !! it = Some i1).
    { rewrite Hit. apply list_lookup_insert_eq. apply lookup_lt_Some in Hi. exact Hi. }
    destruct (IH st1 i1 Hi1 eq_refl Hl) as (H1 & H2 & H3 & H4 & H5).
    destruct (run_ops t it (replicate n OpNext) st1) as [ps st2] eqn:Erun. simpl in *.
    assert (Hlen : length (promises st1) = S (length (promises st))).
    { rewrite Hpr, length_app. simpl. lia. }
    rewrite Hlen in *. subst p.
    destruct Hsub as [Hs1 Hs2].
    repeat split.
    + rewrite H1. reflexivity.
    + rewrite H2, Hpr, <- app_assoc. reflexivity.
    + rewrite H3, Hit, list_insert_insert_eq. f_equal.
      subst i1. simpl. unfold set_pullQueue. simpl. rewrite <- app_assoc. simpl.
      rewrite Hq. reflexivity.
    + rewrite H4. exact Hs1.
    + rewrite H5. exact Hs2.
Qed.

(** *** After cancellation: the iterator is deaf and every pull is done. *)


Lemma pullValue_settled it st q x :
  promises st !! q = Some (Some x) ->
  promises (pullValue it st).2 !! q = Some (Some x).
Proof.
  intros H. unfold pullValue.
  assert (H1 : promises (set_promises (promises st ++ [None]) st) !! q = Some (Some x)).
  { simpl. rewrite lookup_app_l; [exact H|]. apply lookup_lt_Some in H. exact H. }
  set (st1 := set_promises (promises st ++ [None]) st) in *.
  destruct (iterators st1 !! it) as [i|]; [|exact H1].
  destruct (decide _); simpl; [apply resolve_keeps_settled; exact H1|].
  destruct (negb _); simpl; [apply resolve_keeps_settled; exact H1 | exact H1].
Qed.

Lemma run_ops_settled t it ops : forall st q x,
  promises st !! q = Some (Some x) ->
  promises (run_ops t it ops st).2 !! q = Some (Some x).
Proof.
  induction ops as [|op rest IH]; intros st q x H; simpl; [exact H|].
  destruct op as [payload|].
  - apply IH, publish_settled, H.
  - unfold iterator_next.
    pose proof (pullValue_settled it st q x H) as H1.
    destruct (pullValue it st) as [p st1]. simpl in H1.
    specialize (IH st1 q x H1).
    destruct (run_ops t it rest st1) as [ps st2]. exact IH.
Qed.



Lemma publish_subscriptionIds t payload st :
  subscriptionIds (publish t payload st) = subscriptionIds st.
Proof.
  unfold publish. destruct (subscriptions st !! t) as [subs|]; [|reflexivity].
  revert st. induction subs as [|cb rest IH]; intros st; simpl; [reflexivity|].
  rewrite IH. destruct cb as [fn|it k]; simpl.
  - destruct (user_throws fn payload); reflexivity.
  - apply pushValue_frame.
Qed.

Lemma publish_all_subscriptionIds t payloads st :
  subscriptionIds (publish_all t payloads st) = subscriptionIds st.
Proof.
  unfold publish_all. revert st.
  induction payloads as [|p ps IH]; intros st; simpl; [reflexivity|].
  rewrite IH. apply publish_subscriptionIds.
Qed.

Lemma no_subscribers_deliveries payloads :
  concat (map (fun p => user_deliveries p []) payloads) = [].
Proof. induction payloads as [|p ps IH]; simpl; [reflexivity | exact IH]. Qed.

(** The scenario of one subscriber: subscribe, publish, unsubscribe,
    publish again. *)
Lemma single_subscriber_scenario t fn before after st :
  subscriptions st !! t = None ->
  delivered
    (publish_all t after
       (unsubscribe (subscribe t (UserCallback fn) st).1
          (publish_all t before (subscribe t (UserCallback fn) st).2)))
  = delivered st ++ map (pair fn) before.
Proof.
  intros Hnone.
  set (st1 := (subscribe t (UserCallback fn) st).2).
  assert (Hs1 : subscriptions st1 !! t = Some [UserCallback fn]).
  { subst st1. unfold subscribe. simpl. rewrite lookup_insert_eq, Hnone. reflexivity. }
  assert (Hid1 : subscriptionIds st1 !! (subscribe t (UserCallback fn) st).1
                 = Some (t, UserCallback fn)).
  { subst st1. unfold subscribe. simpl. apply lookup_insert_eq. }
  set (st2 := publish_all t before st1).
  assert (Hs2 : subscriptions st2 !! t = Some [UserCallback fn]).
  { subst st2. rewrite publish_all_subscriptions. exact Hs1. }
  assert (Hid2 : subscriptionIds st2 !! (subscribe t (UserCallback fn) st).1
                 = Some (t, UserCallback fn)).
  { subst st2. rewrite publish_all_subscriptionIds. exact Hid1. }
  rewrite publish_all_delivered.
  replace (subscribers_of t (unsubscribe (subscribe t (UserCallback fn) st).1 st2))
    with (@nil Callback)
    by (unfold subscribers_of;
        rewrite (unsubscribe_last _ t (UserCallback fn) st2 Hid2 Hs2); reflexivity).
  rewrite no_subscribers_deliveries, app_nil_r.
  destruct (unsubscribe_frame (subscribe t (UserCallback fn) st).1 st2) as (_ & _ & -> & _).
  subst st2. rewrite publish_all_delivered.
  replace (subscribers_of t st1) with [UserCallback fn]
    by (unfold subscribers_of; rewrite Hs1; reflexivity).
  rewrite single_user_deliveries. reflexivity.
Qed.


End Engine.


(** An engine on which a consumer has just created an iterator over "t"
    (and the microtask recording its subscription id has run). *)
Definition fresh_iterator : State := run_microtasks (asyncIterator ["t"] init).2.

Lemma fresh_iterator_reachable user_throws : reachable user_throws fresh_iterator.
Proof. exists [CallAsyncIterator ["t"]; CallMicrotasks]. reflexivity. Qed.





(** C8: on a trigger whose subscriber set is the single callback [fn]
    (one active subscriber), publishing the payloads [payloads] hands
    exactly these, in publication order, to [fn]; one publish reaches every
    caller-supplied callback of the trigger's set, in set order, whichever
    of them throw (each throw is caught and logged); after [unsubscribe] of
    a registration of [fn] on the trigger, publishes on it deliver nothing
    more to [fn]; after the last callback of a trigger is unsubscribed, and
    on any trigger without subscribers, a publish leaves the whole state
    unchanged; so a subscriber that subscribes to a free trigger receives
    exactly the payloads published between its [subscribe] and its
    [unsubscribe], in order. *)
Theorem C8_publish_delivery
    (user_throws : nat -> JsValue -> bool) (st : State) (t : string) :
  (forall fn payloads,
      subscriptions st !! t = Some [UserCallback fn] ->
      delivered (publish_all user_throws t payloads st)
      = delivered st ++ map (pair fn) payloads) /\
  (forall payload,
      delivered (publish user_throws t payload st)
      = delivered st ++ user_deliveries payload (subscribers_of t st) /\
      console_errors (publish user_throws t payload st)
      = console_errors st + throwing user_throws payload (subscribers_of t st)) /\
  (forall subId fn payloads,
      subscriptionIds st !! subId = Some (t, UserCallback fn) ->
      deliveries_to fn (delivered (publish_all user_throws t payloads (unsubscribe subId st)))
      = deliveries_to fn (delivered st)) /\
  (forall subId cb payload,
      subscriptionIds st !! subId = Some (t, cb) ->
      subscriptions st !! t = Some [cb] ->
      publish user_throws t payload (unsubscribe subId st) = unsubscribe subId st) /\
  (forall payload,
      subscriptions st !! t = None ->
      publish user_throws t payload st = st) /\
  (forall fn before after,
      subscriptions st !! t = None ->
      delivered
        (publish_all user_throws t after
           (unsubscribe (subscribe t (UserCallback fn) st).1
              (publish_all user_throws t before (subscribe t (UserCallback fn) st).2)))
      = delivered st ++ map (pair fn) before).
Proof.
  split; [|split; [|split; [|split; [|split]]]].
  - intros fn payloads Hsubs.
    rewrite publish_all_delivered.
    replace (subscribers_of t st) with [UserCallback fn]
      by (unfold subscribers_of; rewrite Hsubs; reflexivity).
    rewrite single_user_deliveries. reflexivity.
  - intros payload. split; [apply publish_delivered | apply publish_console_errors].
  - intros subId fn payloads Hid.
    destruct (unsubscribe_removes subId t (UserCallback fn) st Hid) as [Hnot _].
    rewrite publish_all_delivered, deliveries_to_app.
    rewrite (deliveries_to_concat_absent _ _ _ Hnot), app_nil_r.
    destruct (unsubscribe_frame subId st) as (_ & _ & -> & _). reflexivity.
  - intros subId cb payload Hid Hsubs.
    unfold publish. rewrite (unsubscribe_last subId t cb st Hid Hsubs). reflexivity.
  - intros payload Hnone. unfold publish. rewrite Hnone. reflexivity.
  - intros fn before after Hnone. apply single_subscriber_scenario, Hnone.
Qed.

(** The engine after [subscribe("t", f1)], [subscribe("t", f2)], where [f1]
    throws on every payload. *)
Definition two_subscribers : State :=
  (subscribe "t" (UserCallback 2) (subscribe "t" (UserCallback 1) init).2).2.

Lemma C8_publish_delivery_witness :
  delivered (publish (fun fn _ => Nat.eqb fn 1) "t" (JNumber 7) two_subscribers)
  = [(1, JNumber 7); (2, JNumber 7)] /\
  console_errors (publish (fun fn _ => Nat.eqb fn 1) "t" (JNumber 7) two_subscribers) = 1 /\
  deliveries_to 2
    (delivered (publish_all (fun fn _ => Nat.eqb fn 1) "t" [JNumber 8; JNumber 9]
                  (unsubscribe 2 two_subscribers))) = [].
Proof.
  pose proof (C8_publish_delivery (fun fn _ => Nat.eqb fn 1) two_subscribers "t")
    as (_ & H2 & H3 & _).
  destruct (H2 (JNumber 7)) as [Hd He].
  split; [rewrite Hd; reflexivity|].
  split; [rewrite He; reflexivity|].
  rewrite (H3 2 2 [JNumber 8; JNumber 9]); reflexivity.
Defined.

End PubSub.

(* ===================================================================== *)
(** ** Action resolver and effect interpreter                             *)
(**    (Mutation Resolvers)                                               *)
(* ===================================================================== *)

Module Effects.

Local Open Scope string_scope.

(** JavaScript values as the interpreter observes them ([VOther] carries
    the [String(value)] rendering of a function, symbol or bigint). *)
Local Unset Elimination Schemes.
Inductive Value :=
| VNull
| VUndefined
| VString (s : string)
| VNumber (z : Z)
| VBoolean (b : bool)
| VArray (items : list Value)
| VObject
| VOther (rendering : string).
Local Set Elimination Schemes.

(** What a [throw] carries: an [Error] instance with its message, or some
    other value. *)
Inductive Thrown :=
| ThrownError (message : string)
| ThrownOther.

(** [error instanceof Error ? error.message : 'Unknown error'] *)
Definition errorMessage (error : Thrown) : string :=
  match error with
  | ThrownError message => message
  | ThrownOther => "Unknown error"
  end.

Record EffectResultResponse := mkEffectResult {
  effect_type : string;
  effect_path : option string;
  effect_description : string
}.

Record ActionErrorResponse := mkActionError {
  code : string;
  message : string
}.

Record ExecResult := mkExecResult {
  success : bool;
  effects : list EffectResultResponse;
  errors : list ActionErrorResponse
}.

Record ActionResultResponse := mkActionResult {
  result_success : bool;
  result_errors : option (list ActionErrorResponse);
  result_effects : option (list EffectResultResponse)
}.

Definition quote : string := String (ascii_of_nat 34) EmptyString.

Definition string_of_Z (z : Z) : string := NilZero.string_of_int (Z.to_int z).

Definition string_of_nat (n : nat) : string := string_of_Z (Z.of_nat n).

Definition formatValue (value : Value) : string :=
  match value with
  | VNull => "null"
  | VUndefined => "undefined"
  | VString s => quote ++ s ++ quote
  | VNumber z => string_of_Z z
  | VBoolean true => "true"
  | VBoolean false => "false"
  | VArray items => "[array of " ++ string_of_nat (length items) ++ "]"
  | VObject => "[object]"
  | VOther rendering => rendering
  end.

(** *** Computations that may throw and that thread a state. *)

Definition Comp (S A : Type) : Type := S -> (Thrown + A) * S.

Definition ret {S A} (a : A) : Comp S A := fun s => (inr a, s).

Definition throw {S A} (e : Thrown) : Comp S A := fun s => (inl e, s).

Definition bind {S A B} (c : Comp S A) (k : A -> Comp S B) : Comp S B :=
  fun s =>
    match c s with
    | (inr a, s') => k a s'
    | (inl e, s') => (inl e, s')
    end.

(** [try { c } catch (error) { handler error }]: the state reached when the
    exception was raised is kept. *)
Definition try_catch {S A} (c : Comp S A) (handler : Thrown -> Comp S A) : Comp S A :=
  fun s =>
    match c s with
    | (inr a, s') => (inr a, s')
    | (inl e, s') => handler e s'
    end.

Definition modify {S} (f : S -> S) : Comp S unit := fun s => (inr tt, f s).

Definition gets {S A} (f : S -> A) : Comp S A := fun s => (inr (f s), s).

Declare Scope comp_scope.
Delimit Scope comp_scope with comp.
Notation "x <- c1 ;; c2" := (bind c1 (fun x => c2))
  (at level 100, c1 at next level, right associativity) : comp_scope.
Notation "c1 ;;; c2" := (bind c1 (fun _ => c2))
  (at level 100, right associativity) : comp_scope.
Local Open Scope comp_scope.

Section Interpreter.

(** The state of the external domain runtime (and of whatever else its
    methods and the handlers touch). *)
Variable World : Type.

(** A method of the runtime, a handler or a hook: it may change the world
    and may throw (or, when awaited, reject). *)
Definition Method (A : Type) : Type := World -> (Thrown + A) * World.

(** [typeof effect.value === 'function' ? effect.value(input) : effect.value] *)
Inductive ValueSource :=
| Literal (value : Value)
| Computed (f : Value -> Thrown + Value).

Local Unset Elimination Schemes.
Inductive Effect :=
| SetValue (path : string) (value : ValueSource)
| Sequence (effects : list Effect)
| Parallel (effects : list Effect)
| Conditional (condition : string) (then_ : option Effect) (else_ : option Effect)
| Custom (handler : option (Value -> Method unit)) (description : option string)
| UnknownEffect (tag : option string).
Local Set Elimination Schemes.

(** The shapes [evaluatePreconditions] tells apart: an object with a
    truthy [$ref], a function of the snapshot, [null] (whose [$ref] probe
    throws), and anything else. *)
Inductive Precondition :=
| PreRef (ref : string) (reason : option string)
| PreFunction (f : Value -> Thrown + bool)
| PreNull
| PreOther (v : Value).

Record ActionDef := mkActionDef {
  preconditions : option (list Precondition);
  effect : option Effect
}.

Record PreconditionCheck := mkPreconditionCheck {
  canExecute : bool;
  blockedReasons : list string
}.

(** The payloads the action resolver publishes. *)
Inductive EventPayload :=
| DomainChangeEvent (type : string) (timestamp : Z) (paths : list string) (snapshot : Value)
| ActionExecutedEvent (actionId : string) (input : Value)
                      (result : ActionResultResponse) (timestamp : Z).

Definition getDomainChangeTrigger (domainId : string) : string :=
  domainId ++ ":changed".

Definition getActionTrigger (domainId actionId : string) : string :=
  domainId ++ ":action:" ++ actionId.

Record PreconditionResult := mkPreconditionResult {
  satisfied : bool;
  reason : option string
}.

(** The external domain runtime.  [evaluatePrecondition] and [runEffect]
    are probed with [typeof ... === 'function'] before use; a missing
    [set], [getSnapshot] or [evaluateCondition] is a method that throws the
    TypeError of the failed call. *)
Record Runtime := mkRuntime {
  rt_get : string -> Method Value;
  rt_set : string -> Value -> Method unit;
  rt_getSnapshot : Method Value;
  rt_evaluateCondition : string -> Method bool;
  rt_evaluatePrecondition : option (Value -> Method PreconditionResult);
  rt_runEffect : option (Effect -> Value -> Method unit)
}.

(** The interpreter's state: the world, and a count of the calls of
    [executeEffect] (what a call-counting stub would record). *)
Record State := mkState {
  world : World;
  interp_calls : nat
}.

Definition count_call (st : State) : State :=
  mkState (world st) (S (interp_calls st)).

Definition call_method {A} (m : Method A) : Comp State A :=
  fun st =>
    let '(r, w) := m (world st) in (r, mkState w (interp_calls st)).

(** The local variables of one activation of [executeEffect]. *)
Record Frame := mkFrame {
  fr_effects : list EffectResultResponse;
  fr_errors : list ActionErrorResponse;
  fr_state : State
}.

Definition in_frame {A} (c : Comp State A) : Comp Frame A :=
  fun fr =>
    let '(r, st) := c (fr_state fr) in
    (r, mkFrame (fr_effects fr) (fr_errors fr) st).

Definition push_effects (l : list EffectResultResponse) : Comp Frame unit :=
  modify (fun fr => mkFrame (fr_effects fr ++ l) (fr_errors fr) (fr_state fr)).

Definition push_errors (l : list ActionErrorResponse) : Comp Frame unit :=
  modify (fun fr => mkFrame (fr_effects fr) (fr_errors fr ++ l) (fr_state fr)).

Definition is_empty {A} (l : list A) : bool :=
  match l with [] => true | _ => false end.

(** The [try]/[catch] around the body of [executeEffect], and its two
    [return] statements. *)
Definition run_body (body : Comp Frame unit) : Comp State ExecResult :=
  fun st =>
    match body (mkFrame [] [] (count_call st)) with
    | (inr _, fr) =>
        (inr (mkExecResult (is_empty (fr_errors fr)) (fr_effects fr) (fr_errors fr)),
         fr_state fr)
    | (inl error, fr) =>
        (inr (mkExecResult false (fr_effects fr)
                (fr_errors fr ++ [mkActionError "EFFECT_EXECUTION_ERROR" (errorMessage error)])),
         fr_state fr)
    end.

Definition compute_value (value : ValueSource) (input : Value) : Comp Frame Value :=
  match value with
  | Literal v => ret v
  | Computed f => match f input with inl e => throw e | inr v => ret v end
  end.

Section WithRuntime.

Variable runtime : Runtime.

(** [executeEffect(runtime, effect, input)].  The children of a [Parallel]
    node are run one after the other, left to right. *)
Fixpoint executeEffect (effect : Effect) (input : Value) {struct effect}
  : Comp State ExecResult :=
  run_body
    match effect with
    | SetValue path value =>
        v <- compute_value value input ;;
        in_frame (call_method (rt_set runtime path v)) ;;;
        push_effects
          [mkEffectResult "SetValue" (Some path)
             ("Set " ++ path ++ " to " ++ formatValue v)]
    | Sequence children =>
        (fix loop (l : list Effect) : Comp Frame unit :=
           match l with
           | [] => ret tt
           | childEffect :: rest =>
               childResult <- in_frame (executeEffect childEffect input) ;;
               push_effects (effects childResult) ;;;
               push_errors (errors childResult) ;;;
               if success childResult then loop rest else ret tt
           end) children
    | Parallel children =>
        results <-
          (fix all (l : list Effect) : Comp Frame (list ExecResult) :=
             match l with
             | [] => ret []
             | e :: rest =>
                 r <- in_frame (executeEffect e input) ;;
                 rs <- all rest ;;
                 ret (r :: rs)
             end) children ;;
        (fix loop (l : list ExecResult) : Comp Frame unit :=
           match l with
           | [] => ret tt
           | result :: rest =>
               push_effects (effects result) ;;;
               push_errors (errors result) ;;;
               loop rest
           end) results
    | Conditional condition then_ else_ =>
        c <- in_frame (call_method (rt_evaluateCondition runtime condition)) ;;
        match (if c : bool then then_ else else_) with
        | Some branch =>
            branchResult <- in_frame (executeEffect branch input) ;;
            push_effects (effects branchResult) ;;;
            push_errors (errors branchResult)
        | None => ret tt
        end
    | Custom handler description =>
        match handler with
        | Some h =>
            in_frame (call_method (h input)) ;;;
            push_effects
              [mkEffectResult "Custom" None
                 (default "Custom effect executed" description)]
        | None => ret tt
        end
    | UnknownEffect tag =>
        match rt_runEffect runtime with
        | Some runEffect =>
            in_frame (call_method (runEffect effect input)) ;;;
            push_effects
              [mkEffectResult (default "Unknown" tag) None "Effect executed"]
        | None => ret tt
        end
    end.

(** One iteration of the loop of [evaluatePreconditions]: the reason pushed
    to [blockedReasons], if any. *)
Definition check_precondition (precondition : Precondition) : Comp State (option string) :=
  try_catch
    match precondition with
    | PreRef ref reason_ =>
        sat <- call_method (rt_evaluateCondition runtime ref) ;;
        ret (if sat : bool then None
             else Some (default "Precondition not satisfied" reason_))
    | PreFunction f =>
        snapshot <- call_method (rt_getSnapshot runtime) ;;
        match f snapshot with
        | inl e => throw e
        | inr sat => ret (if sat : bool then None else Some "Precondition not satisfied")
        end
    | PreNull => throw (ThrownError "Cannot read properties of null")
    | PreOther v =>
        match rt_evaluatePrecondition runtime with
        | Some evaluatePrecondition =>
            result <- call_method (evaluatePrecondition v) ;;
            ret (if satisfied result then None
                 else Some (default "Precondition not satisfied" (reason result)))
        | None => ret (Some "Precondition not satisfied")
        end
    end
    (fun _ => ret (Some "Error evaluating precondition")).

Fixpoint check_all (l : list Precondition) (blocked : list string)
  : Comp State (list string) :=
  match l with
  | [] => ret blocked
  | precondition :: rest =>
      r <- check_precondition precondition ;;
      check_all rest (match r with
                      | Some reason_ => blocked ++ [reason_]
                      | None => blocked
                      end)
  end.

Definition evaluatePreconditions (actionDef : ActionDef) : Comp State PreconditionCheck :=
  blocked <- match preconditions actionDef with
             | Some l => check_all l []
             | None => ret []
             end ;;
  ret (mkPreconditionCheck (is_empty blocked) blocked).

(** The rest of the resolver's context: [domain.id], the optional pubsub
    engine, and the clock behind [Date.now()]. *)
Variable domain_id : string.
Variable pubsub : option (string -> EventPayload -> Method unit).
Variable Date_now : World -> Z.

Definition some_if_nonempty {A} (l : list A) : option (list A) :=
  if is_empty l then None else Some l.

(** The resolver returned by [createActionResolver(actionId, actionDef)],
    applied to [args.input]. *)
Definition createActionResolver (actionId : string) (actionDef : ActionDef) (input : Value)
  : Comp State ActionResultResponse :=
  try_catch
    (pre <- evaluatePreconditions actionDef ;;
     if negb (canExecute pre) then
       ret (mkActionResult false
              (Some (map (mkActionError "PRECONDITION_FAILED") (blockedReasons pre)))
              None)
     else
       outcome <-
         match effect actionDef with
         | Some eff =>
             try_catch
               (effectResult <- executeEffect eff input ;;
                ret (if success effectResult
                     then (effects effectResult, [])
                     else ([], errors effectResult)))
               (fun error => ret ([], [mkActionError "EFFECT_ERROR" (errorMessage error)]))
         | None => ret ([], [])
         end ;;
       let succeeded := is_empty outcome.2 in
       let result :=
         mkActionResult succeeded (some_if_nonempty outcome.2) (some_if_nonempty outcome.1) in
       match pubsub with
       | Some publish =>
           if succeeded then
             now1 <- gets (fun st => Date_now (world st)) ;;
             snapshot <- call_method (rt_getSnapshot runtime) ;;
             call_method (publish (getDomainChangeTrigger domain_id)
                            (DomainChangeEvent "ACTION_EXECUTED" now1 [] snapshot)) ;;;
             now2 <- gets (fun st => Date_now (world st)) ;;
             call_method (publish (getActionTrigger domain_id actionId)
                            (ActionExecutedEvent actionId input result now2)) ;;;
             ret result
           else ret result
       | None => ret result
       end)
    (fun error =>
       ret (mkActionResult false
              (Some [mkActionError "ACTION_ERROR" (errorMessage error)]) None)).

(** The outcome of each precondition of a list, in order, as the loop of
    [evaluatePreconditions] meets it: [Some reason] for a violated one. *)
Fixpoint precondition_outcomes (l : list Precondition) (st : State)
  : list (option string) :=
  match l with
  | [] => []
  | precondition :: rest =>
      let '(r, st') := check_precondition precondition st in
      match r with
      | inr o => o :: precondition_outcomes rest st'
      | inl _ => []
      end
  end.

(** *** The interpreter always returns. *)

Lemma run_body_returns body st :
  exists r st', run_body body st = (inr r, st').
Proof.
  unfold run_body.
  destruct (body (mkFrame [] [] (count_call st))) as [[e|u] fr]; eauto.
Qed.

Lemma is_empty_snoc {A} (l : list A) (x : A) : is_empty (l ++ [x])%list = false.
Proof. destruct l; reflexivity. Qed.

Lemma run_body_success body st r st' :
  run_body body st = (inr r, st') -> success r = is_empty (errors r).
Proof.
  unfold run_body.
  destruct (body (mkFrame [] [] (count_call st))) as [[e|u] fr];
    intros H; inversion H; subst; simpl; [|reflexivity].
  symmetry. apply is_empty_snoc.
Qed.

Lemma executeEffect_returns eff input st :
  exists r st', executeEffect eff input st = (inr r, st').
Proof. destruct eff; apply run_body_returns. Qed.

(** [success] is exactly "the error list is empty". *)
Lemma executeEffect_success eff input st r st' :
  executeEffect eff input st = (inr r, st') -> success r = is_empty (errors r).
Proof. destruct eff; apply run_body_success. Qed.

(** *** Preconditions. *)

Lemma call_method_calls {A} (m : Method A) st :
  interp_calls (call_method m st).2 = interp_calls st.
Proof. unfold call_method. destruct (m (world st)); reflexivity. Qed.

Lemma check_precondition_returns precondition st :
  exists o st', check_precondition precondition st = (inr o, st')
                /\ interp_calls st' = interp_calls st.
Proof.
  unfold check_precondition, try_catch, bind, call_method, ret, throw.
  destruct precondition as [ref reason_|f| |v].
  - destruct (rt_evaluateCondition runtime ref (world st)) as [[e|sat] w]; simpl; eauto.
  - destruct (rt_getSnapshot runtime (world st)) as [[e|snapshot] w]; simpl; [eauto|].
    destruct (f snapshot) as [e|sat]; simpl; eauto.
  - simpl. eauto.
  - destruct (rt_evaluatePrecondition runtime) as [ep|]; [|simpl; eauto].
    destruct (ep v (world st)) as [[e|result] w]; simpl; eauto.
Qed.


Lemma check_all_spec l : forall blocked st,
  exists st',
    check_all l blocked st
    = (inr (blocked ++ omap id (precondition_outcomes l st))%list, st')
    /\ interp_calls st' = interp_calls st.
Proof.
  induction l as [|p rest IH]; intros blocked st; simpl.
  - exists st. rewrite app_nil_r. split; reflexivity.
  - unfold bind.
    destruct (check_precondition_returns p st) as (o & st1 & -> & Hcalls).
    destruct (IH (match o with Some reason_ => (blocked ++ [reason_])%list | None => blocked end) st1)
      as (st2 & -> & Hcalls2).
    exists st2. split; [|congruence].
    f_equal. f_equal. destruct o as [reason_|]; simpl; [|reflexivity].
    rewrite <- app_assoc. reflexivity.
Qed.

Lemma evaluatePreconditions_spec actionDef st :
  exists st',
    evaluatePreconditions actionDef st
    = (inr (mkPreconditionCheck
              (is_empty (omap id (precondition_outcomes
                                    (default [] (preconditions actionDef)) st)))
              (omap id (precondition_outcomes
                          (default [] (preconditions actionDef)) st))),
       st')
    /\ interp_calls st' = interp_calls st.
Proof.
  unfold evaluatePreconditions, bind.
  destruct (preconditions actionDef) as [l|]; simpl.
  - destruct (check_all_spec l [] st) as (st' & -> & Hcalls).
    exists st'. split; [reflexivity | exact Hcalls].
  - exists st. split; reflexivity.
Qed.


End WithRuntime.

End Interpreter.

Arguments SetValue {World} path value.
Arguments Sequence {World} effects.
Arguments Parallel {World} effects.
Arguments Conditional {World} condition then_ else_.
Arguments Custom {World} handler description.
Arguments UnknownEffect {World} tag.
Arguments mkActionDef {World} preconditions effect.
Arguments preconditions {World} a.
Arguments effect {World} a.
Arguments mkRuntime {World}.
Arguments rt_set {World} r.
Arguments rt_evaluateCondition {World} r.
Arguments rt_runEffect {World} r.
Arguments mkState {World} world interp_calls.
Arguments world {World} s.
Arguments interp_calls {World} s.
Arguments count_call {World} st.
Arguments executeEffect {World} runtime effect input.
Arguments precondition_outcomes {World} runtime l st.
Arguments evaluatePreconditions {World} runtime actionDef.
Arguments createActionResolver {World} runtime domain_id pubsub Date_now actionId actionDef input.

Definition execution_error (error : Thrown) : ActionErrorResponse :=
  mkActionError "EFFECT_EXECUTION_ERROR" (errorMessage error).


(** C2: in a Sequence [[A; B; C]] whose child A succeeds and whose child B
    reports an error, the result is unsuccessful, its effect descriptions
    are A's followed by B's, its errors are A's followed by B's and are not
    empty, and the state is the one B left behind: nothing of C appears,
    C is not interpreted, and no write of A or B is undone. *)
Theorem C2_sequence_stops_without_rollback
    (World : Type) (runtime : Runtime World) (A B C : Effect World) (input : Value)
    (st sA sB : State World) (rA rB : ExecResult) :
  executeEffect runtime A input (count_call st) = (inr rA, sA) ->
  success rA = true ->
  executeEffect runtime B input sA = (inr rB, sB) ->
  success rB = false ->
  executeEffect runtime (Sequence [A; B; C]) input st
  = (inr (mkExecResult false (effects rA ++ effects rB) (errors rA ++ errors rB)), sB)
  /\ (errors rA ++ errors rB)%list <> [].
Proof.
  intros HA HsA HB HsB.
  pose proof (executeEffect_success World runtime B input sA rB sB HB) as HeB. rewrite HsB in HeB.
  assert (Hne : is_empty (errors rA ++ errors rB)%list = false).
  { destruct (errors rA); [|reflexivity]. simpl. symmetry. exact HeB. }
  split.
  - simpl. unfold run_body, bind, in_frame, push_effects, push_errors, modify, ret.
    simpl. rewrite HA. simpl. rewrite HsA. simpl. rewrite HB. simpl. rewrite HsB.
    simpl. rewrite Hne. reflexivity.
  - intros Heq. rewrite Heq in Hne. discriminate.
Qed.


(** *** A sample runtime: the world is the log of the writes; the path
    "locked" refuses writes; only the condition "open" holds. *)

Definition sample_runtime : Runtime (list (string * Value)) :=
  mkRuntime
    (fun _ w => (inr VUndefined, w))
    (fun path v w =>
       if String.eqb path "locked"
       then (inl (ThrownError "read-only"), w)
       else (inr tt, (w ++ [(path, v)])%list))
    (fun w => (inr VObject, w))
    (fun ref w => (inr (String.eqb ref "open"), w))
    None
    None.

Definition set_a : Effect (list (string * Value)) := SetValue "a" (Literal (VNumber 1)).
Definition set_locked : Effect (list (string * Value)) := SetValue "locked" (Literal (VNumber 2)).
Definition set_c : Effect (list (string * Value)) := SetValue "c" (Literal (VNumber 3)).

Definition guarded_action : ActionDef (list (string * Value)) :=
  mkActionDef
    (Some [PreRef "open" None; PreRef "closed" (Some "Order is closed"); PreNull])
    (Some set_a).


Lemma C2_sequence_stops_without_rollback_witness :
  executeEffect sample_runtime (Sequence [set_a; set_locked; set_c]) VNull (mkState [] 0)
  = (inr (mkExecResult false
            [mkEffectResult "SetValue" (Some "a") "Set a to 1"]
            [mkActionError "EFFECT_EXECUTION_ERROR" "read-only"]),
     mkState [("a", VNumber 1)] 3).
Proof.
  exact (proj1 (C2_sequence_stops_without_rollback _ sample_runtime set_a set_locked set_c
                  VNull (mkState [] 0) _ _ _ _ eq_refl eq_refl eq_refl eq_refl)).
Defined.


End Effects.

(* ===================================================================== *)
(** ** The Type Mapper with its cache, and the domain type of the         *)
(**    Schema Builder                                                     *)
(* ===================================================================== *)

Module Schema.

Import Sanitize.
Local Open Scope string_scope.

(** The runtime kind of a literal's value. *)
Inductive LiteralValue :=
| LString (s : string)
| LNumber (isInteger : bool)
| LBoolean (b : bool)
| LOther.

(** One entry of a native enum object; [key_numeric] is
    [!isNaN(Number(key))]. *)
Record NativeEnumEntry := mkNativeEntry {
  ne_key : string;
  ne_value : string + Z;
  ne_key_numeric : bool
}.

(** The [_def] of a schema node, by [typeName] ([ZodOther]: any other type
    name, or none).  Fields that the mapper probes before use are
    optional. *)
Inductive ZodDef (T : Type) :=
| ZodString
| ZodNumber (checks : option (list string))
| ZodBoolean
| ZodDate
| ZodEnum (values : option (list string))
| ZodNativeEnum (values : option (list NativeEnumEntry))
| ZodArray (type : option T)
| ZodObject (shape : option (list (string * T)))
| ZodUnion (options : option (list T))
| ZodDiscriminatedUnion (options : option (list T))
| ZodLiteral (value : LiteralValue)
| ZodOptional (innerType : option T)
| ZodNullable (innerType : option T)
| ZodDefault (innerType : option T)
| ZodAny
| ZodUnknown
| ZodRecord
| ZodOther (typeName : option string).

Arguments ZodString {T}.
Arguments ZodNumber {T} checks.
Arguments ZodBoolean {T}.
Arguments ZodDate {T}.
Arguments ZodEnum {T} values.
Arguments ZodNativeEnum {T} values.
Arguments ZodArray {T} type.
Arguments ZodObject {T} shape.
Arguments ZodUnion {T} options.
Arguments ZodDiscriminatedUnion {T} options.
Arguments ZodLiteral {T} value.
Arguments ZodOptional {T} innerType.
Arguments ZodNullable {T} innerType.
Arguments ZodDefault {T} innerType.
Arguments ZodAny {T}.
Arguments ZodUnknown {T}.
Arguments ZodRecord {T}.
Arguments ZodOther {T} typeName.

Local Unset Elimination Schemes.
Inductive ZodType :=
| mkZod (description : option string) (def : ZodDef ZodType).
Local Set Elimination Schemes.


Definition zod_def (schema : ZodType) : ZodDef ZodType :=
  match schema with mkZod _ def => def end.

(** [def.typeName ?? 'ZodUnknown'] *)
Definition getZodTypeName (schema : ZodType) : string :=
  match zod_def schema with
  | ZodString => "ZodString"
  | ZodNumber _ => "ZodNumber"
  | ZodBoolean => "ZodBoolean"
  | ZodDate => "ZodDate"
  | ZodEnum _ => "ZodEnum"
  | ZodNativeEnum _ => "ZodNativeEnum"
  | ZodArray _ => "ZodArray"
  | ZodObject _ => "ZodObject"
  | ZodUnion _ => "ZodUnion"
  | ZodDiscriminatedUnion _ => "ZodDiscriminatedUnion"
  | ZodLiteral _ => "ZodLiteral"
  | ZodOptional _ => "ZodOptional"
  | ZodNullable _ => "ZodNullable"
  | ZodDefault _ => "ZodDefault"
  | ZodAny => "ZodAny"
  | ZodUnknown => "ZodUnknown"
  | ZodRecord => "ZodRecord"
  | ZodOther typeName => default "ZodUnknown" typeName
  end.

Definition isZodOptional (schema : ZodType) : bool :=
  match zod_def schema with
  | ZodOptional _ | ZodNullable _ => true
  | _ => false
  end.

(** [unwrapZodType(schema).inner] *)
Fixpoint unwrap_inner (schema : ZodType) : ZodType :=
  match schema with
  | mkZod _ (ZodOptional (Some innerType)) => unwrap_inner innerType
  | mkZod _ (ZodNullable (Some innerType)) => unwrap_inner innerType
  | mkZod _ (ZodDefault (Some innerType)) => unwrap_inner innerType
  | _ => schema
  end.

(** [unwrapZodType(schema).optional] *)
Fixpoint unwrap_optional (schema : ZodType) : bool :=
  match schema with
  | mkZod _ (ZodOptional (Some innerType)) => true
  | mkZod _ (ZodNullable (Some innerType)) => true
  | mkZod _ (ZodDefault (Some innerType)) => unwrap_optional innerType
  | _ => false
  end.

Definition unwrapZodType (schema : ZodType) : ZodType * bool :=
  (unwrap_inner schema, unwrap_optional schema).

(** Generated types.  A named type (enum, object, input object) is an
    object of the heap, referred to by its address: two references are the
    same instance exactly when the addresses are equal. *)
Inductive GraphQLType :=
| GraphQLString
| GraphQLInt
| GraphQLFloat
| GraphQLBoolean
| GraphQLJSON
| GraphQLDateTime
| GraphQLNamed (instance : nat)
| GraphQLList (ofType : GraphQLType)
| GraphQLNonNull (ofType : GraphQLType).

Record FieldConfig := mkField {
  field_type : GraphQLType;
  field_description : option string
}.

(** The part of a domain descriptor the schema builder reads for the
    domain type: [domain.paths?.derived] lists each derived path with its
    [def.semantic?.description]. *)
Record ManifestoDomain := mkDomain {
  domain_id : string;
  domain_name : option string;
  dataSchema : option ZodType;
  stateSchema : option ZodType;
  derived : option (list (string * option string))
}.

(** The [fields] of an object type: the thunk given to the constructor by
    the mapper (closed over the shape and the name) or by the schema
    builder (closed over the domain and the domain name), or the field map
    once [getFields()] has evaluated it. *)
Inductive Fields :=
| FieldsThunk (shape : list (string * ZodType)) (name : string)
| DomainFieldsThunk (domain : ManifestoDomain) (domainName : string)
| FieldsResolved (fields : list (string * FieldConfig)).

Inductive EnumValue :=
| EnumString (s : string)
| EnumNumber (z : Z).

Inductive TypeInstance :=
| EnumType (name : string) (values : list (string * EnumValue))
| ObjectType (name : string) (fields : Fields)
| InputObjectType (name : string) (fields : Fields).

Record MapperState := mkMapper {
  typeCache : gmap string nat;
  heap : list TypeInstance
}.

Definition Mapper (A : Type) : Type := MapperState -> A * MapperState.

Definition ret {A} (a : A) : Mapper A := fun st => (a, st).

Definition bind {A B} (m : Mapper A) (k : A -> Mapper B) : Mapper B :=
  fun st => let '(a, st') := m st in k a st'.

Declare Scope mapper_scope.
Delimit Scope mapper_scope with mapper.
Notation "x <- c1 ;; c2" := (bind c1 (fun x => c2))
  (at level 100, c1 at next level, right associativity) : mapper_scope.
Notation "c1 ;;; c2" := (bind c1 (fun _ => c2))
  (at level 100, right associativity) : mapper_scope.
Local Open Scope mapper_scope.

(** [new GraphQL...Type({...})]: a fresh object. *)
Definition alloc (t : TypeInstance) : Mapper nat :=
  fun st => (length (heap st), mkMapper (typeCache st) (heap st ++ [t])).

Definition cache_get (cacheKey : string) : Mapper (option nat) :=
  fun st => (typeCache st !! cacheKey, st).

Definition cache_set (cacheKey : string) (a : nat) : Mapper unit :=
  fun st => (tt, mkMapper (<[cacheKey := a]> (typeCache st)) (heap st)).


(** Assignment [o[key] = v] on an object literal: an existing key keeps its
    place. *)
Fixpoint obj_set {V} (key : string) (v : V) (o : list (string * V)) : list (string * V) :=
  match o with
  | [] => [(key, v)]
  | (k, x) :: rest =>
      if String.eqb k key then (k, v) :: rest else (k, x) :: obj_set key v rest
  end.

Fixpoint obj_get {V} (key : string) (o : list (string * V)) : option V :=
  match o with
  | [] => None
  | (k, x) :: rest => if String.eqb k key then Some x else obj_get key rest
  end.

(** [Object.fromEntries(entries)] *)
Definition fromEntries {V} (entries : list (string * V)) : list (string * V) :=
  fold_left (fun o e => obj_set e.1 e.2 o) entries [].

Definition isIntegerSchema (checks : option (list string)) : bool :=
  match checks with
  | Some l => existsb (String.eqb "int") l
  | None => false
  end.

Definition mapZodLiteralToGraphQL (value : LiteralValue) : GraphQLType :=
  match value with
  | LString _ => GraphQLString
  | LNumber isInteger => if isInteger then GraphQLInt else GraphQLFloat
  | LBoolean _ => GraphQLBoolean
  | LOther => GraphQLJSON
  end.

Definition mapZodEnumToGraphQL (values : option (list string)) (name : string)
  : Mapper GraphQLType :=
  let cacheKey := "enum:" ++ name in
  cached <- cache_get cacheKey ;;
  match cached with
  | Some a => ret (GraphQLNamed a)
  | None =>
      let values := default [] values in
      enumType <- alloc (EnumType (sanitizeTypeName name)
                           (fromEntries
                              (map (fun val => (sanitizeEnumValue val, EnumString val))
                                 values))) ;;
      cache_set cacheKey enumType ;;;
      ret (GraphQLNamed enumType)
  end.

Definition native_entry_kept (e : NativeEnumEntry) : bool :=
  match ne_value e with
  | inl _ => true
  | inr _ => negb (ne_key_numeric e)
  end.

Definition mapZodNativeEnumToGraphQL (values : option (list NativeEnumEntry)) (name : string)
  : Mapper GraphQLType :=
  let cacheKey := "nativeEnum:" ++ name in
  cached <- cache_get cacheKey ;;
  match cached with
  | Some a => ret (GraphQLNamed a)
  | None =>
      let entries := List.filter native_entry_kept (default [] values) in
      enumType <- alloc (EnumType (sanitizeTypeName name)
                           (fromEntries
                              (map (fun e => (sanitizeEnumValue (ne_key e),
                                              match ne_value e with
                                              | inl s => EnumString s
                                              | inr z => EnumNumber z
                                              end))
                                 entries))) ;;
      cache_set cacheKey enumType ;;;
      ret (GraphQLNamed enumType)
  end.

Definition empty_fields : Fields :=
  FieldsResolved [("_empty", mkField GraphQLBoolean None)].

Definition mapZodObjectToGraphQLOutput (shape : option (list (string * ZodType)))
    (name : string) : Mapper GraphQLType :=
  let cacheKey := "object:" ++ name in
  cached <- cache_get cacheKey ;;
  match cached with
  | Some a => ret (GraphQLNamed a)
  | None =>
      match shape with
      | None =>
          placeholder <- alloc (ObjectType (sanitizeTypeName name) empty_fields) ;;
          ret (GraphQLNamed placeholder)
      | Some shapeFunc =>
          objectType <- alloc (ObjectType (sanitizeTypeName name)
                                 (FieldsThunk shapeFunc name)) ;;
          cache_set cacheKey objectType ;;;
          ret (GraphQLNamed objectType)
      end
  end.

Definition mapZodObjectToGraphQLInput (shape : option (list (string * ZodType)))
    (name : string) : Mapper GraphQLType :=
  let inputName := name ++ "Input" in
  let cacheKey := "inputObject:" ++ inputName in
  cached <- cache_get cacheKey ;;
  match cached with
  | Some a => ret (GraphQLNamed a)
  | None =>
      match shape with
      | None =>
          placeholder <- alloc (InputObjectType (sanitizeTypeName inputName) empty_fields) ;;
          ret (GraphQLNamed placeholder)
      | Some shapeFunc =>
          inputType <- alloc (InputObjectType (sanitizeTypeName inputName)
                                (FieldsThunk shapeFunc inputName)) ;;
          cache_set cacheKey inputType ;;;
          ret (GraphQLNamed inputType)
      end
  end.

(** [optional ? baseType : new GraphQLNonNull(baseType)] *)
Definition wrap_non_null (optional : bool) (baseType : GraphQLType) : GraphQLType :=
  if optional then baseType else GraphQLNonNull baseType.

(** The names [uniqueTypes] of [mapZodUnionToGraphQL] is computed from. *)
Definition union_type_names (options : list ZodType) : list string :=
  map (fun opt => getZodTypeName (unwrap_inner opt)) options.

Fixpoint mapZodToGraphQLOutputBase (schema : ZodType) (name : string) {struct schema}
  : Mapper GraphQLType :=
  match schema with
  | mkZod _ ZodString => ret GraphQLString
  | mkZod _ (ZodNumber checks) =>
      ret (if isIntegerSchema checks then GraphQLInt else GraphQLFloat)
  | mkZod _ ZodBoolean => ret GraphQLBoolean
  | mkZod _ ZodDate => ret GraphQLDateTime
  | mkZod _ (ZodEnum values) => mapZodEnumToGraphQL values name
  | mkZod _ (ZodNativeEnum values) => mapZodNativeEnumToGraphQL values name
  | mkZod _ (ZodArray None) => ret (GraphQLList GraphQLJSON)
  | mkZod _ (ZodArray (Some elementType)) =>
      (* mapZodToGraphQLOutput(elementType, `${name}Item`, config) *)
      baseType <- mapZodToGraphQLOutputBase (unwrap_inner elementType) (name ++ "Item") ;;
      ret (GraphQLList (wrap_non_null (unwrap_optional elementType) baseType))
  | mkZod _ (ZodObject shape) => mapZodObjectToGraphQLOutput shape name
  | mkZod _ (ZodUnion options) | mkZod _ (ZodDiscriminatedUnion options) =>
      (* options = def.options ?? [] *)
      match options with
      | Some (first :: others) =>
          if (length (remove_dups (union_type_names (first :: others))) =? 1)%nat
          then mapZodToGraphQLOutputBase (unwrap_inner first) name
          else ret GraphQLJSON
      | Some [] | None => ret GraphQLJSON
      end
  | mkZod _ (ZodLiteral value) => ret (mapZodLiteralToGraphQL value)
  | _ => ret GraphQLJSON
  end.

Definition mapZodToGraphQLOutput (schema : ZodType) (name : string) : Mapper GraphQLType :=
  let '(inner, optional) := unwrapZodType schema in
  baseType <- mapZodToGraphQLOutputBase inner name ;;
  ret (wrap_non_null optional baseType).

Fixpoint mapZodToGraphQLInputBase (schema : ZodType) (name : string) {struct schema}
  : Mapper GraphQLType :=
  match schema with
  | mkZod _ ZodString => ret GraphQLString
  | mkZod _ (ZodNumber checks) =>
      ret (if isIntegerSchema checks then GraphQLInt else GraphQLFloat)
  | mkZod _ ZodBoolean => ret GraphQLBoolean
  | mkZod _ ZodDate => ret GraphQLDateTime
  | mkZod _ (ZodEnum values) => mapZodEnumToGraphQL values name
  | mkZod _ (ZodNativeEnum values) => mapZodNativeEnumToGraphQL values name
  | mkZod _ (ZodArray None) => ret (GraphQLList GraphQLJSON)
  | mkZod _ (ZodArray (Some elementType)) =>
      (* mapZodToGraphQLInput(elementType, `${name}Item`, config) *)
      baseType <- mapZodToGraphQLInputBase (unwrap_inner elementType) (name ++ "Item") ;;
      ret (GraphQLList (wrap_non_null (unwrap_optional elementType) baseType))
  | mkZod _ (ZodObject shape) => mapZodObjectToGraphQLInput shape name
  | mkZod _ (ZodLiteral value) => ret (mapZodLiteralToGraphQL value)
  | _ => ret GraphQLJSON
  end.

Definition mapZodToGraphQLInput (schema : ZodType) (name : string) : Mapper GraphQLType :=
  let '(inner, optional) := unwrapZodType schema in
  baseType <- mapZodToGraphQLInputBase inner name ;;
  ret (wrap_non_null optional baseType).




(** *** The domain type (Schema Builder) *)

Fixpoint split_char (sep : ascii) (s : string) : list string :=
  match s with
  | EmptyString => [EmptyString]
  | String c r =>
      if Ascii.eqb c sep then EmptyString :: split_char sep r
      else match split_char sep r with
           | h :: t => String c h :: t
           | [] => [String c EmptyString]
           end
  end.

Definition path_prefixes : list string := ["data"; "state"; "derived"; "async"].

Definition pathToFieldName (path : string) : string :=
  let parts := split_char "."%char path in
  let parts :=
    match parts with
    | first :: (_ :: _) as rest =>
        if existsb (String.eqb first) path_prefixes then rest else parts
    | _ => parts
    end in
  match parts with
  | [] => EmptyString
  | first :: rest => join_empty (first :: map capitalize rest)
  end.















(** The Array case of [mapZodToGraphQLOutputBase], as the source writes
    it: the element is mapped by [mapZodToGraphQLOutput] under the name
    [`${name}Item`]. *)
Lemma mapZodToGraphQLOutputBase_array description elementType name st :
  mapZodToGraphQLOutputBase (mkZod description (ZodArray (Some elementType))) name st
  = (itemType <- mapZodToGraphQLOutput elementType (name ++ "Item") ;;
     ret (GraphQLList itemType)) st.
Proof.
  simpl. unfold mapZodToGraphQLOutput, unwrapZodType, bind.
  destruct (mapZodToGraphQLOutputBase (unwrap_inner elementType) (name ++ "Item") st).
  reflexivity.
Qed.

Lemma mapZodToGraphQLInputBase_array description elementType name st :
  mapZodToGraphQLInputBase (mkZod description (ZodArray (Some elementType))) name st
  = (itemType <- mapZodToGraphQLInput elementType (name ++ "Item") ;;
     ret (GraphQLList itemType)) st.
Proof.
  simpl. unfold mapZodToGraphQLInput, unwrapZodType, bind.
  destruct (mapZodToGraphQLInputBase (unwrap_inner elementType) (name ++ "Item") st).
  reflexivity.
Qed.

(** The depth of a node along the paths the mapper recurses on. *)
Fixpoint rank (schema : ZodType) : nat :=
  match schema with
  | mkZod _ (ZodOptional (Some innerType)) => S (rank innerType)
  | mkZod _ (ZodNullable (Some innerType)) => S (rank innerType)
  | mkZod _ (ZodDefault (Some innerType)) => S (rank innerType)
  | mkZod _ (ZodArray (Some elementType)) => S (rank elementType)
  | mkZod _ (ZodUnion (Some (first :: _))) => S (rank first)
  | mkZod _ (ZodDiscriminatedUnion (Some (first :: _))) => S (rank first)
  | _ => 0
  end.






(** *** Object literals. *)

Lemma obj_get_set_eq {V} key (v : V) o : obj_get key (obj_set key v o) = Some v.
Proof.
  induction o as [|[k x] rest IH]; simpl.
  - rewrite String.eqb_refl. reflexivity.
  - destruct (String.eqb k key) eqn:E; simpl; rewrite E; [reflexivity | exact IH].
Qed.

Lemma obj_get_set_ne {V} key key' (v : V) o :
  key <> key' -> obj_get key' (obj_set key v o) = obj_get key' o.
Proof.
  intros Hne. induction o as [|[k x] rest IH]; simpl.
  - destruct (String.eqb key key') eqn:E; [|reflexivity].
    apply String.eqb_eq in E. contradiction.
  - destruct (String.eqb k key) eqn:E; simpl.
    + apply String.eqb_eq in E. subst k.
      destruct (String.eqb key key') eqn:E'; [|reflexivity].
      apply String.eqb_eq in E'. contradiction.
    + rewrite IH. reflexivity.
Qed.

Lemma obj_set_keys {V} key (v : V) o :
  map fst (obj_set key v o) = map fst o \/
  ((key ∉ map fst o) /\ map fst (obj_set key v o) = (map fst o ++ [key])%list).
Proof.
  induction o as [|[k x] rest IH]; simpl.
  - right. split; [apply not_elem_of_nil | reflexivity].
  - destruct (String.eqb k key) eqn:E; simpl; [left; reflexivity|].
    apply String.eqb_neq in E.
    destruct IH as [->|[Hnot ->]]; [left; reflexivity|].
    right. split; [|reflexivity].
    apply not_elem_of_cons. split; [congruence | exact Hnot].
Qed.

Lemma obj_set_NoDup {V} key (v : V) o :
  NoDup (map fst o) -> NoDup (map fst (obj_set key v o)).
Proof.
  intros Hnd. destruct (obj_set_keys key v o) as [->|[Hnot ->]]; [exact Hnd|].
  apply NoDup_app. split; [exact Hnd|]. split.
  - intros x Hx Hx'. apply list_elem_of_singleton in Hx'. subst x. contradiction.
  - apply NoDup_singleton.
Qed.

Lemma obj_get_None {V} key (o : list (string * V)) :
  obj_get key o = None <-> key ∉ map fst o.
Proof.
  induction o as [|[k x] rest IH]; simpl.
  - split; [intros _; apply not_elem_of_nil | reflexivity].
  - destruct (String.eqb k key) eqn:E.
    + apply String.eqb_eq in E. subst k. split; [discriminate|].
      intros H. exfalso. apply H. apply list_elem_of_here.
    + apply String.eqb_neq in E. rewrite IH, not_elem_of_cons. split.
      * intros H. split; [congruence | exact H].
      * intros [_ H]. exact H.
Qed.






(** *** What every mapper operation preserves. *)












Lemma rank_unwrap_inner n : forall schema,
  rank schema <= n -> rank (unwrap_inner schema) <= rank schema.
Proof.
  induction n as [|n IH]; intros [d def] H;
    destruct def as [| | | | | |ty|sh|op|op| |inner|inner|inner| | | |];
    try (simpl; lia);
    destruct inner as [i|]; simpl in *; try lia;
    specialize (IH i ltac:(lia)); lia.
Qed.
















(** *** Cache hits. *)





(** *** Sample nodes and domains. *)









End Schema.

(* ===================================================================== *)
(** ** Fixed points of the sanitizers (Type Mapper, "Utility Functions") *)
(* ===================================================================== *)

Module Names.

Import Sanitize.
Local Open Scope string_scope.


Definition starts_with (p : ascii -> bool) (s : string) : bool :=
  match s with
  | EmptyString => false
  | String c _ => p c
  end.

Definition enum_char (c : ascii) : ascii :=
  toUpperCase_char (if is_word c then c else "_"%char).

Lemma enum_char_idempotent c : enum_char (enum_char c) = enum_char c.
Proof. by_char c. Qed.


Lemma upper_not_lower c : is_lower (toUpperCase_char c) = false.
Proof. by_char c. Qed.

Lemma upper_fixed c : is_lower c = false -> toUpperCase_char c = c.
Proof. by_char c. Qed.

Lemma lower_not_upper c : is_upper (toLowerCase_char c) = false.
Proof. by_char c. Qed.

Lemma lower_fixed c : is_upper c = false -> toLowerCase_char c = c.
Proof. by_char c. Qed.

Lemma alnum_not_underscore c : is_alnum c = true -> is_underscore c = false.
Proof. by_char c. Qed.

Lemma digit_not_underscore c : is_digit c = true -> is_underscore c = false.
Proof. by_char c. Qed.

Lemma digit_not_lower c : is_digit c = true -> is_lower c = false.
Proof. by_char c. Qed.

Lemma map_string_map_string f g s :
  map_string f (map_string g s) = map_string (fun c => f (g c)) s.
Proof. induction s as [|c r IH]; simpl; [reflexivity | rewrite IH; reflexivity]. Qed.

Lemma map_string_ext f g s :
  (forall c, f c = g c) -> map_string f s = map_string g s.
Proof.
  intros H. induction s as [|c r IH]; simpl; [reflexivity | rewrite H, IH; reflexivity].
Qed.

Lemma sanitizeEnumValue_map value : sanitizeEnumValue value = map_string enum_char value.
Proof.
  unfold sanitizeEnumValue, replace_non_word. rewrite map_string_map_string. reflexivity.
Qed.

Lemma map_string_length f s : String.length (map_string f s) = String.length s.
Proof. induction s as [|c r IH]; simpl; [reflexivity | rewrite IH; reflexivity]. Qed.

Lemma replace_non_word_fixed s : all_chars is_word s = true -> replace_non_word s = s.
Proof.
  unfold replace_non_word. induction s as [|c r IH]; simpl; [reflexivity|].
  intros H. apply andb_true_iff in H as [Hc Hr]. rewrite Hc, (IH Hr). reflexivity.
Qed.

Lemma replace_non_word_fixed_inv s : replace_non_word s = s -> all_chars is_word s = true.
Proof. intros H. rewrite <- H. apply replace_non_word_all_word. Qed.

Lemma all_alnum_word s : all_chars is_alnum s = true -> all_chars is_word s = true.
Proof.
  induction s as [|c r IH]; simpl; [trivial|].
  intros H. apply andb_true_iff in H as [Hc Hr].
  rewrite (alnum_is_word c Hc), (IH Hr). reflexivity.
Qed.

Lemma append_empty_r s : s ++ "" = s.
Proof.
  induction s as [|c r IH]; [reflexivity|].
  change (String c (r ++ "") = String c r). rewrite IH. reflexivity.
Qed.

(** A string without underscores splits into itself. *)
Lemma split_underscore_alnum_one s :
  all_chars is_alnum s = true -> split_underscore s = [s].
Proof.
  induction s as [|c r IH]; simpl; [reflexivity|].
  intros H. apply andb_true_iff in H as [Hc Hr].
  rewrite (alnum_not_underscore c Hc), (IH Hr). reflexivity.
Qed.

Lemma capitalize_fixed s : starts_with is_lower s = false -> capitalize s = s.
Proof. destruct s as [|c r]; simpl; [reflexivity|]. intros H. rewrite upper_fixed; auto. Qed.

Lemma uncapitalize_fixed s : starts_with is_upper s = false -> uncapitalize s = s.
Proof. destruct s as [|c r]; simpl; [reflexivity|]. intros H. rewrite lower_fixed; auto. Qed.

Lemma join_capitalized_no_lower parts :
  starts_with is_lower (join_empty (map capitalize parts)) = false.
Proof.
  induction parts as [|p rest IH]; simpl; [reflexivity|].
  destruct p as [|c r]; simpl; [exact IH | apply upper_not_lower].
Qed.

Lemma sanitizeTypeName_no_lower name : starts_with is_lower (sanitizeTypeName name) = false.
Proof. apply join_capitalized_no_lower. Qed.

Lemma sanitizeFieldName_no_upper name : starts_with is_upper (sanitizeFieldName name) = false.
Proof.
  unfold sanitizeFieldName.
  destruct (prefix_if_digit (replace_non_word name)) as [|c r]; simpl;
    [reflexivity | apply lower_not_upper].
Qed.

Lemma prefix_if_digit_fixed s : starts_with_digit s = false -> prefix_if_digit s = s.
Proof. unfold prefix_if_digit. intros ->. reflexivity. Qed.

(** The type name of a string of letters and digits that does not start
    with a lower-case letter is the string itself. *)
Lemma sanitizeTypeName_fixed s :
  all_chars is_alnum s = true -> starts_with is_lower s = false -> sanitizeTypeName s = s.
Proof.
  intros Ha Hl. unfold sanitizeTypeName.
  rewrite (replace_non_word_fixed s (all_alnum_word s Ha)).
  unfold prefix_if_digit. destruct (starts_with_digit s); simpl.
  - rewrite (split_underscore_alnum_one s Ha). simpl.
    rewrite append_empty_r, (capitalize_fixed s Hl). reflexivity.
  - rewrite (split_underscore_alnum_one s Ha). simpl.
    rewrite append_empty_r, (capitalize_fixed s Hl). reflexivity.
Qed.

Lemma sanitizeFieldName_fixed s :
  all_chars is_word s = true -> starts_with_digit s = false ->
  starts_with is_upper s = false -> sanitizeFieldName s = s.
Proof.
  intros Hw Hd Hu. unfold sanitizeFieldName.
  rewrite (replace_non_word_fixed s Hw), (prefix_if_digit_fixed s Hd).
  apply uncapitalize_fixed, Hu.
Qed.

(** X1: the three sanitizers are idempotent: a sanitized name is left as it is
    when it is sanitized again. *)
Theorem sanitizers_idempotent (name : string) :
  sanitizeTypeName (sanitizeTypeName name) = sanitizeTypeName name /\
  sanitizeFieldName (sanitizeFieldName name) = sanitizeFieldName name /\
  sanitizeEnumValue (sanitizeEnumValue name) = sanitizeEnumValue name.
Proof.
  split; [|split].
  - apply sanitizeTypeName_fixed;
      [apply sanitizeTypeName_alnum | apply sanitizeTypeName_no_lower].
  - apply sanitizeFieldName_fixed;
      [apply sanitizeFieldName_word | apply sanitizeFieldName_no_leading_digit
      | apply sanitizeFieldName_no_upper].
  - rewrite !sanitizeEnumValue_map, map_string_map_string.
    apply map_string_ext, enum_char_idempotent.
Qed.

(** X2: the names a sanitizer leaves unchanged: a type name exactly when it
    consists of letters and digits and does not start with a lower-case
    letter; a field name exactly when it consists of letters, digits and
    underscores and starts neither with a digit nor with an upper-case
    letter. *)
Theorem sanitized_names_fixed_points (name : string) :
  (sanitizeTypeName name = name <->
   all_chars is_alnum name = true /\ starts_with is_lower name = false) /\
  (sanitizeFieldName name = name <->
   all_chars is_word name = true /\ starts_with_digit name = false /\
   starts_with is_upper name = false).
Proof.
  split; split.
  - intros H. rewrite <- H.
    split; [apply sanitizeTypeName_alnum | apply sanitizeTypeName_no_lower].
  - intros [Ha Hl]. apply sanitizeTypeName_fixed; assumption.
  - intros H. rewrite <- H.
    split; [apply sanitizeFieldName_word|].
    split; [apply sanitizeFieldName_no_leading_digit | apply sanitizeFieldName_no_upper].
  - intros (Hw & Hd & Hu). apply sanitizeFieldName_fixed; assumption.
Qed.

End Names.


(* ===================================================================== *)
(** ** The effect interpreter as a whole, the action resolver and the  *)
(**    set-field resolver (Mutation Resolvers)                         *)
(* ===================================================================== *)

Module Mutations.

Import Effects.
Local Open Scope string_scope.
Local Open Scope comp_scope.

(** Structural induction on effect trees. *)
Lemma Effect_tree_ind (World : Type) (P : Effect World -> Prop) :
  (forall path value, P (SetValue path value)) ->
  (forall children, Forall P children -> P (Sequence children)) ->
  (forall children, Forall P children -> P (Parallel children)) ->
  (forall condition then_ else_,
      from_option P True then_ ->
      from_option P True else_ ->
      P (Conditional condition then_ else_)) ->
  (forall handler description, P (Custom handler description)) ->
  (forall tag, P (UnknownEffect tag)) ->
  forall eff, P eff.
Proof.
  intros HSet HSeq HPar HCond HCustom HUnknown.
  fix IH 1. intros [path value|children|children|condition then_ else_|handler description|tag].
  - apply HSet.
  - apply HSeq. induction children as [|c rest IHl]; constructor; [apply IH | exact IHl].
  - apply HPar. induction children as [|c rest IHl]; constructor; [apply IH | exact IHl].
  - apply HCond.
    + destruct then_ as [b|]; [apply IH | exact I].
    + destruct else_ as [b|]; [apply IH | exact I].
  - apply HCustom.
  - apply HUnknown.
Qed.

Section Trees.

Context {World : Type}.
Variable runtime : Runtime World.
Variable input : Value.

(** The loop of the Sequence case, and the two loops of the Parallel case,
    as [executeEffect] runs them. *)
Fixpoint sequence_loop (l : list (Effect World)) : Comp (Frame World) unit :=
  match l with
  | [] => ret tt
  | childEffect :: rest =>
      childResult <- in_frame _ (executeEffect runtime childEffect input) ;;
      push_effects _ (effects childResult) ;;;
      push_errors _ (errors childResult) ;;;
      if success childResult then sequence_loop rest else ret tt
  end.

Fixpoint parallel_all (l : list (Effect World)) : Comp (Frame World) (list ExecResult) :=
  match l with
  | [] => ret []
  | e :: rest =>
      r <- in_frame _ (executeEffect runtime e input) ;;
      rs <- parallel_all rest ;;
      ret (r :: rs)
  end.

Fixpoint collect_loop (l : list ExecResult) : Comp (Frame World) unit :=
  match l with
  | [] => ret tt
  | result :: rest =>
      push_effects _ (effects result) ;;;
      push_errors _ (errors result) ;;;
      collect_loop rest
  end.

Lemma executeEffect_Sequence children st :
  executeEffect runtime (Sequence children) input st
  = run_body _ (sequence_loop children) st.
Proof. reflexivity. Qed.

Lemma executeEffect_Parallel children st :
  executeEffect runtime (Parallel children) input st
  = run_body _ (results <- parallel_all children ;; collect_loop results) st.
Proof. reflexivity. Qed.

(** The result and the state a call of the interpreter returns. *)
Definition exec (eff : Effect World) (st : State World) : ExecResult * State World :=
  match executeEffect runtime eff input st with
  | (inr r, st') => (r, st')
  | (inl _, st') => (mkExecResult false [] [], st')
  end.

Lemma executeEffect_exec eff st :
  executeEffect runtime eff input st = (inr (exec eff st).1, (exec eff st).2).
Proof.
  unfold exec.
  destruct (executeEffect_returns World runtime eff input st) as (r & st' & ->).
  reflexivity.
Qed.

Lemma exec_success eff st : success (exec eff st).1 = is_empty (errors (exec eff st).1).
Proof. eapply executeEffect_success, executeEffect_exec. Qed.

(** The children a Sequence runs, with their results: up to and including
    the first unsuccessful one. *)
Fixpoint run_sequence (l : list (Effect World)) (st : State World)
  : list ExecResult * State World :=
  match l with
  | [] => ([], st)
  | c :: rest =>
      let r := exec c st in
      if success r.1
      then let rs := run_sequence rest r.2 in (r.1 :: rs.1, rs.2)
      else ([r.1], r.2)
  end.

(** The children a Parallel runs: all of them. *)
Fixpoint run_parallel (l : list (Effect World)) (st : State World)
  : list ExecResult * State World :=
  match l with
  | [] => ([], st)
  | c :: rest =>
      let r := exec c st in
      let rs := run_parallel rest r.2 in (r.1 :: rs.1, rs.2)
  end.

Definition all_effects (rs : list ExecResult) : list EffectResultResponse :=
  concat (map effects rs).

Definition all_errors (rs : list ExecResult) : list ActionErrorResponse :=
  concat (map errors rs).

Lemma sequence_loop_spec l : forall fr,
  sequence_loop l fr
  = (inr tt,
     mkFrame _ (fr_effects _ fr ++ all_effects (run_sequence l (fr_state _ fr)).1)
               (fr_errors _ fr ++ all_errors (run_sequence l (fr_state _ fr)).1)
               (run_sequence l (fr_state _ fr)).2).
Proof.
  induction l as [|c rest IH]; intros [effs errs st]; simpl.
  - unfold ret, all_effects, all_errors. simpl. rewrite !app_nil_r. reflexivity.
  - unfold bind, in_frame. simpl. rewrite executeEffect_exec.
    unfold push_effects, push_errors, modify. simpl.
    destruct (success (exec c st).1).
    + rewrite IH. simpl. unfold all_effects, all_errors. simpl.
      rewrite !app_assoc. reflexivity.
    + unfold ret, all_effects, all_errors. simpl. rewrite !app_nil_r. reflexivity.
Qed.

Lemma parallel_all_spec l : forall fr,
  parallel_all l fr
  = (inr (run_parallel l (fr_state _ fr)).1,
     mkFrame _ (fr_effects _ fr) (fr_errors _ fr) (run_parallel l (fr_state _ fr)).2).
Proof.
  induction l as [|c rest IH]; intros [effs errs st]; simpl; [reflexivity|].
  unfold bind, in_frame. simpl. rewrite executeEffect_exec. rewrite IH. reflexivity.
Qed.

Lemma collect_loop_spec rs : forall fr,
  collect_loop rs fr
  = (inr tt,
     mkFrame _ (fr_effects _ fr ++ all_effects rs) (fr_errors _ fr ++ all_errors rs)
       (fr_state _ fr)).
Proof.
  induction rs as [|r rest IH]; intros [effs errs st]; simpl.
  - unfold ret, all_effects, all_errors. simpl. rewrite !app_nil_r. reflexivity.
  - unfold bind, push_effects, push_errors, modify. simpl. rewrite IH. simpl.
    unfold all_effects, all_errors. simpl. rewrite !app_assoc. reflexivity.
Qed.

Lemma exec_Sequence children st :
  exec (Sequence children) st
  = (mkExecResult (is_empty (all_errors (run_sequence children (count_call st)).1))
       (all_effects (run_sequence children (count_call st)).1)
       (all_errors (run_sequence children (count_call st)).1),
     (run_sequence children (count_call st)).2).
Proof.
  unfold exec. rewrite executeEffect_Sequence. unfold run_body.
  rewrite sequence_loop_spec. reflexivity.
Qed.

Lemma exec_Parallel children st :
  exec (Parallel children) st
  = (mkExecResult (is_empty (all_errors (run_parallel children (count_call st)).1))
       (all_effects (run_parallel children (count_call st)).1)
       (all_errors (run_parallel children (count_call st)).1),
     (run_parallel children (count_call st)).2).
Proof.
  unfold exec. rewrite executeEffect_Parallel. unfold run_body, bind.
  rewrite parallel_all_spec. simpl. rewrite collect_loop_spec. reflexivity.
Qed.

Lemma exec_Conditional condition then_ else_ st :
  exec (Conditional condition then_ else_) st
  = match rt_evaluateCondition runtime condition (world st) with
    | (inl e, w) =>
        (mkExecResult false [] [execution_error e], mkState w (S (interp_calls st)))
    | (inr c, w) =>
        match (if c : bool then then_ else else_) with
        | Some branch =>
            let r := exec branch (mkState w (S (interp_calls st))) in
            (mkExecResult (is_empty (errors r.1)) (effects r.1) (errors r.1), r.2)
        | None => (mkExecResult true [] [], mkState w (S (interp_calls st)))
        end
    end.
Proof.
  unfold exec at 1. simpl. unfold run_body, bind, in_frame, call_method. simpl.
  destruct (rt_evaluateCondition runtime condition (world st)) as [[e|c] w]; simpl;
    [reflexivity|].
  destruct (if c then then_ else else_) as [branch|]; simpl; [|reflexivity].
  rewrite executeEffect_exec. reflexivity.
Qed.

(** The leaves of an effect tree. *)
Definition is_leaf (eff : Effect World) : bool :=
  match eff with
  | SetValue _ _ | Custom _ _ | UnknownEffect _ => true
  | _ => false
  end.

(** A leaf makes at most one call that can fail, and reports either what
    it did or the one error of that call. *)
Lemma exec_leaf eff st :
  is_leaf eff = true ->
  exists w,
    (exec eff st).2 = mkState w (S (interp_calls st)) /\
    ((exists e, (exec eff st).1 = mkExecResult false [] [execution_error e]) \/
     (exists effs, (exec eff st).1 = mkExecResult true effs [] /\ length effs <= 1)).
Proof.
  destruct eff as [path value|l|l|c t e|handler description|tag]; try discriminate; intros _;
    unfold exec; simpl; unfold run_body, bind, in_frame, call_method, compute_value.
  - destruct value as [v|f]; simpl.
    + destruct (rt_set runtime path v (world st)) as [[e|[]] w]; simpl; eauto 8.
    + destruct (f input) as [e|v]; simpl; [destruct st; eauto 8|].
      destruct (rt_set runtime path v (world st)) as [[e|[]] w]; simpl; eauto 8.
  - destruct handler as [h|]; simpl; [|destruct st; eauto 8].
    destruct (h input (world st)) as [[e|[]] w]; simpl; eauto 8.
  - destruct (rt_runEffect runtime) as [runEffect|]; simpl; [|destruct st; eauto 8].
    destruct (runEffect (UnknownEffect tag) input (world st)) as [[e|[]] w]; simpl; eauto 8.
Qed.

Definition execution_errors (l : list ActionErrorResponse) : Prop :=
  Forall (fun e => code e = "EFFECT_EXECUTION_ERROR") l.

Lemma all_errors_Forall (Q : ActionErrorResponse -> Prop) rs :
  Forall (fun r => Forall Q (errors r)) rs -> Forall Q (all_errors rs).
Proof.
  unfold all_errors. induction 1 as [|r rest Hr Hrest IH]; simpl; [constructor|].
  apply Forall_app. split; assumption.
Qed.

Lemma run_sequence_Forall (Q : ExecResult -> Prop) l :
  Forall (fun c => forall st, Q (exec c st).1) l ->
  forall st, Forall Q (run_sequence l st).1.
Proof.
  induction 1 as [|c rest Hc Hrest IH]; intros st; simpl; [constructor|].
  destruct (success (exec c st).1); simpl.
  - constructor; [apply Hc | apply IH].
  - constructor; [apply Hc | constructor].
Qed.

Lemma run_parallel_Forall (Q : ExecResult -> Prop) l :
  Forall (fun c => forall st, Q (exec c st).1) l ->
  forall st, Forall Q (run_parallel l st).1.
Proof.
  induction 1 as [|c rest Hc Hrest IH]; intros st; simpl; [constructor|].
  constructor; [apply Hc | apply IH].
Qed.

Lemma exec_error_codes eff : forall st, execution_errors (errors (exec eff st).1).
Proof.
  induction eff as [path value|l IH|l IH|c t e IHt IHe|handler description|tag]
    using Effect_tree_ind; intros st.
  - destruct (exec_leaf (SetValue path value) st eq_refl) as (w & _ & [[e ->]|(effs & -> & _)]);
      simpl; repeat constructor.
  - rewrite exec_Sequence. simpl.
    apply all_errors_Forall, (run_sequence_Forall (fun r => execution_errors (errors r))), IH.
  - rewrite exec_Parallel. simpl.
    apply all_errors_Forall, (run_parallel_Forall (fun r => execution_errors (errors r))), IH.
  - rewrite exec_Conditional.
    destruct (rt_evaluateCondition runtime c (world st)) as [[err|b] w]; simpl;
      [repeat constructor|].
    destruct b; simpl.
    + destruct t as [branch|]; simpl; [apply IHt | constructor].
    + destruct e as [branch|]; simpl; [apply IHe | constructor].
  - destruct (exec_leaf (Custom handler description) st eq_refl)
      as (w & _ & [[e ->]|(effs & -> & _)]); simpl; repeat constructor.
  - destruct (exec_leaf (UnknownEffect tag) st eq_refl) as (w & _ & [[e ->]|(effs & -> & _)]);
      simpl; repeat constructor.
Qed.

(** The call counter is a ghost: results and worlds do not depend on it. *)
Definition counter_free (eff : Effect World) : Prop :=
  forall w n n',
    (exec eff (mkState w n)).1 = (exec eff (mkState w n')).1 /\
    world (exec eff (mkState w n)).2 = world (exec eff (mkState w n')).2.

Lemma run_sequence_counter_free l :
  Forall counter_free l ->
  forall w n n',
    (run_sequence l (mkState w n)).1 = (run_sequence l (mkState w n')).1 /\
    world (run_sequence l (mkState w n)).2 = world (run_sequence l (mkState w n')).2.
Proof.
  induction 1 as [|c rest Hc Hrest IH]; intros w n n'; simpl; [auto|].
  destruct (Hc w n n') as [Hr Hw]. rewrite Hr.
  destruct (exec c (mkState w n)).2 as [w1 m]. destruct (exec c (mkState w n')).2 as [w1' m'].
  simpl in Hw. subst w1'.
  destruct (success (exec c (mkState w n')).1); simpl; [|auto].
  destruct (IH w1 m m') as [Hrs Hws]. rewrite Hrs. auto.
Qed.

Lemma run_parallel_counter_free l :
  Forall counter_free l ->
  forall w n n',
    (run_parallel l (mkState w n)).1 = (run_parallel l (mkState w n')).1 /\
    world (run_parallel l (mkState w n)).2 = world (run_parallel l (mkState w n')).2.
Proof.
  induction 1 as [|c rest Hc Hrest IH]; intros w n n'; simpl; [auto|].
  destruct (Hc w n n') as [Hr Hw]. rewrite Hr.
  destruct (exec c (mkState w n)).2 as [w1 m]. destruct (exec c (mkState w n')).2 as [w1' m'].
  simpl in Hw. subst w1'.
  destruct (IH w1 m m') as [Hrs Hws]. rewrite Hrs. auto.
Qed.

Lemma exec_counter_free eff : counter_free eff.
Proof.
  induction eff as [path value|l IH|l IH|c t e IHt IHe|handler description|tag]
    using Effect_tree_ind; intros w n n'.
  - unfold exec; simpl; unfold run_body, bind, in_frame, call_method, compute_value.
    destruct value as [v|f]; simpl.
    + destruct (rt_set runtime path v w) as [[e|[]] w1]; simpl; auto.
    + destruct (f input) as [e|v]; simpl; [auto|].
      destruct (rt_set runtime path v w) as [[e|[]] w1]; simpl; auto.
  - rewrite !exec_Sequence. simpl.
    destruct (run_sequence_counter_free l IH w (S n) (S n')) as [Hrs Hw].
    unfold count_call. simpl. rewrite Hrs. auto.
  - rewrite !exec_Parallel. simpl.
    destruct (run_parallel_counter_free l IH w (S n) (S n')) as [Hrs Hw].
    unfold count_call. simpl. rewrite Hrs. auto.
  - rewrite !exec_Conditional. simpl.
    destruct (rt_evaluateCondition runtime c w) as [[err|b] w1]; simpl; [auto|].
    destruct b; simpl.
    + destruct t as [branch|]; simpl; [|auto].
      destruct (IHt w1 (S n) (S n')) as [Hr Hw]. rewrite Hr. auto.
    + destruct e as [branch|]; simpl; [|auto].
      destruct (IHe w1 (S n) (S n')) as [Hr Hw]. rewrite Hr. auto.
  - unfold exec; simpl; unfold run_body, bind, in_frame, call_method.
    destruct handler as [h|]; simpl; [|auto].
    destruct (h input w) as [[e|[]] w1]; simpl; auto.
  - unfold exec; simpl; unfold run_body, bind, in_frame, call_method.
    destruct (rt_runEffect runtime) as [runEffect|]; simpl; [|auto].
    destruct (runEffect (UnknownEffect tag) input w) as [[e|[]] w1]; simpl; auto.
Qed.

Lemma exec_same_world eff st st' :
  world st = world st' ->
  (exec eff st).1 = (exec eff st').1 /\ world (exec eff st).2 = world (exec eff st').2.
Proof.
  destruct st as [w n], st' as [w' n']. simpl. intros <-. apply exec_counter_free.
Qed.

Lemma run_sequence_same_world l st st' :
  world st = world st' ->
  (run_sequence l st).1 = (run_sequence l st').1 /\
  world (run_sequence l st).2 = world (run_sequence l st').2.
Proof.
  destruct st as [w n], st' as [w' n']. simpl. intros <-.
  apply run_sequence_counter_free, Forall_forall. intros c _. apply exec_counter_free.
Qed.

(** A run of [l1 ++ l2] is a run of [l1], followed by a run of [l2] when
    every child of [l1] succeeded. *)
Lemma run_sequence_app l1 l2 : forall st,
  run_sequence (l1 ++ l2) st
  = if is_empty (all_errors (run_sequence l1 st).1)
    then (((run_sequence l1 st).1 ++ (run_sequence l2 (run_sequence l1 st).2).1)%list,
          (run_sequence l2 (run_sequence l1 st).2).2)
    else run_sequence l1 st.
Proof.
  induction l1 as [|c rest IH]; intros st; simpl.
  - destruct (run_sequence l2 st); reflexivity.
  - pose proof (exec_success c st) as Hs.
    destruct (success (exec c st).1); simpl.
    + unfold all_errors in *. simpl.
      destruct (errors (exec c st).1); [|discriminate]. simpl.
      rewrite IH.
      destruct (is_empty (concat (map errors (run_sequence rest (exec c st).2).1)));
        reflexivity.
    + unfold all_errors. simpl. rewrite app_nil_r.
      destruct (errors (exec c st).1); [discriminate | reflexivity].
Qed.

Definition is_set_value (eff : Effect World) : bool :=
  match eff with
  | SetValue _ _ => true
  | _ => false
  end.

(** A SetValue node reports the one write it made, or the one error that
    prevented it. *)
Lemma exec_SetValue eff st :
  is_set_value eff = true ->
  interp_calls (exec eff st).2 = S (interp_calls st) /\
  length (effects (exec eff st).1) + length (errors (exec eff st).1) = 1.
Proof.
  destruct eff as [path value|l|l|c t e|handler description|tag]; try discriminate; intros _.
  unfold exec; simpl; unfold run_body, bind, in_frame, call_method, compute_value.
  destruct value as [v|f]; simpl.
  - destruct (rt_set runtime path v (world st)) as [[e|[]] w]; simpl; auto.
  - destruct (f input) as [e|v]; simpl; [auto|].
    destruct (rt_set runtime path v (world st)) as [[e|[]] w]; simpl; auto.
Qed.

Lemma run_parallel_writes l :
  Forall (fun eff => is_set_value eff = true) l ->
  forall st,
    interp_calls (run_parallel l st).2 = interp_calls st + length l /\
    length (all_effects (run_parallel l st).1) + length (all_errors (run_parallel l st).1)
    = length l.
Proof.
  induction 1 as [|c rest Hc Hrest IH]; intros st; simpl; [split; [lia | reflexivity]|].
  destruct (exec_SetValue c st Hc) as [Hcalls Hone].
  destruct (IH (exec c st).2) as [Hcalls' Hlen].
  unfold all_effects, all_errors in *. simpl. rewrite !length_app.
  split; lia.
Qed.

End Trees.

(** X3: the errors of an interpreter result all carry the code
    EFFECT_EXECUTION_ERROR: the only place that makes an error is the
    [catch] of [executeEffect]; parents copy the errors of their children. *)
Theorem executeEffect_error_codes
    (World : Type) (runtime : Runtime World) (eff : Effect World) (input : Value)
    (st : State World) :
  exists r st',
    executeEffect runtime eff input st = (inr r, st') /\
    Forall (fun e => code e = "EFFECT_EXECUTION_ERROR") (errors r).
Proof.
  exists (exec runtime input eff st).1, (exec runtime input eff st).2.
  split; [apply executeEffect_exec | apply exec_error_codes].
Qed.

(** X4: nesting Sequences changes neither the result nor the world: a Sequence
    of two Sequences behaves as the Sequence of their children, and a
    Sequence of one effect as that effect. *)
Theorem sequence_nesting_is_flat
    (World : Type) (runtime : Runtime World) (l1 l2 : list (Effect World))
    (eff : Effect World) (input : Value) (st : State World) :
  let nested := executeEffect runtime (Sequence [Sequence l1; Sequence l2]) input st in
  let flat := executeEffect runtime (Sequence (l1 ++ l2)) input st in
  let single := executeEffect runtime (Sequence [eff]) input st in
  let bare := executeEffect runtime eff input st in
  (nested.1 = flat.1 /\ world nested.2 = world flat.2) /\
  (single.1 = bare.1 /\ world single.2 = world bare.2).
Proof.
  cbv zeta. rewrite !executeEffect_exec. simpl. split.
  - rewrite !exec_Sequence. simpl. rewrite !exec_Sequence. simpl.
    rewrite run_sequence_app.
    set (s0 := count_call st).
    destruct (run_sequence_same_world runtime input l1 (count_call s0) s0 eq_refl) as [Hrs Hw].
    rewrite Hrs.
    destruct (all_errors (run_sequence runtime input l1 s0).1) as [|err errs] eqn:E1; simpl.
    + assert (Hflat : forall (b : bool) (X : list ExecResult * State World),
                 (if b then X else X) = X) by (intros []; reflexivity).
      rewrite Hflat. simpl.
      destruct (run_sequence_same_world runtime input l2
                  (count_call (run_sequence runtime input l1 (count_call s0)).2)
                  (run_sequence runtime input l1 s0).2) as [Hrs2 Hw2];
        [exact Hw|].
      rewrite Hrs2.
      unfold all_effects, all_errors in *. simpl.
      rewrite !map_app, !concat_app, !app_nil_r.
      rewrite E1. simpl.
      split; [reflexivity | exact Hw2].
    + unfold all_effects, all_errors in *. simpl. rewrite !app_nil_r.
      rewrite E1. split; [reflexivity | exact Hw].
  - rewrite exec_Sequence. simpl.
    destruct (exec_same_world runtime input eff (count_call st) st eq_refl) as [Hr Hw].
    pose proof (exec_success runtime input eff st) as Hs.
    assert (Hflat : forall (b : bool) (X : list ExecResult * State World),
               (if b then X else X) = X) by (intros []; reflexivity).
    rewrite Hflat. simpl. unfold all_effects, all_errors. simpl. rewrite !app_nil_r.
    rewrite Hr, <- Hs. split; [|exact Hw].
    destruct (exec runtime input eff st).1; reflexivity.
Qed.

(** X5: a Parallel node whose children are SetValue nodes (each runs to
    completion when called) attempts every write, whatever the outcome of
    the others: each child is interpreted, and each contributes exactly one
    effect description or one error. *)
Theorem parallel_attempts_every_write
    (World : Type) (runtime : Runtime World) (children : list (Effect World))
    (input : Value) (st : State World) :
  Forall (fun eff => is_set_value eff = true) children ->
  exists r st',
    executeEffect runtime (Parallel children) input st = (inr r, st') /\
    length (effects r) + length (errors r) = length children /\
    interp_calls st' = S (interp_calls st) + length children /\
    success r = is_empty (errors r).
Proof.
  intros Hsets.
  exists (exec runtime input (Parallel children) st).1,
         (exec runtime input (Parallel children) st).2.
  split; [apply executeEffect_exec|].
  rewrite exec_Parallel. simpl.
  destruct (run_parallel_writes runtime input children Hsets (count_call st)) as [Hcalls Hlen].
  split; [exact Hlen|]. split; [exact Hcalls | reflexivity].
Qed.

Lemma parallel_attempts_every_write_witness :
  exists r st',
    executeEffect sample_runtime (Parallel [set_a; set_locked; set_c]) VNull (mkState [] 0)
    = (inr r, st') /\
    length (effects r) + length (errors r) = 3 /\
    interp_calls st' = 4 /\
    success r = is_empty (errors r).
Proof.
  apply (parallel_attempts_every_write _ sample_runtime [set_a; set_locked; set_c] VNull
           (mkState [] 0)).
  repeat constructor.
Defined.

(** *** The action resolver. *)

Section Resolver.

Context {World : Type}.
Variable runtime : Runtime World.
Variable domain_id : string.
Variable Date_now : World -> Z.

Definition blocked_response (pre : PreconditionCheck) : ActionResultResponse :=
  mkActionResult false
    (Some (map (mkActionError "PRECONDITION_FAILED") (blockedReasons pre))) None.

Definition action_error (error : Thrown) : ActionResultResponse :=
  mkActionResult false (Some [mkActionError "ACTION_ERROR" (errorMessage error)]) None.

(** What the effect of the action contributes to the response: its
    descriptions when it succeeded, its errors otherwise. *)
Definition effect_outcome (actionDef : ActionDef World) (input : Value) (st : State World)
  : (list EffectResultResponse * list ActionErrorResponse) * State World :=
  match effect actionDef with
  | Some eff =>
      let r := exec runtime input eff st in
      (if success r.1 then (effects r.1, []) else ([], errors r.1), r.2)
  | None => (([], []), st)
  end.

(** The two publications that follow a successful action. *)
Definition announce (pubsub : option (string -> EventPayload -> Method World unit))
    (actionId : string) (input : Value) (result : ActionResultResponse)
  : Comp (State World) ActionResultResponse :=
  match pubsub with
  | Some publish =>
      now1 <- gets (fun st => Date_now (world st)) ;;
      snapshot <- call_method _ (rt_getSnapshot _ runtime) ;;
      call_method _ (publish (getDomainChangeTrigger domain_id)
                       (DomainChangeEvent "ACTION_EXECUTED" now1 [] snapshot)) ;;;
      now2 <- gets (fun st => Date_now (world st)) ;;
      call_method _ (publish (getActionTrigger domain_id actionId)
                       (ActionExecutedEvent actionId input result now2)) ;;;
      ret result
  | None => ret result
  end.

Lemma effect_outcome_shape actionDef input st :
  let o := (effect_outcome actionDef input st).1 in
  (o.2 = [] \/ (o.1 = [] /\ o.2 <> [])) /\
  Forall (fun e => code e = "EFFECT_EXECUTION_ERROR") o.2.
Proof.
  unfold effect_outcome. destruct (effect actionDef) as [eff|]; simpl;
    [|split; [left; reflexivity | constructor]].
  pose proof (exec_success runtime input eff st) as Hs.
  pose proof (exec_error_codes runtime input eff st) as Hc.
  destruct (success (exec runtime input eff st).1); simpl.
  - split; [left; reflexivity | constructor].
  - split; [|exact Hc]. right. split; [reflexivity|].
    intros Hnil. rewrite Hnil in Hs. discriminate.
Qed.

Lemma createActionResolver_eq pubsub actionId actionDef input st pre st1 :
  evaluatePreconditions runtime actionDef st = (inr pre, st1) ->
  createActionResolver runtime domain_id pubsub Date_now actionId actionDef input st
  = if negb (canExecute pre) then (inr (blocked_response pre), st1)
    else
      let o := effect_outcome actionDef input st1 in
      if is_empty o.1.2
      then try_catch
             (announce pubsub actionId input
                (mkActionResult true None (some_if_nonempty o.1.1)))
             (fun error => ret (action_error error)) o.2
      else (inr (mkActionResult false (Some o.1.2) None), o.2).
Proof.
  intros Hpre.
  unfold createActionResolver, try_catch at 1, bind at 1. rewrite Hpre.
  destruct (canExecute pre); simpl; [|reflexivity].
  unfold effect_outcome, bind at 1.
  destruct (effect actionDef) as [eff|]; simpl.
  - unfold try_catch at 1, bind at 1. rewrite executeEffect_exec. simpl.
    pose proof (exec_success runtime input eff st1) as Hs.
    destruct (success (exec runtime input eff st1).1); simpl.
    + unfold announce, try_catch. destruct pubsub; reflexivity.
    + destruct (errors (exec runtime input eff st1).1); [discriminate|].
      destruct pubsub; reflexivity.
  - unfold announce, try_catch. destruct pubsub; reflexivity.
Qed.

(** [announce] returns the result it was given, or throws. *)
Lemma announce_returns pubsub actionId input result st r st' :
  announce pubsub actionId input result st = (inr r, st') -> r = result.
Proof.
  unfold announce. destruct pubsub as [publish|]; [|intros H; inversion H; reflexivity].
  unfold bind, gets, call_method, ret. simpl.
  destruct (rt_getSnapshot _ runtime (world st)) as [[e|snapshot] w1]; simpl; [discriminate|].
  destruct (publish _ _ w1) as [[e|[]] w2]; simpl; [discriminate|].
  destruct (publish _ _ w2) as [[e|[]] w3]; simpl; [discriminate|].
  intros H; inversion H; reflexivity.
Qed.

End Resolver.

Definition known_code (e : ActionErrorResponse) : Prop :=
  code e = "PRECONDITION_FAILED" \/ code e = "EFFECT_EXECUTION_ERROR" \/
  code e = "ACTION_ERROR".

(** X6: the action resolver never throws, and its response has one of two
    shapes: success without errors, or failure with a non-empty error list
    and no effects.  The error codes are PRECONDITION_FAILED,
    EFFECT_EXECUTION_ERROR and ACTION_ERROR: the code EFFECT_ERROR of the
    inner [catch] cannot occur, since [executeEffect] never throws. *)
Theorem action_response_shape
    (World : Type) (runtime : Runtime World) (domain_id : string)
    (pubsub : option (string -> EventPayload -> Method World unit))
    (Date_now : World -> Z) (actionId : string) (actionDef : ActionDef World)
    (input : Value) (st : State World) :
  exists r st',
    createActionResolver runtime domain_id pubsub Date_now actionId actionDef input st
    = (inr r, st') /\
    match result_errors r with
    | None => result_success r = true
    | Some l => result_success r = false /\ l <> [] /\ result_effects r = None /\
                Forall known_code l
    end.
Proof.
  destruct (evaluatePreconditions_spec World runtime actionDef st) as (st1 & Hpre & _).
  rewrite (createActionResolver_eq runtime domain_id Date_now _ _ _ _ _ _ _ Hpre). simpl.
  destruct (omap id (precondition_outcomes runtime (default [] (preconditions actionDef)) st))
    as [|reason reasons] eqn:Eb; simpl.
  - destruct (effect_outcome_shape runtime actionDef input st1) as [Hshape Hcodes].
    destruct (effect_outcome runtime actionDef input st1) as [[effs errs] st2]. simpl in *.
    destruct errs as [|err errs]; simpl.
    + unfold try_catch.
      destruct (announce runtime domain_id Date_now pubsub actionId input _ st2) as [[e|r] st3] eqn:Ea.
      * eexists _, _. split; [reflexivity|]. simpl.
        split; [reflexivity|]. split; [discriminate|]. split; [reflexivity|].
        constructor; [right; right; reflexivity | constructor].
      * apply announce_returns in Ea. subst r.
        eexists _, _. split; [reflexivity|]. reflexivity.
    + eexists _, _. split; [reflexivity|]. simpl.
      destruct Hshape as [Hnil|[-> _]]; [discriminate|].
      split; [reflexivity|]. split; [discriminate|]. split; [reflexivity|].
      eapply Forall_impl; [exact Hcodes|]. intros e He. right. left. exact He.
  - eexists _, _. split; [reflexivity|]. simpl.
    split; [reflexivity|]. split; [discriminate|]. split; [reflexivity|].
    constructor; [left; reflexivity|].
    apply Forall_map, Forall_forall. intros x _. left. reflexivity.
Qed.

(** X7: when the effect of an action has been executed successfully and a
    publication then fails (the first or the second [publish] rejects), the
    resolver answers with a single ACTION_ERROR and no effects, and the
    state is the one the failed publication left: what the effect wrote
    stays written. *)
Theorem action_publish_failure_keeps_effects
    (World : Type) (runtime : Runtime World) (domain_id : string)
    (publish : string -> EventPayload -> Method World unit)
    (Date_now : World -> Z) (actionId : string) (actionDef : ActionDef World)
    (input : Value) (st st1 st2 : State World) (pre : PreconditionCheck)
    (eff : Effect World) (r : ExecResult) (snapshot : Value) (w3 : World) :
  evaluatePreconditions runtime actionDef st = (inr pre, st1) ->
  canExecute pre = true ->
  effect actionDef = Some eff ->
  executeEffect runtime eff input st1 = (inr r, st2) ->
  success r = true ->
  rt_getSnapshot _ runtime (world st2) = (inr snapshot, w3) ->
  let changed := DomainChangeEvent "ACTION_EXECUTED" (Date_now (world st2)) [] snapshot in
  let result := mkActionResult true None (some_if_nonempty (effects r)) in
  (forall e w4,
      publish (getDomainChangeTrigger domain_id) changed w3 = (inl e, w4) ->
      createActionResolver runtime domain_id (Some publish) Date_now actionId actionDef input st
      = (inr (mkActionResult false
                (Some [mkActionError "ACTION_ERROR" (errorMessage e)]) None),
         mkState w4 (interp_calls st2))) /\
  (forall w4 e w5,
      publish (getDomainChangeTrigger domain_id) changed w3 = (inr tt, w4) ->
      publish (getActionTrigger domain_id actionId)
        (ActionExecutedEvent actionId input result (Date_now w4)) w4 = (inl e, w5) ->
      createActionResolver runtime domain_id (Some publish) Date_now actionId actionDef input st
      = (inr (mkActionResult false
                (Some [mkActionError "ACTION_ERROR" (errorMessage e)]) None),
         mkState w5 (interp_calls st2))).
Proof.
  intros Hpre Hcan Heff Hrun Hsucc Hsnap. cbv zeta.
  assert (Hexec : exec runtime input eff st1 = (r, st2)).
  { unfold exec. rewrite Hrun. reflexivity. }
  pose proof (createActionResolver_eq runtime domain_id Date_now (Some publish) actionId
                actionDef input st pre st1 Hpre) as Heq.
  rewrite Hcan in Heq. simpl in Heq.
  unfold effect_outcome in Heq. rewrite Heff, Hexec in Heq. simpl in Heq.
  rewrite Hsucc in Heq. simpl in Heq.
  split.
  - intros e w4 Hpub. rewrite Heq.
    unfold try_catch, announce, bind, gets, call_method. simpl.
    rewrite Hsnap. simpl. rewrite Hpub. reflexivity.
  - intros w4 e w5 Hpub1 Hpub2. rewrite Heq.
    unfold try_catch, announce, bind, gets, call_method. simpl.
    rewrite Hsnap. simpl. rewrite Hpub1. simpl. rewrite Hpub2. reflexivity.
Qed.

(** An action on path "a" with no preconditions, and an engine that
    rejects every publication. *)
Definition write_action : ActionDef (list (string * Value)) :=
  mkActionDef None (Some set_a).

Definition failing_pubsub : string -> EventPayload -> Method (list (string * Value)) unit :=
  fun _ _ w => (inl (ThrownError "bus down"), w).

Lemma action_publish_failure_keeps_effects_witness :
  createActionResolver sample_runtime "order" (Some failing_pubsub) (fun _ => 0%Z) "write"
    write_action VNull (mkState [] 0)
  = (inr (mkActionResult false (Some [mkActionError "ACTION_ERROR" "bus down"]) None),
     mkState [("a", VNumber 1)] 1).
Proof.
  refine (proj1 (action_publish_failure_keeps_effects _ sample_runtime "order" failing_pubsub
                   (fun _ => 0%Z) "write" write_action VNull (mkState [] 0) _ _
                   (mkPreconditionCheck true []) set_a _ VObject _
                   eq_refl eq_refl eq_refl eq_refl eq_refl eq_refl)
            (ThrownError "bus down") _ eq_refl).
Defined.

(** X8: a failed action publishes nothing: when the response is unsuccessful,
    response and final state are the same whatever the pubsub engine of the
    context, present or not. *)
Theorem failed_action_publishes_nothing
    (World : Type) (runtime : Runtime World) (domain_id : string)
    (Date_now : World -> Z) (actionId : string) (actionDef : ActionDef World)
    (input : Value) (st st' : State World) (r : ActionResultResponse) :
  createActionResolver runtime domain_id None Date_now actionId actionDef input st
  = (inr r, st') ->
  result_success r = false ->
  forall pubsub,
    createActionResolver runtime domain_id pubsub Date_now actionId actionDef input st
    = (inr r, st').
Proof.
  intros Hnone Hfail pubsub.
  destruct (evaluatePreconditions_spec World runtime actionDef st) as (st1 & Hpre & _).
  rewrite (createActionResolver_eq runtime domain_id Date_now None _ _ _ _ _ _ Hpre) in Hnone.
  rewrite (createActionResolver_eq runtime domain_id Date_now pubsub _ _ _ _ _ _ Hpre).
  destruct (negb _); [exact Hnone|].
  cbv zeta in *.
  destruct (is_empty (effect_outcome runtime actionDef input st1).1.2); [|exact Hnone].
  unfold try_catch, announce, ret in Hnone. inversion Hnone; subst. discriminate.
Qed.

Lemma failed_action_publishes_nothing_witness :
  createActionResolver sample_runtime "order" (Some failing_pubsub) (fun _ => 0%Z) "ship"
    guarded_action VNull (mkState [] 0)
  = (inr (mkActionResult false
            (Some [mkActionError "PRECONDITION_FAILED" "Order is closed";
                   mkActionError "PRECONDITION_FAILED" "Error evaluating precondition"])
            None),
     mkState [] 0).
Proof.
  exact (failed_action_publishes_nothing _ sample_runtime "order" (fun _ => 0%Z) "ship"
           guarded_action VNull (mkState [] 0) _ _ eq_refl eq_refl (Some failing_pubsub)).
Defined.

(** *** The set-field resolver. *)

Record SetFieldError := mkSetFieldError {
  sf_code : string;
  sf_message : string;
  sf_error_path : string
}.

Record SetFieldResultResponse := mkSetFieldResult {
  sf_success : bool;
  sf_path : string;
  sf_previousValue : Value;
  sf_newValue : Value;
  sf_errors : option (list SetFieldError)
}.

(** What the set-field resolver publishes: a domain change event, or a
    field change event [{path, previousValue, newValue, timestamp}]. *)
Inductive FieldEventPayload :=
| DomainChange (event : EventPayload)
| FieldChange (path : string) (previousValue newValue : Value) (timestamp : Z).

Definition getFieldChangeTrigger (domainId path : string) : string :=
  domainId ++ ":field:" ++ path.

Definition set_field_error (path : string) (error : Thrown) : SetFieldResultResponse :=
  mkSetFieldResult false path VNull VNull
    (Some [mkSetFieldError "SET_FIELD_ERROR" (errorMessage error) path]).

Section SetField.

Context {World : Type}.
Variable runtime : Runtime World.
Variable domain_id : string.
Variable pubsub : option (string -> FieldEventPayload -> Method World unit).
Variable Date_now : World -> Z.

(** A call of a method of the runtime or of the engine. *)
Definition call {A} (m : Method World A) : Comp World A := m.

(** The resolver returned by [createSetFieldResolver()], applied to
    [args.path] and [args.value]. *)
Definition createSetFieldResolver (path : string) (newValue : Value)
  : Comp World SetFieldResultResponse :=
  try_catch
    (previousValue <- try_catch (call (rt_get _ runtime path)) (fun _ => ret VUndefined) ;;
     call (rt_set runtime path newValue) ;;;
     let result := mkSetFieldResult true path previousValue newValue None in
     match pubsub with
     | Some publish =>
         now1 <- gets Date_now ;;
         snapshot <- call (rt_getSnapshot _ runtime) ;;
         call (publish (getDomainChangeTrigger domain_id)
                 (DomainChange (DomainChangeEvent "DATA_CHANGED" now1 [path] snapshot))) ;;;
         now2 <- gets Date_now ;;
         call (publish (getFieldChangeTrigger domain_id path)
                 (FieldChange path previousValue newValue now2)) ;;;
         ret result
     | None => ret result
     end)
    (fun error => ret (set_field_error path error)).

End SetField.

(** X9: the set-field resolver never throws.  A failing write is answered with
    one SET_FIELD_ERROR carrying the message and the path, with
    [previousValue] and [newValue] both [null], and nothing is published;
    a failing read of the previous value is tolerated: the write is made
    and [previousValue] is [undefined]. *)
Theorem setField_error_behaviour
    (World : Type) (runtime : Runtime World) (domain_id : string)
    (pubsub : option (string -> FieldEventPayload -> Method World unit))
    (Date_now : World -> Z) (path : string) (newValue : Value) (w : World) :
  (exists r w',
      createSetFieldResolver runtime domain_id pubsub Date_now path newValue w = (inr r, w')) /\
  (forall g w1 e w2,
      rt_get _ runtime path w = (g, w1) ->
      rt_set runtime path newValue w1 = (inl e, w2) ->
      createSetFieldResolver runtime domain_id pubsub Date_now path newValue w
      = (inr (set_field_error path e), w2)) /\
  (forall e w1 w2,
      rt_get _ runtime path w = (inl e, w1) ->
      rt_set runtime path newValue w1 = (inr tt, w2) ->
      createSetFieldResolver runtime domain_id None Date_now path newValue w
      = (inr (mkSetFieldResult true path VUndefined newValue None), w2)).
Proof.
  split; [|split].
  - unfold createSetFieldResolver, try_catch at 1.
    destruct (bind _ _ w) as [[e|r] w']; simpl; eauto.
  - intros g w1 e w2 Hget Hset.
    unfold createSetFieldResolver, try_catch, bind, call, ret. rewrite Hget.
    destruct g as [e'|v]; simpl; rewrite Hset; reflexivity.
  - intros e w1 w2 Hget Hset.
    unfold createSetFieldResolver, try_catch, bind, call, ret. rewrite Hget. simpl.
    rewrite Hset. reflexivity.
Qed.

(** X10: after a successful write, the resolver publishes a DATA_CHANGED event
    for the path on the domain's change trigger and then the field change
    on the field's trigger; when both are accepted the response is the
    success response with the previous and the new value.  When the first
    publication is rejected, the response is a SET_FIELD_ERROR with
    [previousValue] and [newValue] both [null], although the write has been
    made: the state is the one the failed publication left. *)
Theorem setField_publication
    (World : Type) (runtime : Runtime World) (domain_id : string)
    (publish : string -> FieldEventPayload -> Method World unit)
    (Date_now : World -> Z) (path : string) (newValue previousValue snapshot : Value)
    (w w1 w2 w3 : World) :
  rt_get _ runtime path w = (inr previousValue, w1) ->
  rt_set runtime path newValue w1 = (inr tt, w2) ->
  rt_getSnapshot _ runtime w2 = (inr snapshot, w3) ->
  let changed :=
    DomainChange (DomainChangeEvent "DATA_CHANGED" (Date_now w2) [path] snapshot) in
  (forall w4 w5,
      publish (domain_id ++ ":changed") changed w3 = (inr tt, w4) ->
      publish (domain_id ++ ":field:" ++ path)
        (FieldChange path previousValue newValue (Date_now w4)) w4 = (inr tt, w5) ->
      createSetFieldResolver runtime domain_id (Some publish) Date_now path newValue w
      = (inr (mkSetFieldResult true path previousValue newValue None), w5)) /\
  (forall e w4,
      publish (domain_id ++ ":changed") changed w3 = (inl e, w4) ->
      createSetFieldResolver runtime domain_id (Some publish) Date_now path newValue w
      = (inr (set_field_error path e), w4)).
Proof.
  intros Hget Hset Hsnap. cbv zeta. split.
  - intros w4 w5 Hpub1 Hpub2.
    unfold createSetFieldResolver, try_catch, bind, call, ret, gets,
      getDomainChangeTrigger, getFieldChangeTrigger.
    rewrite Hget. simpl. rewrite Hset. simpl. rewrite Hsnap. simpl.
    rewrite Hpub1. simpl. rewrite Hpub2. reflexivity.
  - intros e w4 Hpub.
    unfold createSetFieldResolver, try_catch, bind, call, ret, gets, getDomainChangeTrigger.
    rewrite Hget. simpl. rewrite Hset. simpl. rewrite Hsnap. simpl.
    rewrite Hpub. reflexivity.
Qed.

Lemma setField_publication_witness :
  createSetFieldResolver sample_runtime "order"
    (Some (fun _ _ w => (inl (ThrownError "bus down"), w))) (fun _ => 0%Z)
    "a" (VNumber 1) []
  = (inr (set_field_error "a" (ThrownError "bus down")), [("a", VNumber 1)]).
Proof.
  refine (proj2 (setField_publication _ sample_runtime "order"
                   (fun _ _ w => (inl (ThrownError "bus down"), w)) (fun _ => 0%Z)
                   "a" (VNumber 1) VUndefined VObject [] [] [("a", VNumber 1)]
                   [("a", VNumber 1)] eq_refl eq_refl eq_refl)
            (ThrownError "bus down") _ eq_refl).
Defined.

End Mutations.


(* ===================================================================== *)
(** ** The query resolvers (Query Resolvers)                           *)
(* ===================================================================== *)

Module Queries.

Import Sanitize Effects.
Local Open Scope string_scope.
Local Open Scope comp_scope.

(** [pathToFieldName] of the query resolvers. *)
Definition pathToFieldName (path : string) : string :=
  let parts := Schema.split_char "."%char path in
  let parts :=
    match parts with
    | first :: (_ :: _) as rest =>
        if existsb (String.eqb first) ["data"; "state"; "derived"; "async"] then rest else parts
    | _ => parts
    end in
  match parts with
  | [] => EmptyString
  | first :: rest =>
      join_empty
        (first :: map (fun part => match part with
                                   | EmptyString => EmptyString
                                   | String c r => String (toUpperCase_char c) r
                                   end) rest)
  end.

(** A snapshot of the runtime: the own properties of [snapshot.data] and
    of [snapshot.state]. *)
Record Snapshot := mkSnapshot {
  snap_data : list (string * Value);
  snap_state : list (string * Value)
}.

(** A condition of a field policy, as [evaluateCondition] tells them
    apart: [undefined], a boolean, an object with a truthy [$ref], [null]
    (whose [$ref] probe throws), anything else. *)
Inductive Condition :=
| CondUndefined
| CondBoolean (b : bool)
| CondRef (ref : string)
| CondNull
| CondOther.

Record FieldPolicyDef := mkFieldPolicyDef {
  pd_editable : Condition;
  pd_required : Condition;
  pd_relevant : Condition
}.

Record FieldPolicyResponse := mkFieldPolicy {
  editable : bool;
  required : bool;
  visible : bool;
  relevant : bool
}.

Record QueryActionDef := mkQueryActionDef {
  qa_verb : option string;
  qa_description : option string;
  qa_preconditions : option (list Precondition)
}.

Record ActionInfoResponse := mkActionInfo {
  info_id : string;
  info_verb : string;
  info_description : string;
  info_canExecute : bool;
  info_blockedReasons : list string
}.

(** The part of a domain descriptor the query resolvers read: the keys of
    [paths.sources], [paths.derived] and [paths.async], the field policies
    and the actions. *)
Record QueryDomain := mkQueryDomain {
  qd_sources : option (list string);
  qd_derived : option (list string);
  qd_async : option (list string);
  qd_fieldPolicies : option (list (string * FieldPolicyDef));
  qd_actions : option (list (string * QueryActionDef))
}.

Section Resolvers.

Context {World : Type}.

(** The runtime as the query resolvers use it; [evaluateCondition] returns
    a boolean or [undefined]. *)
Record QueryRuntime := mkQueryRuntime {
  q_getSnapshot : Method World Snapshot;
  q_get : string -> Method World Value;
  q_evaluateCondition : string -> Method World (option bool);
  q_evaluatePrecondition : option (Precondition -> Method World PreconditionResult)
}.

Variable runtime : QueryRuntime.
Variable domain : QueryDomain.

Definition call {A} (m : Method World A) : Comp World A := m.

(** [{...target, ...source}] on object literals. *)
Definition spread (target source : list (string * Value)) : list (string * Value) :=
  fold_left (fun o e => Schema.obj_set e.1 e.2 o) source target.




(** [evaluateCondition(runtime, condition)] *)
Definition evaluateCondition (condition : Condition) : Comp World (option bool) :=
  match condition with
  | CondUndefined => ret None
  | CondBoolean b => ret (Some b)
  | CondRef ref => try_catch (call (q_evaluateCondition runtime ref)) (fun _ => ret None)
  | CondNull => throw (ThrownError "Cannot read properties of null")
  | CondOther => ret None
  end.

Definition defaultPolicy : FieldPolicyResponse := mkFieldPolicy true false true true.

Definition getPolicyForPath (path : string) : Comp World FieldPolicyResponse :=
  match qd_fieldPolicies domain with
  | Some fieldPolicies =>
      match Schema.obj_get path fieldPolicies with
      | Some policy =>
          try_catch
            (e <- evaluateCondition (pd_editable policy) ;;
             r <- evaluateCondition (pd_required policy) ;;
             l <- evaluateCondition (pd_relevant policy) ;;
             ret (mkFieldPolicy (default (editable defaultPolicy) e)
                    (default (required defaultPolicy) r)
                    (visible defaultPolicy)
                    (default (relevant defaultPolicy) l)))
            (fun _ => ret defaultPolicy)
      | None => ret defaultPolicy
      end
  | None => ret defaultPolicy
  end.

Definition collectAllPaths : list string :=
  (default [] (qd_sources domain) ++ default [] (qd_derived domain)
   ++ default [] (qd_async domain))%list.

Fixpoint policies_loop (paths : list string) (policies : list FieldPolicyResponse)
  : Comp World (list FieldPolicyResponse) :=
  match paths with
  | [] => ret policies
  | path :: rest =>
      policy <- getPolicyForPath path ;;
      policies_loop rest
        (policies ++ [mkFieldPolicy (editable policy) (required policy) (visible policy)
                        (relevant policy)])%list
  end.

(** The resolver returned by [createPoliciesResolver(domain)]. *)
Definition createPoliciesResolver : Comp World (list FieldPolicyResponse) :=
  policies_loop collectAllPaths [].

(** One iteration of the loop of the query resolvers'
    [evaluatePreconditions]: the reason pushed, if any. *)
Definition check_precondition (precondition : Precondition) : Comp World (option string) :=
  try_catch
    match q_evaluatePrecondition runtime with
    | Some evaluatePrecondition =>
        result <- call (evaluatePrecondition precondition) ;;
        ret (if satisfied result then None
             else Some (default "Precondition not satisfied" (reason result)))
    | None => throw (ThrownError "runtime.evaluatePrecondition is not a function")
    end
    (fun _ => ret (Some "Error evaluating precondition")).

Fixpoint check_all (l : list Precondition) (blocked : list string)
  : Comp World (list string) :=
  match l with
  | [] => ret blocked
  | precondition :: rest =>
      r <- check_precondition precondition ;;
      check_all rest (match r with
                      | Some reason_ => blocked ++ [reason_]
                      | None => blocked
                      end)%list
  end.

Definition evaluatePreconditions (actionDef : QueryActionDef) : Comp World PreconditionCheck :=
  blocked <- match qa_preconditions actionDef with
             | Some l => check_all l []
             | None => ret []
             end ;;
  ret (mkPreconditionCheck (is_empty blocked) blocked).

Fixpoint actions_loop (entries : list (string * QueryActionDef))
    (actions : list ActionInfoResponse) : Comp World (list ActionInfoResponse) :=
  match entries with
  | [] => ret actions
  | (actionId, actionDef) :: rest =>
      preconditions <- evaluatePreconditions actionDef ;;
      let info :=
        mkActionInfo actionId
          (default actionId (qa_verb actionDef))
          (default ("Execute " ++ actionId) (qa_description actionDef))
          (canExecute preconditions)
          (blockedReasons preconditions) in
      actions_loop rest (actions ++ [info])%list
  end.

(** The resolver returned by [createActionsResolver(domain)]. *)
Definition createActionsResolver : Comp World (list ActionInfoResponse) :=
  match qd_actions domain with
  | Some entries => actions_loop entries []
  | None => ret []
  end.

(** *** Facts about object spreads and the derived values. *)





(** *** Policies. *)

Lemma evaluateCondition_ref_returns ref w :
  exists b w', evaluateCondition (CondRef ref) w = (inr b, w').
Proof.
  unfold evaluateCondition, try_catch, call, ret.
  destruct (q_evaluateCondition runtime ref w) as [[e|b] w']; simpl; eauto.
Qed.

Lemma getPolicyForPath_returns path w :
  exists p w', getPolicyForPath path w = (inr p, w') /\ visible p = true.
Proof.
  unfold getPolicyForPath.
  destruct (qd_fieldPolicies domain) as [fieldPolicies|]; [|exists defaultPolicy, w; auto].
  destruct (Schema.obj_get path fieldPolicies) as [policy|]; [|exists defaultPolicy, w; auto].
  unfold try_catch.
  destruct (bind _ _ w) as [[e|p] w'] eqn:E; simpl; [exists defaultPolicy, w'; auto|].
  exists p, w'. split; [reflexivity|].
  unfold bind in E.
  destruct (evaluateCondition (pd_editable policy) w) as [[?|e1] w1]; [discriminate|].
  destruct (evaluateCondition (pd_required policy) w1) as [[?|r1] w2]; [discriminate|].
  destruct (evaluateCondition (pd_relevant policy) w2) as [[?|l1] w3]; [discriminate|].
  inversion E; subst. reflexivity.
Qed.

Lemma policies_loop_spec paths : forall policies w,
  exists ps w',
    policies_loop paths policies w = (inr ps, w') /\
    length ps = length policies + length paths /\
    (Forall (fun p => visible p = true) policies -> Forall (fun p => visible p = true) ps).
Proof.
  induction paths as [|path rest IH]; intros policies w; simpl.
  - exists policies, w. split; [reflexivity|]. split; [lia | trivial].
  - unfold bind. destruct (getPolicyForPath_returns path w) as (p & w1 & -> & Hv).
    destruct (IH (policies ++ [mkFieldPolicy (editable p) (required p) (visible p)
                                 (relevant p)])%list w1) as (ps & w' & -> & Hlen & Hall).
    exists ps, w'. split; [reflexivity|]. rewrite length_app in Hlen. simpl in Hlen.
    split; [lia|]. intros H. apply Hall, Forall_app. split; [exact H|].
    constructor; [exact Hv | constructor].
Qed.

(** *** Preconditions and actions. *)

Lemma query_check_precondition_returns precondition w :
  exists o w', check_precondition precondition w = (inr o, w').
Proof.
  unfold check_precondition, try_catch, bind, call, ret, throw.
  destruct (q_evaluatePrecondition runtime) as [ep|]; [|eauto].
  destruct (ep precondition w) as [[e|result] w']; simpl; eauto.
Qed.

Lemma check_all_returns l : forall blocked w,
  exists reasons w', check_all l blocked w = (inr reasons, w').
Proof.
  induction l as [|p rest IH]; intros blocked w; simpl; [unfold ret; eauto|].
  unfold bind. destruct (query_check_precondition_returns p w) as (o & w1 & ->). apply IH.
Qed.

Lemma check_all_without_method l :
  q_evaluatePrecondition runtime = None ->
  forall blocked w,
    check_all l blocked w
    = (inr (blocked ++ replicate (length l) "Error evaluating precondition")%list, w).
Proof.
  intros Hnone. induction l as [|p rest IH]; intros blocked w; simpl.
  - rewrite app_nil_r. reflexivity.
  - unfold bind, check_precondition, try_catch, throw, ret. rewrite Hnone. simpl.
    fold (check_all rest). rewrite IH, <- app_assoc. reflexivity.
Qed.

Definition unreachable_reasons (actionDef : QueryActionDef) : list string :=
  replicate (length (default [] (qa_preconditions actionDef))) "Error evaluating precondition".

Lemma query_evaluatePreconditions_spec actionDef w :
  exists pre w',
    evaluatePreconditions actionDef w = (inr pre, w') /\
    canExecute pre = is_empty (blockedReasons pre) /\
    (q_evaluatePrecondition runtime = None ->
     w' = w /\ blockedReasons pre = unreachable_reasons actionDef).
Proof.
  unfold evaluatePreconditions, bind, unreachable_reasons.
  destruct (qa_preconditions actionDef) as [l|]; simpl.
  - destruct (check_all_returns l [] w) as (reasons & w' & E). rewrite E.
    eexists _, _. split; [reflexivity|]. split; [reflexivity|].
    intros Hnone. rewrite (check_all_without_method l Hnone) in E.
    inversion E; subst. auto.
  - eexists _, _. split; [reflexivity|]. split; [reflexivity|]. auto.
Qed.

Lemma actions_loop_spec entries : forall actions w,
  exists infos w',
    actions_loop entries actions w = (inr (actions ++ infos)%list, w') /\
    map info_id infos = map fst entries /\
    Forall (fun i => info_canExecute i = is_empty (info_blockedReasons i)) infos /\
    (q_evaluatePrecondition runtime = None ->
     w' = w /\
     map info_blockedReasons infos = map (fun a => unreachable_reasons a.2) entries).
Proof.
  induction entries as [|[actionId actionDef] rest IH]; intros actions w; simpl.
  - exists [], w. rewrite app_nil_r. repeat split; constructor.
  - unfold bind.
    destruct (query_evaluatePreconditions_spec actionDef w) as (pre & w1 & -> & Hcan & Hnone).
    match goal with
    | |- context [actions_loop ?r ?a ?w0] =>
        destruct (IH a w0) as (infos & w' & -> & Hids & Hall & Hnone')
    end.
    eexists (_ :: infos), w'. rewrite <- app_assoc. split; [reflexivity|]. simpl.
    split; [rewrite Hids; reflexivity|].
    split; [constructor; [exact Hcan | exact Hall]|].
    intros H. destruct (Hnone H) as [-> Hb]. destruct (Hnone' H) as [-> Hbs].
    split; [reflexivity|]. rewrite Hb, Hbs. reflexivity.
Qed.

End Resolvers.

Arguments QueryRuntime World : clear implicits.





(** X12: the actions query never throws and lists one entry per action of the
    domain, in order, each executable exactly when it has no blocked
    reason.  On a runtime that has no [evaluatePrecondition] method, the
    runtime is not touched and every precondition of every action is
    reported as "Error evaluating precondition", so that an action with a
    precondition is never reported executable. *)
Theorem actions_query_report
    (World : Type) (runtime : QueryRuntime World) (domain : QueryDomain) (w : World) :
  exists infos w',
    createActionsResolver runtime domain w = (inr infos, w') /\
    map info_id infos = map fst (default [] (qd_actions domain)) /\
    Forall (fun i => info_canExecute i = is_empty (info_blockedReasons i)) infos /\
    (q_evaluatePrecondition runtime = None ->
     w' = w /\
     map info_blockedReasons infos
     = map (fun a =>
              replicate (length (default [] (qa_preconditions a.2)))
                "Error evaluating precondition")
         (default [] (qd_actions domain))).
Proof.
  unfold createActionsResolver.
  destruct (qd_actions domain) as [entries|]; simpl.
  - destruct (actions_loop_spec runtime entries [] w) as (infos & w' & Hrun & H).
    exists infos, w'. split; [exact Hrun | exact H].
  - exists [], w. repeat split; constructor.
Qed.

(** X13: the policy of a path is always produced (no throw), and its [visible]
    flag is always [true].  A path without a declared policy has the
    default policy (editable, not required, visible, relevant) and the
    runtime is not consulted; boolean conditions are taken as they are;
    and a [null] condition makes the whole policy the default one. *)
Theorem field_policy_defaults
    (World : Type) (runtime : QueryRuntime World) (domain : QueryDomain)
    (path : string) (w : World) :
  (exists p w', getPolicyForPath runtime domain path w = (inr p, w') /\ visible p = true) /\
  (Schema.obj_get path (default [] (qd_fieldPolicies domain)) = None ->
   getPolicyForPath runtime domain path w = (inr (mkFieldPolicy true false true true), w)) /\
  (forall e r l,
      Schema.obj_get path (default [] (qd_fieldPolicies domain))
      = Some (mkFieldPolicyDef (CondBoolean e) (CondBoolean r) (CondBoolean l)) ->
      getPolicyForPath runtime domain path w = (inr (mkFieldPolicy e r true l), w)) /\
  (forall policy,
      Schema.obj_get path (default [] (qd_fieldPolicies domain)) = Some policy ->
      pd_editable policy = CondNull \/ pd_required policy = CondNull \/
      pd_relevant policy = CondNull ->
      (getPolicyForPath runtime domain path w).1 = inr (mkFieldPolicy true false true true)).
Proof.
  split; [apply getPolicyForPath_returns|].
  unfold getPolicyForPath.
  destruct (qd_fieldPolicies domain) as [fieldPolicies|]; simpl;
    [|split; [reflexivity | split; [discriminate | discriminate]]].
  split; [intros ->; reflexivity|]. split.
  - intros e r l ->. reflexivity.
  - intros policy -> Hnull. unfold try_catch, bind.
    destruct (evaluateCondition runtime (pd_editable policy) w) as [[e1|e] w1] eqn:E1;
      [reflexivity|].
    destruct (evaluateCondition runtime (pd_required policy) w1) as [[e2|r] w2] eqn:E2;
      [reflexivity|].
    destruct (evaluateCondition runtime (pd_relevant policy) w2) as [[e3|l] w3] eqn:E3;
      [reflexivity|].
    exfalso. destruct Hnull as [H|[H|H]]; rewrite H in *; discriminate.
Qed.

(** X14: the policies query returns one policy per path of the domain (sources,
    then derived, then async paths), each visible; the entries do not name
    their path. *)
Theorem policies_query_one_per_path
    (World : Type) (runtime : QueryRuntime World) (domain : QueryDomain) (w : World) :
  exists ps w',
    createPoliciesResolver runtime domain w = (inr ps, w') /\
    length ps = length (default [] (qd_sources domain))
                + length (default [] (qd_derived domain))
                + length (default [] (qd_async domain)) /\
    Forall (fun p => visible p = true) ps.
Proof.
  unfold createPoliciesResolver.
  destruct (policies_loop_spec runtime domain (collectAllPaths domain) [] w)
    as (ps & w' & Hrun & Hlen & Hall).
  exists ps, w'. split; [exact Hrun|]. split; [|apply Hall; constructor].
  rewrite Hlen. unfold collectAllPaths. rewrite !length_app. simpl. lia.
Qed.

End Queries.


(* ===================================================================== *)
(** ** The mapping functions, the cache and the domain fields          *)
(**    (Type Mapper, Schema Builder)                                   *)
(* ===================================================================== *)

Module Mapping.

Import Sanitize Schema.
Local Open Scope string_scope.
Local Open Scope mapper_scope.

(** Induction on the nodes the mapper recurses on. *)
Lemma rank_induction (P : ZodType -> Prop) :
  (forall schema, (forall s, rank s < rank schema -> P s) -> P schema) ->
  forall schema, P schema.
Proof.
  intros Hstep schema.
  assert (H : forall n s, rank s < n -> P s).
  { induction n as [|n IH]; intros s Hs; [lia|].
    apply Hstep. intros s' Hs'. apply IH. lia. }
  apply (H (S (rank schema))). lia.
Qed.

Lemma unwrap_fixed schema :
  unwrap_inner (unwrap_inner schema) = unwrap_inner schema /\
  unwrap_optional (unwrap_inner schema) = false.
Proof.
  induction schema as [[d def] IH] using rank_induction.
  destruct def as [| | | | | |ty|sh|op|op| |inner|inner|inner| | | |];
    try (split; reflexivity);
    destruct inner as [i|]; try (split; reflexivity);
    simpl; apply IH; simpl; lia.
Qed.










Lemma rank_unwrap schema : rank (unwrap_inner schema) <= rank schema.
Proof. apply (rank_unwrap_inner (rank schema)). lia. Qed.




(** Nodes below which the mapper meets no object and no union. *)
Fixpoint plain (schema : ZodType) : bool :=
  match schema with
  | mkZod _ (ZodObject _) => false
  | mkZod _ (ZodUnion _) => false
  | mkZod _ (ZodDiscriminatedUnion _) => false
  | mkZod _ (ZodOptional (Some innerType)) => plain innerType
  | mkZod _ (ZodNullable (Some innerType)) => plain innerType
  | mkZod _ (ZodDefault (Some innerType)) => plain innerType
  | mkZod _ (ZodArray (Some elementType)) => plain elementType
  | _ => true
  end.

Lemma plain_unwrap schema : plain (unwrap_inner schema) = plain schema.
Proof.
  induction schema as [[d def] IH] using rank_induction.
  destruct def as [| | | | | |ty|sh|op|op| |inner|inner|inner| | | |];
    try reflexivity;
    destruct inner as [i|]; try reflexivity;
    simpl; apply IH; simpl; lia.
Qed.

Lemma plain_base_agree schema : forall name st,
  plain schema = true ->
  mapZodToGraphQLInputBase schema name st = mapZodToGraphQLOutputBase schema name st.
Proof.
  induction schema as [[d def] IH] using rank_induction. intros name st Hplain.
  destruct def as [| | | | | |ty|sh|op|op| |inner|inner|inner| | | |];
    try reflexivity; try discriminate.
  destruct ty as [e|]; [|reflexivity].
  simpl in *. unfold bind.
  rewrite IH; [reflexivity | pose proof (rank_unwrap e); simpl; lia|].
  rewrite plain_unwrap. exact Hplain.
Qed.

(** X15: unwrapping is idempotent: the inner node [unwrapZodType] returns
    unwraps to itself and is not optional. *)
Theorem unwrapZodType_idempotent (schema : ZodType) :
  unwrapZodType (unwrapZodType schema).1 = ((unwrapZodType schema).1, false).
Proof.
  unfold unwrapZodType. simpl.
  destruct (unwrap_fixed schema) as [-> ->]. reflexivity.
Qed.


(** X17: on a node below which there is neither an object nor a union, the
    input mapping is the output mapping: same type, same instances, same
    effect on the cache.  A union node, which the output mapping may reduce
    to the type of its options, always maps to the JSON scalar on input. *)
Theorem input_mapping_agrees_with_output (schema : ZodType) (name : string) (st : MapperState) :
  (plain schema = true ->
   mapZodToGraphQLInput schema name st = mapZodToGraphQLOutput schema name st) /\
  (forall description options,
      mapZodToGraphQLInput (mkZod description (ZodUnion options)) name st
      = (GraphQLNonNull GraphQLJSON, st)).
Proof.
  split; [|reflexivity].
  intros Hplain. unfold mapZodToGraphQLInput, mapZodToGraphQLOutput, unwrapZodType, bind.
  rewrite plain_base_agree; [reflexivity|]. rewrite plain_unwrap. exact Hplain.
Qed.




(** *** Object types and their input counterparts. *)











(** *** Enum values. *)






(** *** Derived fields of the domain type. *)








End Mapping.


(* ===================================================================== *)
(** ** Root types and resolver maps (Schema Builder, resolver factories) *)
(* ===================================================================== *)

Module Roots.

Import Sanitize.
Local Open Scope string_scope.

(** The part of a domain descriptor the root types and the resolver maps
    are named from: [domain.id], [domain.name], and the actions in
    [Object.entries] order, each with its [description]. *)
Record RootDomain := mkRootDomain {
  rd_id : string;
  rd_name : option string;
  rd_actions : option (list (string * option string))
}.

(** A field of a root type: its type (in schema notation), its
    description and the names of its arguments. *)
Record RootField := mkRootField {
  rf_type : string;
  rf_description : string;
  rf_args : list string
}.

Inductive QueryResolver :=
| DomainResolver
| FieldResolver
| PoliciesResolver
| ActionsResolver.

Inductive MutationResolver :=
| SetFieldResolver
| ActionResolver (actionId : string).

Inductive SubscriptionResolver :=
| DomainChangedResolver
| FieldChangedResolver.

(** The placeholder functions of [createPlaceholderResolvers], by what
    they return. *)
Inductive Placeholder :=
| ReturnsEmptyObject
| ReturnsNull
| ReturnsEmptyList
| ReturnsFailure.

(** [domainName.charAt(0).toLowerCase() + domainName.slice(1)] *)
Definition lowerDomainName (domainName : string) : string := uncapitalize domainName.

(** An object literal with computed keys: the entries are assigned in
    order. *)
Definition object_of {V} (entries : list (string * V)) : list (string * V) :=
  Schema.fromEntries entries.

Section Roots.

Variable domain : RootDomain.
Variable domainName : string.

Definition display_name : string := default (rd_id domain) (rd_name domain).

(** Schema Builder. *)

Definition buildQueryType : list (string * RootField) :=
  let lower := lowerDomainName domainName in
  object_of
    [(lower, mkRootField (domainName ++ "!") ("Get current " ++ display_name ++ " state") []);
     (lower ++ "Field",
      mkRootField "FieldValue" ("Get a specific field value from " ++ display_name) ["path"]);
     (lower ++ "Policies",
      mkRootField "[FieldPolicy!]!" ("Get all field policies for " ++ display_name) []);
     (lower ++ "Actions",
      mkRootField "[ActionInfo!]!" ("Get available actions for " ++ display_name) [])].

Definition buildMutationType : list (string * RootField) :=
  let lower := lowerDomainName domainName in
  let mutationFields :=
    object_of
      [("set" ++ domainName ++ "Field",
        mkRootField "SetFieldResult!" ("Set a field value in " ++ display_name)
          ["path"; "value"])] in
  match rd_actions domain with
  | Some actions =>
      fold_left
        (fun fields action =>
           let mutationName := lower ++ capitalize action.1 in
           Schema.obj_set mutationName
             (mkRootField "ActionResult!"
                (default ("Execute " ++ action.1 ++ " action") action.2) ["input"])
             fields)
        actions mutationFields
  | None => mutationFields
  end.

Definition buildSubscriptionType : list (string * RootField) :=
  let lower := lowerDomainName domainName in
  object_of
    [(lower ++ "Changed",
      mkRootField "DomainChangeEvent!" ("Subscribe to " ++ display_name ++ " changes") []);
     (lower ++ "FieldChanged",
      mkRootField "FieldChangeEvent!"
        ("Subscribe to specific field changes in " ++ display_name) ["path"])].

Record PlaceholderResolvers := mkPlaceholders {
  ph_Query : list (string * Placeholder);
  ph_Mutation : list (string * Placeholder);
  ph_Subscription : list (string * Placeholder)
}.

Definition createPlaceholderResolvers : PlaceholderResolvers :=
  let lower := lowerDomainName domainName in
  let query :=
    object_of [(lower, ReturnsEmptyObject); (lower ++ "Field", ReturnsNull);
               (lower ++ "Policies", ReturnsEmptyList);
               (lower ++ "Actions", ReturnsEmptyList)] in
  let mutation := object_of [("set" ++ domainName ++ "Field", ReturnsFailure)] in
  let mutation :=
    match rd_actions domain with
    | Some actions =>
        fold_left
          (fun resolvers action =>
             let mutationName := lower ++ capitalize action.1 in
             Schema.obj_set mutationName ReturnsFailure resolvers)
          actions mutation
    | None => mutation
    end in
  mkPlaceholders query mutation [].

(** Resolver factories. *)

Definition createQueryResolvers : list (string * QueryResolver) :=
  let lower := lowerDomainName domainName in
  object_of [(lower, DomainResolver); (lower ++ "Field", FieldResolver);
             (lower ++ "Policies", PoliciesResolver);
             (lower ++ "Actions", ActionsResolver)].

Definition createMutationResolvers : list (string * MutationResolver) :=
  let lower := lowerDomainName domainName in
  let resolvers := object_of [("set" ++ domainName ++ "Field", SetFieldResolver)] in
  match rd_actions domain with
  | Some actions =>
      fold_left
        (fun resolvers action =>
           let mutationName := lower ++ capitalize action.1 in
           Schema.obj_set mutationName (ActionResolver action.1) resolvers)
        actions resolvers
  | None => resolvers
  end.

Definition createSubscriptionResolvers : list (string * SubscriptionResolver) :=
  let lower := lowerDomainName domainName in
  object_of [(lower ++ "Changed", DomainChangedResolver);
             (lower ++ "FieldChanged", FieldChangedResolver)].

End Roots.

(** *** The keys of an object depend on the keys assigned only. *)

Lemma Mapping_obj_get_Some_key {V} k (v : V) o :
  Schema.obj_get k o = Some v -> k ∈ map fst o.
Proof.
  intros H. destruct (decide (k ∈ map fst o)) as [Hin|Hnot]; [exact Hin|].
  apply Schema.obj_get_None in Hnot. congruence.
Qed.

Definition keys_set (key : string) (keys : list string) : list string :=
  if decide (key ∈ keys) then keys else keys ++ [key].

Lemma obj_set_keys_set {V} key (v : V) o :
  map fst (Schema.obj_set key v o) = keys_set key (map fst o).
Proof.
  unfold keys_set.
  destruct (Schema.obj_set_keys key v o) as [Hsame|[Hnot Happ]].
  - destruct (decide (key ∈ map fst o)) as [Hin|Hnot]; [exact Hsame|].
    exfalso. apply Hnot. rewrite <- Hsame.
    apply (Mapping_obj_get_Some_key key v). apply Schema.obj_get_set_eq.
  - rewrite decide_False by exact Hnot. exact Happ.
Qed.

Lemma assign_entries_keys {V} (es : list (string * V)) : forall o,
  map fst (fold_left (fun o e => Schema.obj_set e.1 e.2 o) es o)
  = fold_left (fun ks k => keys_set k ks) (map fst es) (map fst o).
Proof.
  induction es as [|e rest IH]; intros o; simpl; [reflexivity|].
  rewrite IH, obj_set_keys_set. reflexivity.
Qed.

Lemma assign_keys {V W A} (key : A -> string) (f : A -> V) (g : A -> W) l :
  forall (o : list (string * V)) (o' : list (string * W)),
    map fst o = map fst o' ->
    map fst (fold_left (fun acc a => Schema.obj_set (key a) (f a) acc) l o)
    = map fst (fold_left (fun acc a => Schema.obj_set (key a) (g a) acc) l o').
Proof.
  induction l as [|a rest IH]; intros o o' H; simpl; [exact H|].
  apply IH. rewrite !obj_set_keys_set, H. reflexivity.
Qed.

Lemma assign_keys_present {V A} (key : A -> string) (f : A -> V) l :
  forall (o : list (string * V)) k,
    k ∈ map fst o \/ k ∈ map key l ->
    k ∈ map fst (fold_left (fun acc a => Schema.obj_set (key a) (f a) acc) l o).
Proof.
  induction l as [|a rest IH]; intros o k H; simpl.
  - destruct H as [H|H]; [exact H | apply elem_of_nil in H; contradiction].
  - apply IH. rewrite obj_set_keys_set. unfold keys_set.
    destruct H as [H|H].
    + left. destruct (decide _); [exact H | apply elem_of_app; left; exact H].
    + simpl in H. apply elem_of_cons in H as [->|H]; [|right; exact H].
      left. destruct (decide _) as [Hin|Hnot]; [exact Hin|].
      apply elem_of_app. right. apply list_elem_of_here.
Qed.

(** X23: for one domain and one domain name, the Schema Builder, the
    placeholder resolvers and the resolver factories name the operations
    alike: the Query type, the placeholder Query map and the query
    resolvers have the same keys, in the same order, and so have the
    Mutation type, the placeholder Mutation map and the mutation
    resolvers, and the Subscription type and the subscription resolvers
    (the placeholder Subscription map is empty).  Every action of the
    domain has its mutation, named by the lower-cased domain name followed
    by the capitalized action id, next to the set-field mutation. *)
Theorem operation_names_agree (domain : RootDomain) (domainName : string) :
  map fst (buildQueryType domain domainName) = map fst (createQueryResolvers domainName) /\
  map fst (ph_Query (createPlaceholderResolvers domain domainName))
  = map fst (createQueryResolvers domainName) /\
  map fst (buildMutationType domain domainName)
  = map fst (createMutationResolvers domain domainName) /\
  map fst (ph_Mutation (createPlaceholderResolvers domain domainName))
  = map fst (createMutationResolvers domain domainName) /\
  map fst (buildSubscriptionType domain domainName)
  = map fst (createSubscriptionResolvers domainName) /\
  ph_Subscription (createPlaceholderResolvers domain domainName) = [] /\
  "set" ++ domainName ++ "Field" ∈ map fst (createMutationResolvers domain domainName) /\
  forall actionId,
    actionId ∈ map fst (default [] (rd_actions domain)) ->
    lowerDomainName domainName ++ capitalize actionId
    ∈ map fst (createMutationResolvers domain domainName).
Proof.
  assert (Hq : forall {V W} (a b c d : V) (a' b' c' d' : W) k1 k2 k3 k4,
             map fst (object_of [(k1, a); (k2, b); (k3, c); (k4, d)])
             = map fst (object_of [(k1, a'); (k2, b'); (k3, c'); (k4, d')])).
  { intros. unfold object_of, Schema.fromEntries.
    rewrite !assign_entries_keys. reflexivity. }
  assert (Hs : forall {V W} (a b : V) (a' b' : W) k1 k2,
             map fst (object_of [(k1, a); (k2, b)])
             = map fst (object_of [(k1, a'); (k2, b')])).
  { intros. unfold object_of, Schema.fromEntries.
    rewrite !assign_entries_keys. reflexivity. }
  split; [apply Hq|]. split; [apply Hq|].
  split; [|split; [|split; [apply Hs|split; [reflexivity|]]]].
  - unfold buildMutationType, createMutationResolvers.
    destruct (rd_actions domain) as [actions|]; [|reflexivity].
    apply (assign_keys (fun action => lowerDomainName domainName ++ capitalize action.1)).
    reflexivity.
  - unfold createPlaceholderResolvers, createMutationResolvers. simpl.
    destruct (rd_actions domain) as [actions|]; [|reflexivity].
    apply (assign_keys (fun action => lowerDomainName domainName ++ capitalize action.1)).
    reflexivity.
  - split.
    + unfold createMutationResolvers.
      destruct (rd_actions domain) as [actions|]; [|apply list_elem_of_here].
      apply (assign_keys_present
               (fun action => lowerDomainName domainName ++ capitalize action.1)).
      left. apply list_elem_of_here.
    + intros actionId Hin. unfold createMutationResolvers.
      destruct (rd_actions domain) as [actions|];
        [|apply elem_of_nil in Hin; contradiction].
      apply (assign_keys_present
               (fun action => lowerDomainName domainName ++ capitalize action.1)).
      right. simpl in Hin.
      apply list_elem_of_fmap in Hin as (action & -> & Hin).
      apply list_elem_of_fmap. exists action. split; [reflexivity | exact Hin].
Qed.

End Roots.


(* ===================================================================== *)
(** ** SimplePubSub: cancellation by throw, order of delivery, the     *)
(**    registry (GraphQL Context)                                      *)
(* ===================================================================== *)

Module Subscriptions.
Import PubSub.

Section Engine.

Variable user_throws : nat -> JsValue -> bool.

(** *** Cancellation by [throw]. *)




(** *** Order of delivery. *)

Lemma pullValue_length it st :
  length (promises (pullValue it st).2) = S (length (promises st)).
Proof.
  assert (Hres : forall p r s, length (promises (resolve p r s)) = length (promises s)).
  { intros p r s. unfold resolve. destruct (promises s !! p) as [[?|]|]; simpl;
      [reflexivity | apply length_insert | reflexivity]. }
  unfold pullValue. simpl.
  destruct (iterators st !! it) as [i|]; simpl; [|rewrite length_app; simpl; lia].
  destruct (decide _); simpl; [rewrite Hres; simpl; rewrite length_app; simpl; lia|].
  destruct (negb _); simpl; [rewrite Hres; simpl|]; rewrite length_app; simpl; lia.
Qed.

(** Values published while no pull is pending are appended to the push
    queue. *)
Lemma publish_all_enqueues t l1 it k l2 vs : forall st i,
  subscriptions st !! t = Some (l1 ++ IteratorCallback it k :: l2) ->
  Forall (other_than it) l1 -> Forall (other_than it) l2 ->
  iterators st !! it = Some i ->
  pullQueue i = [] ->
  iterators (publish_all user_throws t vs st) !! it
  = Some (set_pushQueue (pushQueue i ++ vs) i).
Proof.
  induction vs as [|v vs IH]; intros st i Hsubs H1 H2 Hi Hq; simpl.
  - rewrite app_nil_r, Hi. f_equal. destruct i; reflexivity.
  - pose proof (publish_enqueues user_throws t v st l1 it k l2 i Hsubs H1 H2 Hi Hq) as Hi1.
    unfold publish_all in *. simpl.
    rewrite (IH (publish user_throws t v st) (set_pushQueue (pushQueue i ++ [v]) i));
      try assumption.
    + simpl. rewrite <- app_assoc. reflexivity.
    + rewrite publish_subscriptions. exact Hsubs.
Qed.

(** Pulls on a push queue of values other than [undefined] resolve with
    them, first in first out. *)
Lemma buffered_pulls t it vs : forall st i,
  iterators st !! it = Some i ->
  pushQueue i = vs ->
  Forall (fun v => v <> JUndefined) vs ->
  map (fun p => promises (run_ops user_throws t it (replicate (length vs) OpNext) st).2 !! p)
      (run_ops user_throws t it (replicate (length vs) OpNext) st).1
  = map (fun v => Some (Some (mkResult v false))) vs /\
  iterators (run_ops user_throws t it (replicate (length vs) OpNext) st).2 !! it
  = Some (set_pushQueue [] i).
Proof.
  induction vs as [|v vs IH]; intros st i Hi Hq Hall; simpl.
  - split; [reflexivity|]. rewrite Hi. f_equal. destruct i; simpl in *. subst. reflexivity.
  - inversion Hall as [|? ? Hv Hrest]; subst.
    destruct (pullValue_delivers it st i v vs Hi Hq Hv) as (Hp & Hres & Hit).
    unfold iterator_next.
    pose proof (run_ops_settled user_throws t it (replicate (length vs) OpNext)
                  (pullValue it st).2 (pullValue it st).1 (mkResult v false)) as Hkeep.
    specialize (IH (pullValue it st).2 (set_pushQueue vs i)).
    destruct (pullValue it st) as [p st1]. simpl in *.
    destruct IH as [IH1 IH2]; [| reflexivity | exact Hrest |].
    { rewrite Hit. apply list_lookup_insert_eq. apply lookup_lt_Some in Hi. exact Hi. }
    destruct (run_ops user_throws t it (replicate (length vs) OpNext) st1) as [ps st2].
    simpl in *. split; [|exact IH2].
    f_equal; [|exact IH1]. apply Hkeep. rewrite Hp. exact Hres.
Qed.

(** A publish that finds a pull pending on the iterator resolves the oldest
    one and leaves the promises of the others alone. *)
Lemma publish_serves t v st l1 it k l2 i p rest :
  subscriptions st !! t = Some (l1 ++ IteratorCallback it k :: l2) ->
  Forall (other_than it) l1 -> Forall (other_than it) l2 ->
  iterators st !! it = Some i ->
  pullQueue i = p :: rest ->
  promises st !! p = Some None ->
  avoided p it st ->
  iterators (publish user_throws t v st) !! it = Some (set_pullQueue rest i) /\
  forall q, q <> p -> avoided q it st ->
    promises (publish user_throws t v st) !! q = promises st !! q /\
    avoided q it (publish user_throws t v st).
Proof.
  intros Hsubs H1 H2 Hi Hq Hp Hav. unfold publish. rewrite Hsubs, foldl_app. simpl.
  pose proof (foldl_invoke_others user_throws v l1 it H1 st) as Hia. rewrite Hi in Hia.
  destruct (foldl_invoke_others_promise user_throws v l1 it p H1 st Hav) as [Hpa _].
  rewrite Hp in Hpa.
  destruct (pushValue_resolves it v _ i p rest Hia Hq Hpa) as [Hib Hpb].
  split.
  - rewrite (foldl_invoke_others user_throws v l2 it H2), Hib.
    apply list_lookup_insert_eq. apply lookup_lt_Some in Hia. exact Hia.
  - intros q Hne Havq.
    destruct (foldl_invoke_others_promise user_throws v l1 it q H1 st Havq) as [Hqa Havqa].
    assert (Havqb : avoided q it (pushValue it v (foldl (invoke user_throws v) st l1))).
    { eapply avoided_insert; [exact Havqa | exact Hib]. }
    destruct (foldl_invoke_others_promise user_throws v l2 it q H2 _ Havqb) as [Hqc Havqc].
    split; [|exact Havqc].
    rewrite Hqc, Hpb, list_lookup_insert_ne by congruence. exact Hqa.
Qed.

Lemma publish_all_settled t vs q x : forall st,
  promises st !! q = Some (Some x) ->
  promises (publish_all user_throws t vs st) !! q = Some (Some x).
Proof.
  unfold publish_all.
  induction vs as [|v vs IH]; intros st H; simpl; [exact H|].
  apply IH, publish_settled, H.
Qed.

(** Pending pulls are served by the following publishes, first in first
    out, whatever the values. *)
Lemma pending_served t l1 it k l2 vs : forall st i ps,
  subscriptions st !! t = Some (l1 ++ IteratorCallback it k :: l2) ->
  Forall (other_than it) l1 -> Forall (other_than it) l2 ->
  iterators st !! it = Some i ->
  pullQueue i = ps ->
  length ps = length vs ->
  NoDup ps ->
  Forall (fun p => promises st !! p = Some None /\ avoided p it st) ps ->
  map (fun p => promises (publish_all user_throws t vs st) !! p) ps
  = map (fun v => Some (Some (mkResult v false))) vs.
Proof.
  induction vs as [|v vs IH]; intros st i ps Hsubs H1 H2 Hi Hq Hlen Hnd Hall.
  - destruct ps; [reflexivity | discriminate].
  - destruct ps as [|p rest]; [discriminate|].
    apply NoDup_cons in Hnd as [Hnotin Hnd'].
    apply Forall_cons in Hall as [[Hp Hav] Hall'].
    destruct (publish_serves t v st l1 it k l2 i p rest Hsubs H1 H2 Hi Hq Hp Hav)
      as [Hi1 Hrest].
    pose proof (publish_resolves user_throws t v st l1 it k l2 i p rest
                  Hsubs H1 H2 Hi Hq Hp Hav) as Hres.
    change (publish_all user_throws t (v :: vs) st)
      with (publish_all user_throws t vs (publish user_throws t v st)).
    simpl. f_equal.
    + apply publish_all_settled, Hres.
    + apply (IH _ (set_pullQueue rest i)); try assumption.
      * rewrite publish_subscriptions. exact Hsubs.
      * reflexivity.
      * simpl in Hlen. lia.
      * apply Forall_forall. intros q Hin.
        rewrite Forall_forall in Hall'. destruct (Hall' q Hin) as [Hq1 Hq2].
        assert (Hne : q <> p) by (intros ->; contradiction).
        destruct (Hrest q Hne Hq2) as [Hq3 Hq4].
        split; [rewrite Hq3; exact Hq1 | exact Hq4].
Qed.

(** *** The registry: the two maps and the id counter. *)

Definition registry (st : State)
  : gmap string (list Callback) * gmap nat (string * Callback) * nat :=
  (subscriptions st, subscriptionIds st, nextId st).

Definition registry_ok (st : State) : Prop :=
  0 < nextId st /\
  (forall id x, subscriptionIds st !! id = Some x -> 0 < id < nextId st) /\
  (forall t subs, subscriptions st !! t = Some subs ->
     subs <> [] /\ NoDup subs /\
     forall cb, cb ∈ subs -> exists id, subscriptionIds st !! id = Some (t, cb)).

Lemma registry_ok_same st st' : registry st' = registry st -> registry_ok st -> registry_ok st'.
Proof.
  unfold registry, registry_ok. intros H. inversion H as [[H1 H2 H3]].
  rewrite H1, H2, H3. trivial.
Qed.

Lemma registry_resolve p r st : registry (resolve p r st) = registry st.
Proof. unfold resolve. destruct (promises st !! p) as [[?|]|]; reflexivity. Qed.

Lemma registry_pushValue it v st : registry (pushValue it v st) = registry st.
Proof.
  unfold pushValue. destruct (iterators st !! it) as [i|]; [|reflexivity].
  destruct (pullQueue i); [reflexivity|]. rewrite registry_resolve. reflexivity.
Qed.

Lemma registry_publish t payload st : registry (publish user_throws t payload st) = registry st.
Proof.
  unfold publish. destruct (subscriptions st !! t) as [subs|]; [|reflexivity].
  revert st. induction subs as [|cb rest IH]; intros st; simpl; [reflexivity|].
  rewrite IH. destruct cb as [fn|it k]; simpl.
  - destruct (user_throws fn payload); reflexivity.
  - apply registry_pushValue.
Qed.

Lemma registry_pullValue it st : registry (pullValue it st).2 = registry st.
Proof.
  unfold pullValue. simpl. destruct (iterators st !! it) as [i|]; [|reflexivity].
  destruct (decide _); simpl; [rewrite registry_resolve; reflexivity|].
  destruct (negb _); simpl; [rewrite registry_resolve; reflexivity | reflexivity].
Qed.

Lemma registry_resolve_all ps r st : registry (resolve_all ps r st) = registry st.
Proof.
  unfold resolve_all. revert st.
  induction ps as [|p ps IH]; intros st; simpl; [reflexivity|].
  rewrite IH. apply registry_resolve.
Qed.

Lemma set_add_spec cb s x : x ∈ set_add cb s <-> x = cb \/ x ∈ s.
Proof.
  unfold set_add. destruct (decide (cb ∈ s)) as [Hin|Hnot].
  - split; [auto | intros [->|H]; assumption].
  - rewrite elem_of_app, list_elem_of_singleton. tauto.
Qed.

Lemma set_add_NoDup cb s : NoDup s -> NoDup (set_add cb s).
Proof.
  intros H. unfold set_add. destruct (decide (cb ∈ s)) as [Hin|Hnot]; [exact H|].
  apply NoDup_app. split; [exact H|]. split; [|apply NoDup_singleton].
  intros x Hx Hx'. apply list_elem_of_singleton in Hx'. subst x. contradiction.
Qed.

Lemma set_delete_spec cb s x : x ∈ set_delete cb s <-> x <> cb /\ x ∈ s.
Proof. unfold set_delete. rewrite list_elem_of_filter. tauto. Qed.

Lemma registry_ok_subscribe t cb st :
  registry_ok st -> registry_ok (subscribe t cb st).2.
Proof.
  intros (Hpos & Hids & Hsubs). unfold subscribe, registry_ok. simpl.
  split; [lia|]. split.
  - intros id x H. destruct (decide (id = nextId st)) as [->|Hne]; [lia|].
    rewrite lookup_insert_ne in H by congruence.
    specialize (Hids id x H). lia.
  - intros t' subs H. destruct (decide (t' = t)) as [->|Hne].
    + rewrite lookup_insert_eq in H. inversion H as [Heq]. clear H.
      assert (Hold : forall x, x ∈ default [] (subscriptions st !! t) ->
                exists id, id <> nextId st /\ subscriptionIds st !! id = Some (t, x)).
      { intros x Hx. destruct (subscriptions st !! t) as [s|] eqn:E; simpl in Hx.
        - destruct (Hsubs t s E) as (_ & _ & Hreg).
          destruct (Hreg x Hx) as [id Hid]. exists id. split; [|exact Hid].
          specialize (Hids id _ Hid). lia.
        - apply elem_of_nil in Hx. contradiction. }
      split; [|split].
      * intros Hnil. assert (Hin : cb ∈ set_add cb (default [] (subscriptions st !! t)))
          by (apply set_add_spec; left; reflexivity).
        rewrite Hnil in Hin. apply elem_of_nil in Hin. exact Hin.
      * apply set_add_NoDup.
        destruct (subscriptions st !! t) as [s|] eqn:E; simpl; [|apply NoDup_nil_2].
        apply (Hsubs t s E).
      * intros x Hx. apply set_add_spec in Hx as [->|Hx].
        -- exists (nextId st). apply lookup_insert_eq.
        -- destruct (Hold x Hx) as (id & Hne & Hid). exists id.
           rewrite lookup_insert_ne by congruence. exact Hid.
    + rewrite lookup_insert_ne in H by congruence.
      destruct (Hsubs t' subs H) as (Hne' & Hnd & Hreg).
      split; [exact Hne'|]. split; [exact Hnd|].
      intros x Hx. destruct (Hreg x Hx) as [id Hid]. exists id.
      rewrite lookup_insert_ne; [exact Hid|].
      specialize (Hids id _ Hid). lia.
Qed.

Lemma registry_ok_unsubscribe subId st :
  registry_ok st -> registry_ok (unsubscribe subId st).
Proof.
  intros (Hpos & Hids & Hsubs). unfold unsubscribe.
  destruct (subscriptionIds st !! subId) as [[t cb]|] eqn:Eid; [|unfold registry_ok; auto].
  assert (Hids' : forall st1, nextId st1 = nextId st -> subscriptionIds st1 = subscriptionIds st ->
            forall id x, delete subId (subscriptionIds st1) !! id = Some x -> 0 < id < nextId st1).
  { intros st1 Hn Hs id x H. rewrite Hn, Hs in *. apply lookup_delete_Some in H as [_ H].
    apply (Hids id x H). }
  assert (Hkeep : forall t' x id, subscriptionIds st !! id = Some (t', x) ->
            (t', x) <> (t, cb) -> delete subId (subscriptionIds st) !! id = Some (t', x)).
  { intros t' x id H Hne. apply lookup_delete_Some. split; [|exact H].
    intros <-. rewrite Eid in H. inversion H. subst. apply Hne. reflexivity. }
  destruct (subscriptions st !! t) as [subs|] eqn:Esubs.
  - destruct (decide (length (set_delete cb subs) = 0)) as [Hz|Hnz]; unfold registry_ok; simpl.
    + split; [exact Hpos|]. split; [apply (Hids' st); reflexivity|].
      intros t' s H. apply lookup_delete_Some in H as [Hne H].
      destruct (Hsubs t' s H) as (Hne' & Hnd & Hreg).
      split; [exact Hne'|]. split; [exact Hnd|].
      intros x Hx. destruct (Hreg x Hx) as [id Hid]. exists id.
      apply Hkeep; [exact Hid | congruence].
    + split; [exact Hpos|]. split; [apply (Hids' st); reflexivity|].
      intros t' s H. destruct (decide (t' = t)) as [->|Hne].
      * rewrite lookup_insert_eq in H. inversion H as [Heq]. clear H.
        destruct (Hsubs t subs Esubs) as (_ & Hnd & Hreg).
        split; [|split].
        -- intros Hnil. rewrite Hnil in Hnz. apply Hnz. reflexivity.
        -- apply NoDup_filter, Hnd.
        -- intros x Hx. apply set_delete_spec in Hx as [Hxne Hx].
           destruct (Hreg x Hx) as [id Hid]. exists id.
           apply Hkeep; [exact Hid | congruence].
      * rewrite lookup_insert_ne in H by congruence.
        destruct (Hsubs t' s H) as (Hne' & Hnd & Hreg).
        split; [exact Hne'|]. split; [exact Hnd|].
        intros x Hx. destruct (Hreg x Hx) as [id Hid]. exists id.
        apply Hkeep; [exact Hid | congruence].
  - unfold registry_ok; simpl.
    split; [exact Hpos|]. split; [apply (Hids' st); reflexivity|].
    intros t' s H. destruct (Hsubs t' s H) as (Hne' & Hnd & Hreg).
    split; [exact Hne'|]. split; [exact Hnd|].
    intros x Hx. destruct (Hreg x Hx) as [id Hid]. exists id.
    apply Hkeep; [exact Hid|]. intros Heq. inversion Heq. subst. congruence.
Qed.

Lemma registry_ok_unsubscribe_all ids st :
  registry_ok st -> registry_ok (unsubscribe_all ids st).
Proof.
  unfold unsubscribe_all. revert st.
  induction ids as [|id ids IH]; intros st H; simpl; [exact H|].
  apply IH, registry_ok_unsubscribe, H.
Qed.

Lemma registry_ok_subscribe_triggers it triggers : forall k st,
  registry_ok st -> registry_ok (subscribe_triggers it k triggers st).
Proof.
  induction triggers as [|t rest IH]; intros k st H; [exact H|].
  cbn [subscribe_triggers].
  pose proof (registry_ok_subscribe t (IteratorCallback it k) st H) as H1.
  destruct (subscribe t (IteratorCallback it k) st) as [id st1]. simpl in H1.
  apply IH. destruct (iterators st1 !! it); [|exact H1].
  eapply registry_ok_same; [|exact H1]. reflexivity.
Qed.

Lemma registry_ok_step st c : registry_ok st -> registry_ok (step user_throws st c).
Proof.
  intros H. destruct c; simpl.
  - apply registry_ok_subscribe, H.
  - apply registry_ok_unsubscribe, H.
  - eapply registry_ok_same; [apply registry_publish | exact H].
  - unfold asyncIterator. simpl. apply registry_ok_subscribe_triggers.
    eapply registry_ok_same; [|exact H]. reflexivity.
  - eapply registry_ok_same; [|exact H]. reflexivity.
  - eapply registry_ok_same; [apply registry_pullValue | exact H].
  - unfold iterator_return. destruct (iterators st !! it); [|exact H].
    eapply registry_ok_same; [apply registry_resolve_all|].
    apply registry_ok_unsubscribe_all.
    eapply registry_ok_same; [|exact H]. reflexivity.
  - unfold iterator_throw. destruct (iterators st !! it); [|exact H].
    apply registry_ok_unsubscribe_all.
    eapply registry_ok_same; [|exact H]. reflexivity.
  - unfold clear, registry_ok. simpl. split; [lia|]. split.
    + intros id x Hx. rewrite lookup_empty in Hx. discriminate.
    + intros t subs Hx. rewrite lookup_empty in Hx. discriminate.
Qed.

Lemma reachable_registry_ok st : reachable user_throws st -> registry_ok st.
Proof.
  intros [calls ->].
  assert (H0 : registry_ok init).
  { unfold registry_ok, init. simpl. split; [lia|]. split.
    - intros id x Hx. rewrite lookup_empty in Hx. discriminate.
    - intros t subs Hx. rewrite lookup_empty in Hx. discriminate. }
  revert H0. generalize init.
  induction calls as [|c rest IH]; intros st H; simpl; [exact H|].
  apply IH, registry_ok_step, H.
Qed.

End Engine.


(** Two pulls parked on a fresh iterator over "t". *)
Definition two_pending : list nat * State :=
  run_ops (fun _ _ => false) "t" 0 (replicate 2 OpNext) fresh_iterator.


(** X25: delivery through an iterator over [[t]] created in any reachable
    engine state is first in, first out.  Values other than [undefined]
    published before any pull are handed to the following pulls in
    publication order; pulls made before any value are resolved by the
    following publishes in the order the pulls were made, and a pending
    pull takes whatever value is published, [undefined] included. *)
Theorem iterator_delivery_order
    (user_throws : nat -> JsValue -> bool) (st0 : State) (t : string) (vs : list JsValue) :
  reachable user_throws st0 ->
  let it := (asyncIterator [t] st0).1 in
  let st := run_microtasks (asyncIterator [t] st0).2 in
  (Forall (fun v => v <> JUndefined) vs ->
   let pulls := run_ops user_throws t it (replicate (length vs) OpNext)
                  (publish_all user_throws t vs st) in
   map (fun p => promises pulls.2 !! p) pulls.1
   = map (fun v => Some (Some (mkResult v false))) vs) /\
  (let pending := run_ops user_throws t it (replicate (length vs) OpNext) st in
   map (fun p => promises (publish_all user_throws t vs pending.2) !! p) pending.1
   = map (fun v => Some (Some (mkResult v false))) vs).
Proof.
  intros Hreach. cbv zeta.
  assert (Hwf0 : wf st0) by (apply (reachable_wf user_throws), Hreach).
  assert (Hwf : wf (run_microtasks (asyncIterator [t] st0).2))
    by (apply wf_run_microtasks, wf_asyncIterator, Hwf0).
  pose proof (wf_others t st0 Hwf0) as Hothers.
  destruct (asyncIterator_single t st0 Hwf0) as (-> & Hi & Hsubs & Hid & Hpr).
  set (it := length (iterators st0)) in *.
  set (st := run_microtasks (asyncIterator [t] st0).2) in *.
  set (i0 := mkIter [] [] true [nextId st0] []) in *.
  set (l1 := subscribers_of t st0) in *.
  assert (Hlt : it < length (iterators st)) by (apply lookup_lt_Some in Hi; exact Hi).
  assert (Hnil : Forall (other_than it) (@nil Callback)) by constructor.
  split.
  - intros Hall.
    pose proof (publish_all_enqueues user_throws t l1 it 0 [] vs st i0
                  Hsubs Hothers Hnil Hi eq_refl) as Hi1.
    apply (buffered_pulls user_throws t it vs _ _ Hi1 eq_refl Hall).
  - destruct (parked_pulls user_throws t it (length vs) st i0 Hi eq_refl eq_refl)
      as (Hps & Hprn & Hitn & Hsubn & Hidn).
    rewrite Hps.
    apply (pending_served user_throws t l1 it 0 [] vs _
             (set_pullQueue (seq (length (promises st)) (length vs)) i0)).
    + rewrite Hsubn. exact Hsubs.
    + exact Hothers.
    + exact Hnil.
    + rewrite Hitn. apply list_lookup_insert_eq, Hlt.
    + reflexivity.
    + apply length_seq.
    + apply NoDup_seq.
    + apply Forall_forall. intros p Hp. apply elem_of_seq in Hp. split.
      * rewrite Hprn, lookup_app_r by lia.
        apply lookup_replicate. split; [reflexivity | lia].
      * eapply avoided_insert; [|exact Hitn].
        apply avoided_fresh; [exact Hwf | lia].
Qed.

Lemma iterator_delivery_order_witness :
  (Forall (fun v => v <> JUndefined) [JNumber 1; JNull] ->
   map (fun p => promises
                   (run_ops (fun _ _ => false) "t" 0 (replicate 2 OpNext)
                      (publish_all (fun _ _ => false) "t" [JNumber 1; JNull]
                         fresh_iterator)).2 !! p)
       (run_ops (fun _ _ => false) "t" 0 (replicate 2 OpNext)
          (publish_all (fun _ _ => false) "t" [JNumber 1; JNull] fresh_iterator)).1
   = [Some (Some (mkResult (JNumber 1) false)); Some (Some (mkResult JNull false))]) /\
  map (fun p => promises (publish_all (fun _ _ => false) "t" [JNumber 1; JNull]
                            two_pending.2) !! p)
      two_pending.1
  = [Some (Some (mkResult (JNumber 1) false)); Some (Some (mkResult JNull false))].
Proof.
  destruct (iterator_delivery_order (fun _ _ => false) init "t" [JNumber 1; JNull]
              (ex_intro _ [] eq_refl)) as [Ha Hb].
  split; [exact Ha | exact Hb].
Defined.

(** X26: in every state an engine can reach from the empty one: each
    registered id is at least 1 and below [nextId], so the id the next
    [subscribe] returns is not in use; no trigger is kept with an empty
    subscriber set; no subscriber set holds a callback twice; and every
    callback of a set has a registered id, so it can be unsubscribed. *)
Theorem registry_invariants (user_throws : nat -> JsValue -> bool) (st : State) :
  reachable user_throws st ->
  (forall id x, subscriptionIds st !! id = Some x -> 0 < id < nextId st) /\
  (forall t cb, subscriptionIds st !! (subscribe t cb st).1 = None) /\
  (forall t subs, subscriptions st !! t = Some subs ->
     subs <> [] /\ NoDup subs /\
     forall cb, cb ∈ subs -> exists id, subscriptionIds st !! id = Some (t, cb)).
Proof.
  intros Hreach.
  destruct (reachable_registry_ok user_throws st Hreach) as (Hpos & Hids & Hsubs).
  split; [exact Hids|]. split; [|exact Hsubs].
  intros t cb. unfold subscribe. simpl.
  destruct (subscriptionIds st !! nextId st) as [x|] eqn:E; [|reflexivity].
  specialize (Hids _ _ E). lia.
Qed.

Lemma registry_invariants_witness :
  (forall id x, subscriptionIds two_subscribers !! id = Some x ->
                0 < id < nextId two_subscribers) /\
  (forall t cb, subscriptionIds two_subscribers !! (subscribe t cb two_subscribers).1 = None) /\
  (forall t subs, subscriptions two_subscribers !! t = Some subs ->
     subs <> [] /\ NoDup subs /\
     forall cb, cb ∈ subs -> exists id, subscriptionIds two_subscribers !! id = Some (t, cb)).
Proof.
  exact (registry_invariants (fun _ _ => false) two_subscribers
           (ex_intro _ [CallSubscribe "t" 1; CallSubscribe "t" 2] eq_refl)).
Defined.

(** X27: after [clear()], publishes on any trigger and [unsubscribe] of any id
    change nothing, and iterators and pending pulls are left as they were
    (a pull pending at the time is not resolved).  Ids start again at 1:
    the first subscription after [clear()] gets id 1, so [unsubscribe(1)]
    removes it, and so does [return()] on an iterator made before the
    [clear()] that had recorded id 1. *)
Theorem clear_forgets_and_recycles_ids
    (user_throws : nat -> JsValue -> bool) (st : State) :
  (forall t payloads, publish_all user_throws t payloads (clear st) = clear st) /\
  (forall subId, unsubscribe subId (clear st) = clear st) /\
  promises (clear st) = promises st /\
  iterators (clear st) = iterators st /\
  (forall t cb,
     (subscribe t cb (clear st)).1 = 1 /\
     subscriptions (unsubscribe 1 (subscribe t cb (clear st)).2) !! t = None) /\
  (forall it i t fn,
     iterators st !! it = Some i ->
     1 ∈ iterSubscriptionIds i ->
     UserCallback fn
     ∉ subscribers_of t (iterator_return it (subscribe t (UserCallback fn) (clear st)).2)).
Proof.
  assert (Hid : forall t cb,
            subscriptionIds (subscribe t cb (clear st)).2 !! 1 = Some (t, cb)).
  { intros t cb. unfold subscribe, clear. simpl. apply lookup_insert_eq. }
  split; [|split; [|split; [|split; [|split]]]].
  - intros t payloads. unfold publish_all.
    induction payloads as [|p ps IH]; simpl; [reflexivity|].
    unfold publish at 2. simpl. rewrite lookup_empty. exact IH.
  - intros subId. unfold unsubscribe, clear. simpl. rewrite lookup_empty. reflexivity.
  - reflexivity.
  - reflexivity.
  - intros t cb. split; [reflexivity|].
    apply (unsubscribe_last 1 t cb); [apply Hid|].
    unfold subscribe, clear. simpl. rewrite lookup_insert_eq, lookup_empty. simpl.
    unfold set_add. rewrite decide_False by apply not_elem_of_nil. reflexivity.
  - intros it i t fn Hi Hin.
    destruct (iterator_return_spec it (subscribe t (UserCallback fn) (clear st)).2 i)
      as (_ & Hgone & _); [exact Hi|].
    destruct (Hgone 1 Hin) as [_ Hcb]. apply Hcb, Hid.
Qed.

End Subscriptions.


(* ===================================================================== *)
(** ** The context factory and the trigger names (GraphQL Context)     *)
(* ===================================================================== *)

Module Context.
Import Schema.
Local Open Scope string_scope.

(** What a context field can hold: [undefined], [null], a string, or an
    object known by reference (the runtime, the domain, a pubsub engine, a
    user). *)
Inductive CtxValue :=
| CUndefined
| CNull
| CString (s : string)
| CObject (ref : nat).

(** [ContextOptions]: an absent [pubsub] or [user] reads [undefined]. *)
Record ContextOptions := mkOptions {
  opt_pubsub : CtxValue;
  opt_user : CtxValue;
  opt_extras : option (list (string * CtxValue))
}.

(** The default [{}] of an omitted options argument. *)
Definition no_options : ContextOptions := mkOptions CUndefined CUndefined None.

Definition nullish (v : CtxValue) : bool :=
  match v with
  | CUndefined | CNull => true
  | _ => false
  end.

(** [a ?? b] *)
Definition coalesce (a b : CtxValue) : CtxValue := if nullish a then b else a.

(** [{...target, ...source}]: the own properties of [source] are assigned in
    order; spreading [undefined] adds nothing. *)
Definition spread {V} (target : list (string * V)) (source : option (list (string * V)))
  : list (string * V) :=
  match source with
  | Some entries => fold_left (fun o e => obj_set e.1 e.2 o) entries target
  | None => target
  end.

(** The fields the context literal lists before the spread of the extras. *)
Definition context_fields (runtime domain : CtxValue) (requestId : string)
    (options : ContextOptions) : list (string * CtxValue) :=
  [("runtime", runtime); ("domain", domain); ("requestId", CString requestId);
   ("pubsub", opt_pubsub options); ("user", opt_user options)].

(** [createGraphQLContext(runtime, domain, options)]; [requestId] is the
    string [generateRequestId()] returns at this call. *)
Definition createGraphQLContext (runtime domain : CtxValue) (options : ContextOptions)
    (requestId : string) : list (string * CtxValue) :=
  spread (context_fields runtime domain requestId options) (opt_extras options).

(** The function returned by [createContextFactory(runtime, domain,
    baseOptions)], applied to [requestOptions]. *)
Definition createContextFactory (runtime domain : CtxValue) (baseOptions : ContextOptions)
    (requestOptions : ContextOptions) (requestId : string) : list (string * CtxValue) :=
  let mergedOptions :=
    mkOptions (coalesce (opt_pubsub requestOptions) (opt_pubsub baseOptions))
              (coalesce (opt_user requestOptions) (opt_user baseOptions))
              (Some (spread (spread [] (opt_extras baseOptions))
                            (opt_extras requestOptions))) in
  createGraphQLContext runtime domain mergedOptions requestId.

(** Reading a property: a missing one reads [undefined]. *)
Definition prop (key : string) (o : list (string * CtxValue)) : CtxValue :=
  match obj_get key o with
  | Some v => v
  | None => CUndefined
  end.

Definition getPubSubFromContext (context : list (string * CtxValue)) : CtxValue :=
  prop "pubsub" context.

Definition getUserFromContext (context : list (string * CtxValue)) : CtxValue :=
  prop "user" context.

Definition isAuthenticated (context : list (string * CtxValue)) : bool :=
  negb (nullish (prop "user" context)).

(** The entry of an extras object, if any. *)
Definition extra (key : string) (options : ContextOptions) : option CtxValue :=
  match opt_extras options with
  | Some entries => obj_get key entries
  | None => None
  end.

Definition distinct_keys (options : ContextOptions) : Prop :=
  match opt_extras options with
  | Some entries => NoDup (map fst entries)
  | None => True
  end.

Lemma spread_lookup {V} k (source : list (string * V)) : forall target,
  NoDup (map fst source) ->
  obj_get k (spread target (Some source))
  = match obj_get k source with
    | Some v => Some v
    | None => obj_get k target
    end.
Proof.
  unfold spread.
  induction source as [|[k' v'] rest IH]; intros target Hnd; [reflexivity|].
  change (map fst ((k', v') :: rest)) with (k' :: map fst rest) in Hnd.
  apply NoDup_cons in Hnd as [Hk Hnd].
  cbn [fold_left obj_get fst snd]. rewrite (IH _ Hnd).
  destruct (String.eqb k' k) eqn:E.
  - apply String.eqb_eq in E. subst k'.
    apply obj_get_None in Hk. rewrite Hk. apply obj_get_set_eq.
  - apply String.eqb_neq in E.
    destruct (obj_get k rest); [reflexivity|].
    apply obj_get_set_ne, E.
Qed.

Lemma spread_keys_NoDup {V} (source : option (list (string * V))) : forall target,
  NoDup (map fst target) -> NoDup (map fst (spread target source)).
Proof.
  destruct source as [entries|]; simpl; [|trivial].
  induction entries as [|e rest IH]; intros target H; simpl; [exact H|].
  apply IH, obj_set_NoDup, H.
Qed.

Lemma spread_option_lookup k (options : ContextOptions) target :
  distinct_keys options ->
  obj_get k (spread target (opt_extras options))
  = match extra k options with
    | Some v => Some v
    | None => obj_get k target
    end.
Proof.
  unfold distinct_keys, extra. destruct (opt_extras options) as [entries|]; intros H.
  - apply spread_lookup, H.
  - reflexivity.
Qed.

(** X28: the context a factory makes reads each key from the request's extras
    when they have it, else from the base extras, else from the built-in
    fields, where [pubsub] and [user] are the request's unless [null] or
    [undefined] and the base's otherwise.  So an extra named [runtime],
    [requestId] or [user] replaces the built-in field; and when no extra is
    named [user], the context is authenticated exactly when the request or
    the base brings a user: a request cannot drop the base user by passing
    [null]. *)
Theorem context_field_precedence
    (runtime domain : CtxValue) (baseOptions requestOptions : ContextOptions)
    (requestId key : string) :
  distinct_keys baseOptions ->
  distinct_keys requestOptions ->
  let context := createContextFactory runtime domain baseOptions requestOptions requestId in
  obj_get key context
  = match extra key requestOptions, extra key baseOptions with
    | Some v, _ => Some v
    | None, Some v => Some v
    | None, None =>
        obj_get key
          [("runtime", runtime); ("domain", domain); ("requestId", CString requestId);
           ("pubsub", coalesce (opt_pubsub requestOptions) (opt_pubsub baseOptions));
           ("user", coalesce (opt_user requestOptions) (opt_user baseOptions))]
    end /\
  (extra "user" requestOptions = None -> extra "user" baseOptions = None ->
   isAuthenticated context
   = negb (nullish (opt_user requestOptions)) || negb (nullish (opt_user baseOptions))).
Proof.
  intros Hb Hr. cbv zeta.
  assert (Hm : NoDup (map fst (spread (spread [] (opt_extras baseOptions))
                                      (opt_extras requestOptions)))).
  { apply spread_keys_NoDup, spread_keys_NoDup. constructor. }
  assert (Hget : forall k,
            obj_get k (createContextFactory runtime domain baseOptions requestOptions requestId)
            = match extra k requestOptions, extra k baseOptions with
              | Some v, _ => Some v
              | None, Some v => Some v
              | None, None =>
                  obj_get k
                    [("runtime", runtime); ("domain", domain);
                     ("requestId", CString requestId);
                     ("pubsub", coalesce (opt_pubsub requestOptions) (opt_pubsub baseOptions));
                     ("user", coalesce (opt_user requestOptions) (opt_user baseOptions))]
              end).
  { intros k. unfold createContextFactory, createGraphQLContext.
    cbn [opt_extras opt_pubsub opt_user context_fields].
    rewrite (spread_lookup k _ _ Hm).
    rewrite (spread_option_lookup k requestOptions _ Hr).
    rewrite (spread_option_lookup k baseOptions _ Hb).
    destruct (extra k requestOptions); [reflexivity|].
    destruct (extra k baseOptions); reflexivity. }
  split; [apply Hget|].
  intros H1 H2. unfold isAuthenticated, prop. rewrite (Hget "user"), H1, H2.
  cbn [obj_get String.eqb Ascii.eqb Bool.eqb].
  unfold coalesce.
  destruct (nullish (opt_user requestOptions)) eqn:E; [reflexivity|].
  rewrite E. reflexivity.
Qed.

(** A base with a user and an extra [tenant]; a request that passes
    [user: null] and overrides [requestId] through its extras. *)
Definition base_options : ContextOptions :=
  mkOptions (CObject 3) (CObject 4) (Some [("tenant", CString "acme")]).

Definition request_options : ContextOptions :=
  mkOptions CUndefined CNull (Some [("requestId", CString "mine")]).

Lemma context_field_precedence_witness :
  obj_get "requestId"
    (createContextFactory (CObject 1) (CObject 2) base_options request_options "abc-def")
  = Some (CString "mine") /\
  isAuthenticated
    (createContextFactory (CObject 1) (CObject 2) base_options request_options "abc-def")
  = true.
Proof.
  destruct (context_field_precedence (CObject 1) (CObject 2) base_options request_options
              "abc-def" "requestId") as [H1 H2];
    [repeat constructor; apply not_elem_of_nil | repeat constructor; apply not_elem_of_nil |].
  split; [rewrite H1; reflexivity | rewrite H2; reflexivity].
Defined.

(** *** Trigger names. *)

Lemma append_length (s1 s2 : string) :
  String.length (s1 ++ s2) = String.length s1 + String.length s2.
Proof.
  induction s1 as [|c r IH]; [reflexivity|].
  change (S (String.length (r ++ s2)) = S (String.length r + String.length s2)).
  rewrite IH. reflexivity.
Qed.

Lemma append_cancel_r (s1 s2 t : string) : s1 ++ t = s2 ++ t -> s1 = s2.
Proof.
  intros H.
  assert (Hlen : String.length s1 = String.length s2).
  { apply (f_equal String.length) in H. rewrite !append_length in H. lia. }
  revert s2 H Hlen. induction s1 as [|c r IH]; intros [|c' r'] H Hlen;
    try discriminate; [reflexivity|].
  change (String c (r ++ t) = String c' (r' ++ t)) in H.
  inversion H as [[Hc Hr]]. f_equal. apply IH; [exact Hr|].
  simpl in Hlen. lia.
Qed.

(** X29: for one domain id, the change trigger, the field triggers and the
    action triggers are pairwise different, and different paths, action
    ids and domain ids give different triggers of their kind.  Across
    domains the names can meet: the field trigger of path [x:changed] is
    the change trigger of the domain whose id is this one followed by
    [:field:x]. *)
Theorem trigger_names_of_a_domain (domainId : string) :
  (forall path, Mutations.getFieldChangeTrigger domainId path
                <> Effects.getDomainChangeTrigger domainId) /\
  (forall actionId, Effects.getActionTrigger domainId actionId
                    <> Effects.getDomainChangeTrigger domainId) /\
  (forall path actionId, Mutations.getFieldChangeTrigger domainId path
                         <> Effects.getActionTrigger domainId actionId) /\
  (forall p q, Mutations.getFieldChangeTrigger domainId p
               = Mutations.getFieldChangeTrigger domainId q -> p = q) /\
  (forall a b, Effects.getActionTrigger domainId a
               = Effects.getActionTrigger domainId b -> a = b) /\
  (forall other, Effects.getDomainChangeTrigger domainId
                 = Effects.getDomainChangeTrigger other -> domainId = other) /\
  Mutations.getFieldChangeTrigger domainId "x:changed"
  = Effects.getDomainChangeTrigger (domainId ++ ":field:x").
Proof.
  unfold Mutations.getFieldChangeTrigger, Effects.getDomainChangeTrigger,
    Effects.getActionTrigger.
  split; [|split; [|split; [|split; [|split; [|split]]]]].
  - intros path H. apply String.app_inj in H. discriminate.
  - intros actionId H. apply String.app_inj in H. discriminate.
  - intros path actionId H. apply String.app_inj in H. discriminate.
  - intros p q H. apply String.app_inj in H. apply (String.app_inj ":field:") in H. exact H.
  - intros a b H. apply String.app_inj in H. apply (String.app_inj ":action:") in H. exact H.
  - intros other H. apply append_cancel_r in H. exact H.
  - induction domainId as [|c r IH]; [reflexivity|].
    change (String c (r ++ ":field:" ++ "x:changed")
            = String c ((r ++ ":field:x") ++ ":changed")).
    f_equal. exact IH.
Qed.

End Context.


(* ===================================================================== *)
(** ** String escaping of the directive SDL (Directive Builder)        *)
(* ===================================================================== *)

Module Directives.
Local Open Scope string_scope.

(** The characters [escapeString] looks for, by code. *)
Definition backslash : ascii := ascii_of_nat 92.
Definition double_quote : ascii := ascii_of_nat 34.
Definition line_feed : ascii := ascii_of_nat 10.
Definition carriage_return : ascii := ascii_of_nat 13.
Definition tab : ascii := ascii_of_nat 9.

(** [str.replace(/c/g, replacement)] for a pattern of one character and a
    replacement without [$]. *)
Fixpoint replace_char (c : ascii) (replacement : string) (str : string) : string :=
  match str with
  | EmptyString => EmptyString
  | String x rest =>
      if Ascii.eqb x c
      then replacement ++ replace_char c replacement rest
      else String x (replace_char c replacement rest)
  end.

Definition two (a b : ascii) : string := String a (String b EmptyString).

Definition escapeString (str : string) : string :=
  replace_char tab (two backslash "t")
    (replace_char carriage_return (two backslash "r")
       (replace_char line_feed (two backslash "n")
          (replace_char double_quote (two backslash double_quote)
             (replace_char backslash (two backslash backslash) str)))).

(** A string literal body in which every backslash starts one of the five
    escapes, and no quote, line feed, carriage return or tab stands
    unescaped. *)
Definition special (c : ascii) : bool :=
  Ascii.eqb c backslash || Ascii.eqb c double_quote || Ascii.eqb c line_feed
  || Ascii.eqb c carriage_return || Ascii.eqb c tab.

Definition escape_letter (c : ascii) : bool :=
  Ascii.eqb c backslash || Ascii.eqb c double_quote || Ascii.eqb c "n"
  || Ascii.eqb c "r" || Ascii.eqb c "t".

Fixpoint well_escaped (s : string) : bool :=
  match s with
  | EmptyString => true
  | String c rest =>
      if Ascii.eqb c backslash then
        match rest with
        | String x rest' => escape_letter x && well_escaped rest'
        | EmptyString => false
        end
      else negb (special c) && well_escaped rest
  end.

(** The reading of a well-escaped body. *)
Definition unescape_letter (c : ascii) : ascii :=
  if Ascii.eqb c "n" then line_feed
  else if Ascii.eqb c "r" then carriage_return
  else if Ascii.eqb c "t" then tab
  else c.

Fixpoint unescape (s : string) : string :=
  match s with
  | EmptyString => EmptyString
  | String c rest =>
      if Ascii.eqb c backslash then
        match rest with
        | String x rest' => String (unescape_letter x) (unescape rest')
        | EmptyString => EmptyString
        end
      else String c (unescape rest)
  end.

Lemma append_cons c r s : String c r ++ s = String c (r ++ s).
Proof. reflexivity. Qed.

Lemma append_nil s : EmptyString ++ s = s.
Proof. reflexivity. Qed.

Lemma append_assoc3 (s1 s2 s3 : string) : (s1 ++ s2) ++ s3 = s1 ++ (s2 ++ s3).
Proof.
  induction s1 as [|c r IH]; [reflexivity|].
  rewrite !append_cons, IH. reflexivity.
Qed.

Lemma replace_char_app c b s1 s2 :
  replace_char c b (s1 ++ s2) = replace_char c b s1 ++ replace_char c b s2.
Proof.
  induction s1 as [|x r IH]; [reflexivity|].
  rewrite append_cons. cbn [replace_char]. rewrite IH.
  destruct (Ascii.eqb x c); [|reflexivity].
  symmetry. apply append_assoc3.
Qed.

(** What one character becomes. *)
Definition escape_char (c : ascii) : string :=
  if Ascii.eqb c backslash then two backslash backslash
  else if Ascii.eqb c double_quote then two backslash double_quote
  else if Ascii.eqb c line_feed then two backslash "n"
  else if Ascii.eqb c carriage_return then two backslash "r"
  else if Ascii.eqb c tab then two backslash "t"
  else String c EmptyString.

Lemma escapeString_one c : escapeString (String c EmptyString) = escape_char c.
Proof.
  destruct c as [[] [] [] [] [] [] [] []]; vm_compute; reflexivity.
Qed.

(** The five passes amount to one pass, character by character. *)
Lemma escapeString_cons c r : escapeString (String c r) = escape_char c ++ escapeString r.
Proof.
  rewrite <- escapeString_one.
  change (String c r) with (String c EmptyString ++ r).
  unfold escapeString. rewrite !replace_char_app. reflexivity.
Qed.

Lemma escape_char_cases c :
  (special c = true /\ exists x, escape_char c = two backslash x /\
                                 escape_letter x = true /\ unescape_letter x = c) \/
  (special c = false /\ Ascii.eqb c backslash = false /\ escape_char c = String c EmptyString).
Proof.
  destruct c as [[] [] [] [] [] [] [] []];
    first [ right; vm_compute; repeat split; reflexivity
          | left; split; [reflexivity|]; eexists; vm_compute; repeat split; reflexivity ].
Qed.

Lemma well_escaped_escapeString s : well_escaped (escapeString s) = true.
Proof.
  induction s as [|c r IH]; [reflexivity|].
  rewrite escapeString_cons.
  destruct (escape_char_cases c) as [(_ & x & -> & Hx & _)|(Hs & Hb & ->)].
  - unfold two. rewrite !append_cons, append_nil.
    cbn [well_escaped]. rewrite Ascii.eqb_refl, Hx, IH. reflexivity.
  - rewrite append_cons, append_nil. cbn [well_escaped]. rewrite Hb, Hs, IH. reflexivity.
Qed.

Lemma unescape_escapeString s : unescape (escapeString s) = s.
Proof.
  induction s as [|c r IH]; [reflexivity|].
  rewrite escapeString_cons.
  destruct (escape_char_cases c) as [(_ & x & -> & _ & Hx)|(Hs & Hb & ->)].
  - unfold two. rewrite !append_cons, append_nil.
    cbn [unescape]. rewrite Ascii.eqb_refl, Hx, IH. reflexivity.
  - rewrite append_cons, append_nil. cbn [unescape]. rewrite Hb, IH. reflexivity.
Qed.

Fixpoint has_char (p : ascii -> bool) (s : string) : bool :=
  match s with
  | EmptyString => false
  | String c rest => p c || has_char p rest
  end.

Lemma escapeString_plain s : has_char special s = false -> escapeString s = s.
Proof.
  induction s as [|c r IH]; [reflexivity|].
  cbn [has_char]. intros H. apply orb_false_iff in H as [Hc Hr].
  rewrite escapeString_cons, (IH Hr).
  destruct (escape_char_cases c) as [(Hs & _)|(_ & _ & ->)]; [congruence|].
  reflexivity.
Qed.

Lemma escapeString_length s : String.length s <= String.length (escapeString s).
Proof.
  induction s as [|c r IH]; [reflexivity|].
  rewrite escapeString_cons.
  destruct (escape_char_cases c) as [(_ & x & -> & _)|(_ & _ & ->)].
  - unfold two. rewrite !append_cons, append_nil. simpl. lia.
  - rewrite append_cons, append_nil. simpl. lia.
Qed.

Lemma escapeString_changes s : has_char special s = true -> escapeString s <> s.
Proof.
  induction s as [|c r IH]; [discriminate|].
  cbn [has_char]. intros H Heq.
  rewrite escapeString_cons in Heq.
  destruct (escape_char_cases c) as [(_ & x & Hx & _)|(Hs & _ & Hx)]; rewrite Hx in Heq.
  - unfold two in Heq. rewrite !append_cons, append_nil in Heq.
    apply (f_equal String.length) in Heq. simpl in Heq.
    pose proof (escapeString_length r). lia.
  - rewrite append_cons, append_nil in Heq. inversion Heq as [Hr].
    rewrite Hs in H. simpl in H. apply (IH H Hr).
Qed.

(** X30: [escapeString] returns a body in which every backslash starts one of
    the escapes for backslash, quote, line feed, carriage return and tab,
    and none of these five characters stands unescaped; different strings
    have different escapes; a string is returned unchanged exactly when it
    has none of the five characters; and the five replacement passes
    amount to one pass, character by character. *)
Theorem escapeString_is_safe_and_injective :
  (forall s, well_escaped (escapeString s) = true) /\
  (forall s1 s2, escapeString s1 = escapeString s2 -> s1 = s2) /\
  (forall s, escapeString s = s <-> has_char special s = false) /\
  (forall c r, escapeString (String c r) = escape_char c ++ escapeString r).
Proof.
  split; [exact well_escaped_escapeString|]. split; [|split; [|exact escapeString_cons]].
  - intros s1 s2 H. rewrite <- (unescape_escapeString s1), <- (unescape_escapeString s2), H.
    reflexivity.
  - intros s. split; [|apply escapeString_plain].
    intros H. destruct (has_char special s) eqn:E; [|reflexivity].
    exfalso. apply (escapeString_changes s E H).
Qed.

End Directives.
